(** * Astro documentation PDF generator: the text pipeline of
      [astro_docs_to_pdf.py], embedded and verified.

    Python [str] values are modelled as lists of characters; a character is
    an 8-bit code point (the Latin-1 range of Unicode), for which the
    classes [\s], [\w] and [str.strip] are spelled out below.  External
    libraries ([yaml], [markdown], the file system) enter as parameters. *)

From Stdlib Require Import List Ascii String Arith Lia Bool NArith.
From Stdlib Require Import Sorting.Sorted Sorting.Permutation.
From Stdlib Require Import Numbers.DecimalString.
From Stdlib Require Numbers.DecimalNat.
Import ListNotations.

Set Implicit Arguments.
Set Warnings "-register-all".

Abbreviation length := List.length.

(** ** Python strings *)

Definition str : Type := list ascii.

Definition chars (x : string) : list ascii := list_ascii_of_string x.
Coercion chars : string >-> list.

Open Scope string_scope.
Open Scope list_scope.
Open Scope nat_scope.

Module Str.

Definition eqb (a b : str) : bool :=
  if list_eq_dec ascii_dec a b then true else false.

(** [c in chars] for a one-character [c]. *)
Definition mem (c : ascii) (cs : str) : bool :=
  existsb (Ascii.eqb c) cs.

(** [str.isspace] on one code point below 256: the ASCII white space
    [\t \n \v \f \r], the separators 0x1c-0x1f, the space, NEL (0x85) and
    the no-break space (0xa0). *)
Definition isspace (c : ascii) : bool :=
  let n := nat_of_ascii c in
  ((9 <=? n) && (n <=? 13)) || ((28 <=? n) && (n <=? 32))
  || (n =? 133) || (n =? 160).

(** [a.startswith(p)] *)
Fixpoint startswith (a p : str) {struct p} : bool :=
  match p, a with
  | [], _ => true
  | c :: p', x :: a' => Ascii.eqb x c && startswith a' p'
  | _ :: _, [] => false
  end.

(** [a.endswith(p)] *)
Definition endswith (a p : str) : bool := startswith (rev a) (rev p).

(** [sub in a] *)
Fixpoint contains (a sub : str) : bool :=
  startswith a sub ||
  match a with
  | [] => false
  | _ :: a' => contains a' sub
  end.

(** [a.count(c)] for a one-character [c]. *)
Definition count (a : str) (c : ascii) : nat :=
  List.length (filter (Ascii.eqb c) a).

(** [a.lstrip(chars)], [a.rstrip(chars)], [a.strip(chars)] *)
Fixpoint lstrip_by (p : ascii -> bool) (a : str) : str :=
  match a with
  | c :: a' => if p c then lstrip_by p a' else a
  | [] => []
  end.

Definition rstrip_by (p : ascii -> bool) (a : str) : str :=
  rev (lstrip_by p (rev a)).

Definition strip_by (p : ascii -> bool) (a : str) : str :=
  rstrip_by p (lstrip_by p a).

(** [a.strip()] *)
Definition strip (a : str) : str := strip_by isspace a.

(** [a.strip(chars)] *)
Definition strip_chars (cs a : str) : str :=
  strip_by (fun c => mem c cs) a.

(** [a.split(sep)] for a one-character separator: always at least one
    field. *)
Fixpoint split (sep : ascii) (a : str) : list str :=
  match a with
  | [] => [[]]
  | c :: a' =>
      if Ascii.eqb c sep then [] :: split sep a'
      else match split sep a' with
           | f :: fs => (c :: f) :: fs
           | [] => [[c]]
           end
  end.

(** [a.split(sep, 1)]: the text before the first separator and, when there
    is one, the text after it. *)
Fixpoint split1 (sep : ascii) (a : str) : str * option str :=
  match a with
  | [] => ([], None)
  | c :: a' =>
      if Ascii.eqb c sep then ([], Some a')
      else let '(h, t) := split1 sep a' in (c :: h, t)
  end.

(** [sep.join(parts)] *)
Fixpoint join (sep : str) (parts : list str) : str :=
  match parts with
  | [] => []
  | [p] => p
  | p :: ps => p ++ sep ++ join sep ps
  end.

(** [l.index(x)] on a list of strings: [None] stands for [ValueError]. *)
Fixpoint index (l : list str) (x : str) : option nat :=
  match l with
  | [] => None
  | y :: l' => if eqb y x then Some 0 else option_map S (index l' x)
  end.

(** [str(n)] for a non-negative integer. *)
Definition of_nat (n : nat) : str :=
  chars (NilEmpty.string_of_uint (Nat.to_uint n)).

(** [a * n] *)
Fixpoint repeat (a : str) (n : nat) : str :=
  match n with
  | 0 => []
  | S n' => a ++ repeat a n'
  end.

(** Comparison of two strings, code point by code point, as Python's
    [<] on [str]. *)
Fixpoint ltb (a b : str) : bool :=
  match a, b with
  | [], [] => false
  | [], _ :: _ => true
  | _ :: _, [] => false
  | x :: a', y :: b' =>
      (nat_of_ascii x <? nat_of_ascii y)
      || ((nat_of_ascii x =? nat_of_ascii y) && ltb a' b')
  end.

Definition leb (a b : str) : bool := negb (ltb b a).

End Str.

Definition nl : ascii := "010"%char.

Definition dq : ascii := "034"%char.
Definition sq : ascii := "039"%char.

(** ** Regular expressions: the fragment of Python's [re] the program uses

    A backtracking matcher in continuation-passing style: alternatives are
    tried in the order [re] tries them (greedy repetition prefers one more
    iteration, lazy repetition prefers to stop), and the first success
    wins. *)

Module Re.

Inductive item : Type :=
| IChar (c : ascii)
| IRange (lo hi : ascii)
| ISpace
| IWord.

Inductive regex : Type :=
| Eps
| Chr (c : ascii)
| Any
| Cls (neg : bool) (items : list item)
| Seq (r1 r2 : regex)
| Alt (r1 r2 : regex)
| Star (greedy : bool) (r : regex)
| Group (n : nat) (r : regex)
| Bol
| Eol.

Record flags : Type := { multiline : bool; dotall : bool }.

Definition no_flags : flags := {| multiline := false; dotall := false |}.
Definition MULTILINE : flags := {| multiline := true; dotall := false |}.
Definition DOTALL : flags := {| multiline := false; dotall := true |}.

(** A position in the subject: the character before it, the text from it
    on, and the groups captured so far. *)
Record mstate : Type :=
  { prev : option ascii; rest : str; caps : list (nat * str) }.

Definition init (p : option ascii) (a : str) : mstate :=
  {| prev := p; rest := a; caps := [] |}.

(** [\w] on one code point below 256: alphanumeric in Unicode's sense, or
    the underscore. *)
Definition isword (c : ascii) : bool :=
  let n := nat_of_ascii c in
  ((48 <=? n) && (n <=? 57)) || ((65 <=? n) && (n <=? 90))
  || ((97 <=? n) && (n <=? 122)) || (n =? 95)
  || (n =? 170) || (n =? 178) || (n =? 179) || (n =? 181) || (n =? 185)
  || (n =? 186) || ((188 <=? n) && (n <=? 190))
  || ((192 <=? n) && (n <=? 214)) || ((216 <=? n) && (n <=? 246))
  || (248 <=? n).

Definition item_has (x : ascii) (i : item) : bool :=
  match i with
  | IChar c => Ascii.eqb x c
  | IRange lo hi =>
      (nat_of_ascii lo <=? nat_of_ascii x) && (nat_of_ascii x <=? nat_of_ascii hi)
  | ISpace => Str.isspace x
  | IWord => isword x
  end.

Definition cls_has (neg : bool) (items : list item) (x : ascii) : bool :=
  xorb neg (existsb (item_has x) items).

Definition any_has (fl : flags) (x : ascii) : bool :=
  dotall fl || negb (Ascii.eqb x nl).

(** Consume one character satisfying [p]. *)
Definition step (p : ascii -> bool) (k : mstate -> option mstate)
    (st : mstate) : option mstate :=
  match rest st with
  | x :: a =>
      if p x then k {| prev := Some x; rest := a; caps := caps st |} else None
  | [] => None
  end.

(** [^]: at the start of the subject, or after a newline in multiline
    mode. *)
Definition at_bol (fl : flags) (st : mstate) : bool :=
  match prev st with
  | None => true
  | Some c => multiline fl && Ascii.eqb c nl
  end.

(** [$]: at the end of the subject or before its final newline; before any
    newline in multiline mode. *)
Definition at_eol (fl : flags) (st : mstate) : bool :=
  match rest st with
  | [] => true
  | c :: a =>
      Ascii.eqb c nl && (multiline fl || match a with [] => true | _ => false end)
  end.

(** The text consumed between two positions of one subject. *)
Definition consumed (st st' : mstate) : str :=
  firstn (length (rest st) - length (rest st')) (rest st).

Definition set_cap (n : nat) (a : str) (st : mstate) : mstate :=
  {| prev := prev st; rest := rest st; caps := (n, a) :: caps st |}.

Notation "a 'orelse' b" :=
  (match a with Some x => Some x | None => b end)
  (at level 70, no associativity, only parsing).

(** Repetition of [body], at most [n] more times; an iteration that
    consumes nothing is not repeated. *)
Fixpoint star_loop (greedy : bool)
    (body : (mstate -> option mstate) -> mstate -> option mstate)
    (k : mstate -> option mstate) (n : nat) (st : mstate) : option mstate :=
  match n with
  | 0 => k st
  | S n' =>
      let again st' :=
        if length (rest st') <? length (rest st)
        then star_loop greedy body k n' st' else None in
      if greedy then body again st orelse k st
      else k st orelse body again st
  end.

Fixpoint rmatch (fl : flags) (r : regex) (k : mstate -> option mstate)
    (st : mstate) {struct r} : option mstate :=
  match r with
  | Eps => k st
  | Chr c => step (Ascii.eqb c) k st
  | Any => step (any_has fl) k st
  | Cls neg items => step (cls_has neg items) k st
  | Seq r1 r2 => rmatch fl r1 (rmatch fl r2 k) st
  | Alt r1 r2 => rmatch fl r1 k st orelse rmatch fl r2 k st
  | Star greedy r1 =>
      star_loop greedy (rmatch fl r1) k (length (rest st)) st
  | Group n r1 =>
      rmatch fl r1 (fun st' => k (set_cap n (consumed st st') st')) st
  | Bol => if at_bol fl st then k st else None
  | Eol => if at_eol fl st then k st else None
  end.

(** Derived forms. *)
Definition Plus (greedy : bool) (r : regex) : regex := Seq r (Star greedy r).
Definition Opt (r : regex) : regex := Alt r Eps.

Fixpoint seqs (rs : list regex) : regex :=
  match rs with
  | [] => Eps
  | r :: rs' => Seq r (seqs rs')
  end.

Definition lit (w : str) : regex := seqs (map Chr w).

Definition space : regex := Cls false [ISpace].
Definition word : regex := Cls false [IWord].
Definition none_of (w : str) : regex := Cls true (map IChar w).
Definition one_of (w : str) : regex := Cls false (map IChar w).

(** [m.group(n)]: [None] when the group took no part in the match. *)
Fixpoint lookup (n : nat) (l : list (nat * str)) : option str :=
  match l with
  | [] => None
  | (m, a) :: l' => if n =? m then Some a else lookup n l'
  end.

Definition group (st : mstate) (n : nat) : option str := lookup n (caps st).

Definition group_or_empty (st : mstate) (n : nat) : str :=
  match group st n with Some a => a | None => [] end.

(** Match at the current position only. *)
Definition match_here (fl : flags) (r : regex) (p : option ascii) (a : str)
    : option mstate :=
  rmatch fl r (fun st => Some st) (init p a).

(** [re.search]: the leftmost position where the pattern matches; returns
    the text skipped before the match and the final state. *)
Fixpoint search_from (fl : flags) (r : regex) (p : option ascii) (a : str)
    : option (str * mstate) :=
  match match_here fl r p a with
  | Some st => Some ([], st)
  | None =>
      match a with
      | [] => None
      | c :: a' =>
          match search_from fl r (Some c) a' with
          | Some (sk, st) => Some (c :: sk, st)
          | None => None
          end
      end
  end.

Definition search (fl : flags) (r : regex) (a : str) : option mstate :=
  option_map snd (search_from fl r None a).

(** [re.sub] with a replacement function: the non-overlapping matches from
    left to right.  After an empty match the next character is copied; no
    pattern of the program matches the empty text, so that branch is never
    taken here. *)
Fixpoint sub_loop (fl : flags) (r : regex) (repl : mstate -> str)
    (fuel : nat) (p : option ascii) (a : str) : str :=
  match fuel with
  | 0 => a
  | S fuel' =>
      match search_from fl r p a with
      | None => a
      | Some (sk, st) =>
          let after := rest st in
          if length sk + length after <? length a
          then sk ++ repl st ++ sub_loop fl r repl fuel' (prev st) after
          else
            match after with
            | [] => sk ++ repl st
            | c :: after' =>
                sk ++ repl st ++ c :: sub_loop fl r repl fuel' (Some c) after'
            end
      end
  end.

Definition sub (fl : flags) (r : regex) (repl : mstate -> str) (a : str)
    : str :=
  sub_loop fl r repl (S (length a)) None a.

End Re.

Import Re.

(** ** Image references: [process_image_paths] *)

Definition base_url : str := "https://docs.astro.build/".

(** [r'^[./~]+'] *)
Definition leading_markers : regex := seqs [Bol; Plus true (one_of "./~")].

(** [re.sub(r'^[./~]+', '', image_path)] *)
Definition normalize_path (image_path : str) : str :=
  sub no_flags leading_markers (fun _ => []) image_path.

(** [f'![{alt}](https://docs.astro.build/{path})'] *)
Definition image_link (alt path : str) : str :=
  "![" ++ alt ++ "](" ++ base_url ++ path ++ ")".

(** The pattern [import\s+(\w+)\s+from\s+[QQ]([^QQ]+)[QQ]], where [QQ]
    stands for the two quote characters. *)
Definition mdx_pattern : regex :=
  seqs [lit "import"; Plus true space; Group 1 (Plus true word);
        Plus true space; lit "from"; Plus true space; one_of [sq; dq];
        Group 2 (Plus true (none_of [sq; dq])); one_of [sq; dq]].

Definition mdx_replace (m : mstate) : str :=
  let var_name := group_or_empty m 1 in
  let image_path := group_or_empty m 2 in
  let image_path := normalize_path image_path in
  image_link var_name image_path.

(** [r'!\[(.*?)\]\(([^http].*?)\)'] *)
Definition md_pattern : regex :=
  seqs [lit "!["; Group 1 (Star false Any); lit "](";
        Group 2 (Seq (none_of "http") (Star false Any)); Chr ")"].

Definition md_replace (m : mstate) : str :=
  let alt_text := group_or_empty m 1 in
  let image_path := group_or_empty m 2 in
  let image_path := normalize_path image_path in
  image_link alt_text image_path.

(** The pattern [<Image\s+src={([^}]+)}\s+alt=Q([^Q]+)Q[^>]*>], where [Q]
    stands for the double quote. *)
Definition component_pattern : regex :=
  seqs [lit "<Image"; Plus true space; lit "src={";
        Group 1 (Plus true (none_of "}")); Chr "}"; Plus true space;
        lit "alt="; Chr dq; Group 2 (Plus true (none_of [dq])); Chr dq;
        Star true (none_of ">"); Chr ">"].

Definition component_replace (m : mstate) : str :=
  let src := Str.strip_chars [dq; sq] (Str.strip_chars "{}" (group_or_empty m 1)) in
  let alt := group_or_empty m 2 in
  let src := normalize_path src in
  image_link alt src.

(** The three passes, in the order of the source.  No operation of the body
    raises on a [str], so the wrapping [try] never fires. *)
Definition mdx_pass (md_content : str) : str :=
  sub no_flags mdx_pattern mdx_replace md_content.

Definition md_pass (md_content : str) : str :=
  sub no_flags md_pattern md_replace md_content.

Definition component_pass (md_content : str) : str :=
  sub no_flags component_pattern component_replace md_content.

Definition process_image_paths (md_content : str) : str :=
  let md_content := mdx_pass md_content in
  let md_content := md_pass md_content in
  component_pass md_content.

(** ** Code blocks: [preprocess_code_blocks] *)

Definition fence : str := "```".

(** The fenced-block pattern, matched with [re.DOTALL]: three backticks,
    an optional language [(\w+)], white space, an optional attribute string
    between braces (group 2, any characters but the closing brace), white
    space, the block (group 3, lazy [.*?]), three backticks. *)
Definition code_pattern : regex :=
  seqs [lit fence; Opt (Group 1 (Plus true word)); Star true space;
        Opt (seqs [Chr "{"; Group 2 (Star true (none_of "}")); Chr "}"]);
        Star true space; Group 3 (Star false Any); lit fence].

(** The pattern [title=Q([^Q]+)Q], where [Q] stands for the double quote. *)
Definition title_attr_pattern : regex :=
  seqs [lit "title="; Chr dq; Group 1 (Plus true (none_of [dq])); Chr dq].

Definition code_replace (m : mstate) : str :=
  let language := group_or_empty m 1 in
  let attributes := group_or_empty m 2 in
  let code_block := group_or_empty m 3 in
  let title :=
    match attributes with
    | [] => []
    | _ :: _ =>
        match search no_flags title_attr_pattern attributes with
        | Some title_match => group_or_empty title_match 1
        | None => []
        end
    end in
  let header_parts :=
    (match title with [] => [] | _ :: _ => [title] end)
    ++ (match language with [] => [] | _ :: _ => ["(" ++ language ++ ")"] end) in
  let header_html :=
    match header_parts with
    | [] => []
    | _ :: _ =>
        "<div class=" ++ [dq] ++ "code-header" ++ [dq] ++ "><i>"
        ++ Str.join " " header_parts ++ "</i></div>"
    end in
  header_html ++ [nl] ++ fence ++ language ++ [nl]
  ++ Str.strip code_block ++ [nl] ++ fence.

Definition preprocess_code_blocks (md_content : str) : str :=
  sub DOTALL code_pattern code_replace md_content.

(** ** Frontmatter: [parse_frontmatter] and [safe_load_frontmatter] *)

Definition marker : str := "---".

(** The pattern [import.*?\n]. *)
Definition import_line_pattern : regex :=
  seqs [lit "import"; Star false Any; Chr nl].

(** The first definition of [parse_frontmatter] in the source: it is
    replaced by the second definition of the same name before any call, so
    the program never runs it. *)
Definition parse_frontmatter_shadowed (md_content : str) : option str * str :=
  let lines := Str.split nl md_content in
  match lines with
  | [] => (None, md_content)
  | first :: others =>
      if Str.eqb (Str.strip first) marker then
        match Str.index others marker with
        | Some i =>
            let end_of_frontmatter := i + 1 in
            let frontmatter :=
              Str.join [nl] (firstn (end_of_frontmatter - 1) others) in
            let content :=
              Str.join [nl] (skipn (end_of_frontmatter + 1) lines) in
            let content := sub no_flags import_line_pattern (fun _ => []) content in
            (Some frontmatter, content)
        | None => (None, md_content)
        end
      else (None, md_content)
  end.

(** The pattern [\s+i18nReady:\s*true]. *)
Definition i18n_pattern : regex :=
  seqs [Plus true space; lit "i18nReady:"; Star true space; lit "true"].

(** The pattern [:\s*\|]. *)
Definition block_scalar_pattern : regex :=
  seqs [Chr ":"; Star true space; Chr "|"].

(** The second, effective definition. *)
Definition parse_frontmatter (md_content : str) : option str * str :=
  let lines := Str.split nl md_content in
  match lines with
  | [] => (None, md_content)
  | first :: others =>
      if Str.eqb (Str.strip first) marker then
        match Str.index others marker with
        | Some i =>
            let end_of_frontmatter := i + 1 in
            let frontmatter :=
              Str.join [nl] (firstn (end_of_frontmatter - 1) others) in
            let content :=
              Str.join [nl] (skipn (end_of_frontmatter + 1) lines) in
            let frontmatter := sub no_flags i18n_pattern (fun _ => []) frontmatter in
            let frontmatter :=
              sub no_flags block_scalar_pattern (fun _ => ": ") frontmatter in
            (Some frontmatter, content)
        | None => (None, md_content)
        end
      else (None, md_content)
  end.

(** A Python [dict] with string keys, in insertion order. *)
Definition dict : Type := list (str * str).

Fixpoint dict_get (d : dict) (key : str) : option str :=
  match d with
  | [] => None
  | (k, v) :: d' => if Str.eqb k key then Some v else dict_get d' key
  end.

Fixpoint dict_set (d : dict) (key value : str) : dict :=
  match d with
  | [] => [(key, value)]
  | (k, v) :: d' =>
      if Str.eqb k key then (k, value) :: d' else (k, v) :: dict_set d' key value
  end.

(** [d.update(other)] *)
Definition dict_update (d other : dict) : dict :=
  fold_left (fun acc kv => dict_set acc (fst kv) (snd kv)) other d.

(** The pattern [KEY:\s*[QQ]?(.*?)(?:[QQ]?\s*$|[QQ]?\s+\w+:)] for a field
    name [KEY], matched with [re.MULTILINE]; [QQ] stands for the two quote
    characters. *)
Definition field_pattern (key : str) : regex :=
  seqs [lit key; Chr ":"; Star true space; Opt (one_of [sq; dq]);
        Group 1 (Star false Any);
        Alt (seqs [Opt (one_of [sq; dq]); Star true space; Eol])
            (seqs [Opt (one_of [sq; dq]); Plus true space; Plus true word; Chr ":"])].

(** The loop that drops the lines known to break the YAML parser. *)
Definition keep_line (line : str) : bool :=
  if existsb (Str.contains line)
       ["githubIntegrationURL:" : str; "label:" : str; "maxHeadingLevel:" : str]
  then false
  else if Str.contains line ":" then
    match Str.split1 ":" line with
    | (_, Some value) =>
        if Str.contains value "http" && Str.contains value [sq]
           && negb (Str.endswith value [sq])
        then false
        else if (Str.count value sq =? 1) || (Str.count value dq =? 1)
        then false
        else true
    | (_, None) => true
    end
  else false.

Section Frontmatter.

(** [yaml.safe_load], an external library: [Some d] when the text parses to
    a mapping [d] (keys and values given by their [str] rendering), [None]
    when it parses to anything else or the parser raises. *)
Variable yaml_safe_load : str -> option dict.

Definition safe_load_frontmatter (frontmatter_content : str) : option dict :=
  match frontmatter_content with
  | [] => None
  | _ :: _ =>
      let title_match := search MULTILINE (field_pattern "title") frontmatter_content in
      let desc_match :=
        search MULTILINE (field_pattern "description") frontmatter_content in
      let metadata : dict := [] in
      let metadata :=
        match title_match with
        | Some m =>
            dict_set metadata "title"
              (Str.strip_chars [" "%char; sq; dq] (group_or_empty m 1))
        | None => metadata
        end in
      let metadata :=
        match desc_match with
        | Some m =>
            dict_set metadata "description"
              (Str.strip_chars [" "%char; sq; dq] (group_or_empty m 1))
        | None => metadata
        end in
      let lines := filter keep_line (Str.split nl frontmatter_content) in
      let cleaned_content := Str.join [nl] lines in
      let metadata :=
        match yaml_safe_load cleaned_content with
        | Some parsed_data => dict_update metadata parsed_data
        | None => metadata
        end in
      match metadata with
      | [] => None
      | _ :: _ => Some metadata
      end
  end.

End Frontmatter.

(** Documents of the examples, written line by line. *)
Definition lines (l : list str) : str := Str.join [nl] l.
Definition text (l : list string) : str := lines (map chars l).

(** ** Paths: the functions of [os.path] (POSIX) and [pathlib] in use *)

Module PosixPath.

Definition is_sep (c : ascii) : bool := Ascii.eqb c "/".

(** [os.path.isabs] *)
Definition isabs (p : str) : bool := Str.startswith p "/".

(** [os.path.join(a, b)] *)
Definition join (a b : str) : str :=
  if Str.startswith b "/" then b
  else match a with
       | [] => b
       | _ :: _ => if Str.endswith a "/" then a ++ b else a ++ "/" ++ b
       end.

(** The longest prefix without a separator, and what follows it. *)
Fixpoint span_name (a : str) : str * str :=
  match a with
  | [] => ([], [])
  | c :: a' =>
      if is_sep c then ([], a)
      else let '(n, r) := span_name a' in (c :: n, r)
  end.

(** [os.path.basename]: what follows the last separator. *)
Definition basename (p : str) : str := rev (fst (span_name (rev p))).

(** [os.path.dirname]: what precedes the last separator, without trailing
    separators unless it consists of separators only. *)
Definition dirname (p : str) : str :=
  let head := rev (snd (span_name (rev p))) in
  match head with
  | [] => head
  | _ :: _ => if forallb is_sep head then head else Str.rstrip_by is_sep head
  end.

(** The loop of [os.path.normpath] over the components. *)
Fixpoint norm_comps (initial_slashes : nat) (comps new_comps : list str)
    : list str :=
  match comps with
  | [] => new_comps
  | comp :: comps' =>
      if Str.eqb comp [] || Str.eqb comp "." then
        norm_comps initial_slashes comps' new_comps
      else if negb (Str.eqb comp "..")
              || ((initial_slashes =? 0) && (length new_comps =? 0))
              || (match rev new_comps with
                  | last :: _ => Str.eqb last ".."
                  | [] => false
                  end)
      then norm_comps initial_slashes comps' (new_comps ++ [comp])
      else norm_comps initial_slashes comps' (removelast new_comps)
  end.

(** The leading separators [os.path.normpath] keeps: one, or two when the
    path starts with exactly two. *)
Definition initial_slashes (path : str) : nat :=
  if Str.startswith path "/" then
    if Str.startswith path "//" && negb (Str.startswith path "///")
    then 2 else 1
  else 0.

(** [os.path.normpath] *)
Definition normpath (path : str) : str :=
  match path with
  | [] => "."
  | _ :: _ =>
      let comps := norm_comps (initial_slashes path) (Str.split "/" path) [] in
      let path := Str.repeat "/" (initial_slashes path) ++ Str.join "/" comps in
      match path with
      | [] => "."
      | _ :: _ => path
      end
  end.

(** [os.path.abspath], in the working directory [cwd]. *)
Definition abspath (cwd path : str) : str :=
  normpath (if isabs path then path else join cwd path).

(** [os.path.commonprefix] of two lists of components. *)
Fixpoint commonprefix (a b : list str) : list str :=
  match a, b with
  | x :: a', y :: b' => if Str.eqb x y then x :: commonprefix a' b' else []
  | _, _ => []
  end.

Definition nonempty (a : str) : bool :=
  match a with [] => false | _ :: _ => true end.

(** [os.path.relpath(path, start)]; [None] stands for the [ValueError]
    raised on an empty [path]. *)
Definition relpath (cwd path start : str) : option str :=
  match path with
  | [] => None
  | _ :: _ =>
      let start_list := filter nonempty (Str.split "/" (abspath cwd start)) in
      let path_list := filter nonempty (Str.split "/" (abspath cwd path)) in
      let i := length (commonprefix start_list path_list) in
      let rel_list :=
        List.repeat (".." : str) (length start_list - i) ++ skipn i path_list in
      match rel_list with
      | [] => Some ("." : str)
      | _ :: _ => Some (Str.join "/" rel_list)
      end
  end.

(** [pathlib.PurePosixPath(p).parts]: the root, if any, then the components
    that are neither empty nor a single dot. *)
Definition parts (p : str) : list str :=
  let comps :=
    filter (fun c => nonempty c && negb (Str.eqb c ".")) (Str.split "/" p) in
  if Str.startswith p "/" then
    (if Str.startswith p "//" && negb (Str.startswith p "///")
     then ("//" : str) else ("/" : str)) :: comps
  else comps.

Fixpoint is_prefix (a b : list str) : bool :=
  match a, b with
  | [], _ => true
  | x :: a', y :: b' => Str.eqb x y && is_prefix a' b'
  | _ :: _, [] => false
  end.

(** [Path(p).relative_to(Path(a) / b).as_posix()]; [None] stands for the
    [ValueError] raised when the one is not below the other, which includes
    a rooted path taken relative to the empty path. *)
Definition relative_to (p a b : str) : option str :=
  let other := parts (join a b) in
  let self := parts p in
  let rooted :=
    match other with
    | [] => Str.startswith p "/"
    | _ :: _ => false
    end in
  if negb rooted && is_prefix other self then
    match skipn (length other) self with
    | [] => Some ("." : str)
    | rel => Some (Str.join "/" rel)
    end
  else None.

(** [Path(p).stem]: the final component without its last suffix. *)
Definition stem (p : str) : str :=
  match rev (parts p) with
  | [] => []
  | name :: _ =>
      if Str.startswith name "/" then []
      else
        let '(ext_rev, before_rev) := Str.split1 "." (rev name) in
        match before_rev with
        | Some ((_ :: _) as b) =>
            match ext_rev with
            | [] => name
            | _ :: _ => rev b
            end
        | _ => name
        end
  end.

End PosixPath.

(** ** File discovery: [get_files_sorted] *)

(** A directory: its sub-directories and its files, each list in the order
    the operating system lists them (any order). *)
Inductive tree : Type :=
| Dir (subdirs : list (str * tree)) (files : list str).

Definition excluded_dirs : list str :=
  ["node_modules" : str; ".git" : str; "_internal" : str; "dist" : str;
   "temp" : str; "__pycache__" : str].

Definition in_strs (x : str) (l : list str) : bool := existsb (Str.eqb x) l.

(** The filter applied to [dirs] in place, which prunes the walk. *)
Definition keep_dir (d : str) : bool :=
  negb (in_strs d excluded_dirs) && negb (Str.startswith d "_").

(** [os.walk(top)], top-down: every visited directory with its files. *)
Fixpoint walk (top : str) (t : tree) : list (str * list str) :=
  match t with
  | Dir subdirs files =>
      (top, files)
      :: flat_map
           (fun dt => if keep_dir (fst dt)
                      then walk (PosixPath.join top (fst dt)) (snd dt) else [])
           subdirs
  end.

Definition is_document (file : str) : bool :=
  Str.endswith file ".md" || Str.endswith file ".mdx".

(** The sort key built for one file of the directory [root]. *)
Definition sort_key (root file : str) : str :=
  let full_path := PosixPath.join root file in
  let is_index := Str.eqb file "index.md" in
  let dir_path := PosixPath.dirname full_path in
  dir_path ++ "/" ++ (if is_index then "0" else "1") ++ file.

(** The body of the inner loop: the entry appended for [file], if any. *)
Definition entry (root file : str) : option (str * str) :=
  if is_document file then
    let full_path := PosixPath.join root file in
    if existsb (fun x => in_strs x (PosixPath.parts full_path)) excluded_dirs
    then None
    else Some (full_path, sort_key root file)
  else None.

Fixpoint entries_of (root : str) (files : list str) : list (str * str) :=
  match files with
  | [] => []
  | file :: files' =>
      match entry root file with
      | Some e => e :: entries_of root files'
      | None => entries_of root files'
      end
  end.

Definition all_files (root_dir : str) (t : tree) : list (str * str) :=
  flat_map (fun rf => entries_of (fst rf) (snd rf)) (walk root_dir t).

(** [list.sort(key=...)]: a stable sort on the keys. *)
Fixpoint insert_by_key (e : str * str) (l : list (str * str))
    : list (str * str) :=
  match l with
  | [] => [e]
  | x :: l' =>
      if Str.leb (snd e) (snd x) then e :: l else x :: insert_by_key e l'
  end.

Fixpoint sort_by_key (l : list (str * str)) : list (str * str) :=
  match l with
  | [] => []
  | e :: l' => insert_by_key e (sort_by_key l')
  end.

(** [None] stands for the [DocumentationProcessingError] raised when no
    document is found. *)
Definition get_files_sorted (root_dir : str) (t : tree) : option (list str) :=
  match all_files root_dir t with
  | [] => None
  | (_ :: _) as found => Some (map fst (sort_by_key found))
  end.

(** ** Table of contents and page assembly: [process_files] *)

(** One line of the table of contents, before it is formatted. *)
Record toc_entry : Type :=
  { entry_depth : nat; entry_numbering : list nat; entry_title : str }.

(** The state the per-document loop mutates. *)
Record loop_state : Type :=
  { toc : list toc_entry;
    html_all_pages_content : list str;
    numbering : list nat }.

Definition initial_state : loop_state :=
  {| toc := []; html_all_pages_content := []; numbering := [0] |}.

(** [while len(numbering) <= depth: numbering.append(0)] *)
Definition extend_to (depth : nat) (numbering : list nat) : list nat :=
  numbering ++ List.repeat 0 (depth + 1 - length numbering).

(** [numbering[depth] += 1] *)
Fixpoint incr_at (depth : nat) (numbering : list nat) : list nat :=
  match numbering, depth with
  | [], _ => []
  | x :: l, 0 => (x + 1) :: l
  | x :: l, S d => x :: incr_at d l
  end.

(** [for i in range(depth + 1, len(numbering)): numbering[i] = 0] *)
Definition zero_after (depth : nat) (numbering : list nat) : list nat :=
  firstn (depth + 1) numbering
  ++ List.repeat 0 (length numbering - (depth + 1)).

Definition bump (depth : nat) (numbering : list nat) : list nat :=
  zero_after depth (incr_at depth (extend_to depth numbering)).

(** ['.'.join(map(str, numbering))] *)
Definition dotted (numbering : list nat) : str :=
  Str.join "." (map Str.of_nat numbering).

Definition toc_numbering (e : toc_entry) : str := dotted (entry_numbering e).

Definition toc_full_title (e : toc_entry) : str :=
  toc_numbering e ++ " - " ++ entry_title e.

Definition toc_line (e : toc_entry) : str :=
  let indent := Str.repeat (Str.repeat "&nbsp;" 5) (entry_depth e) in
  indent ++ "<a href='#" ++ toc_full_title e ++ "'>" ++ toc_full_title e
  ++ "</a><br/>".

Definition page_break : str :=
  "<div class=" ++ [dq] ++ "page-break" ++ [dq] ++ "></div>".

Definition html_header (css_content : str) : str :=
  lines
    [ [];
      chars "        <!DOCTYPE html>";
      "        <html lang=" ++ [dq] ++ "en" ++ [dq] ++ ">";
      chars "        <head>";
      "            <meta charset=" ++ [dq] ++ "UTF-8" ++ [dq] ++ ">";
      "            <meta name=" ++ [dq] ++ "viewport" ++ [dq] ++ " content=" ++ [dq]
        ++ "width=device-width, initial-scale=1.0" ++ [dq] ++ ">";
      "            <style>" ++ css_content ++ "</style>";
      chars "        </head>";
      chars "        <body>";
      chars "        " ].

Definition toc_html (toc : list toc_entry) : str :=
  lines
    [ [];
      "        <div style=" ++ [dq] ++ "padding-bottom: 10px" ++ [dq] ++ ">";
      "            <div style=" ++ [dq] ++ "padding-bottom: 20px" ++ [dq] ++ ">";
      chars "                <h1>Table of Contents</h1>";
      chars "            </div>";
      "            " ++ List.concat (map toc_line toc);
      chars "        </div>";
      "        <div style=" ++ [dq] ++ "page-break-before: always;" ++ [dq] ++ ">";
      chars "        " ].

Section ProcessFiles.

(** The world around the program: the YAML and Markdown libraries, the
    files ([None] when reading raises), the stylesheet [styles.css] once it
    exists, the working directory, and [str.title]. *)
Variable yaml_safe_load : str -> option dict.
Variable markdown_markdown : str -> option str.
Variable read_file : str -> option str.
Variable styles_css : option str.
Variable cwd : str.
Variable str_title : str -> str.

(** What the document at [file_path] yields up to the two tests
    [if frontmatter:] and [if data is not None:]: its metadata and its
    body, or nothing. *)
Definition load_document (file_path : str) : option (dict * str) :=
  match read_file file_path with
  | None => None
  | Some md_content =>
      let md_content := process_image_paths md_content in
      let md_content := preprocess_code_blocks md_content in
      let '(frontmatter, md_content) := parse_frontmatter md_content in
      match frontmatter with
      | Some ((_ :: _) as frontmatter) =>
          match safe_load_frontmatter yaml_safe_load frontmatter with
          | Some data => Some (data, md_content)
          | None => None
          end
      | _ => None
      end
  end.

(** The depth of a document in the table of contents. *)
Definition toc_depth (file_path repo_dir docs_dir : str) : option nat :=
  match PosixPath.relpath cwd file_path (PosixPath.join repo_dir docs_dir) with
  | None => None
  | Some rel_path =>
      let depth := Str.count rel_path "/" in
      if Str.eqb (PosixPath.basename file_path) "index.md" && (0 <? depth)
      then Some (depth - 1) else Some depth
  end.

(** The page of one document: [None] when building it raises. *)
Definition html_page (e : toc_entry) (data : dict) (md_content : str)
    (file_path repo_dir docs_dir : str) : option str :=
  match PosixPath.relative_to file_path repo_dir docs_dir with
  | None => None
  | Some doc_path =>
      let html_page_content :=
        [ "<h1 id='" ++ toc_full_title e ++ "'>" ++ toc_full_title e ++ "</h1>";
          "<div class='doc-path'><p>Documentation path: " ++ doc_path
          ++ "</p></div>" ] in
      let html_page_content :=
        match dict_get data "description" with
        | Some description =>
            html_page_content
            ++ [ "<p><strong>Description:</strong> " ++ description ++ "</p>";
                 chars "<br/>" ]
        | None => html_page_content
        end in
      match markdown_markdown md_content with
      | None => None
      | Some body => Some (Str.join [nl] (html_page_content ++ [body]))
      end
  end.

(** The body of the loop for the document at position [index]: an
    exception anywhere in it is caught and the loop goes on, with the
    mutations made so far kept. *)
Definition process_file (files : list str) (repo_dir docs_dir : str)
    (st : loop_state) (index : nat) (file_path : str) : loop_state :=
  match load_document file_path with
  | None => st
  | Some (data, md_content) =>
      match toc_depth file_path repo_dir docs_dir with
      | None => st
      | Some depth =>
          let numbering := bump depth (numbering st) in
          let toc_title :=
            match dict_get data "title" with
            | Some title => title
            | None => str_title (PosixPath.stem file_path)
            end in
          let e :=
            {| entry_depth := depth;
               entry_numbering := firstn (depth + 1) numbering;
               entry_title := toc_title |} in
          let toc := toc st ++ [e] in
          match html_page e data md_content file_path repo_dir docs_dir with
          | None =>
              {| toc := toc;
                 html_all_pages_content := html_all_pages_content st;
                 numbering := numbering |}
          | Some page =>
              {| toc := toc;
                 html_all_pages_content :=
                   html_all_pages_content st ++ [page]
                   ++ (if index <? length files - 1 then [page_break] else []);
                 numbering := numbering |}
          end
      end
  end.

(** [for index, file_path in enumerate(files)], from position [index] on. *)
Fixpoint process_from (files : list str) (repo_dir docs_dir : str)
    (st : loop_state) (index : nat) (todo : list str) : loop_state :=
  match todo with
  | [] => st
  | file_path :: todo' =>
      process_from files repo_dir docs_dir
        (process_file files repo_dir docs_dir st index file_path)
        (S index) todo'
  end.

Definition process_loop (files : list str) (repo_dir docs_dir : str)
    : loop_state :=
  process_from files repo_dir docs_dir initial_state 0 files.

(** [None] stands for the [DocumentationProcessingError] the function
    raises. *)
Definition process_files (files : list str) (repo_dir docs_dir : str)
    : option str :=
  match styles_css with
  | None => None
  | Some css_content =>
      let st := process_loop files repo_dir docs_dir in
      match html_all_pages_content st with
      | [] => None
      | _ :: _ =>
          let final_content := Str.join [nl] (html_all_pages_content st) in
          Some (html_header css_content ++ toc_html (toc st) ++ final_content
                ++ "</body></html>")
      end
  end.

End ProcessFiles.

(** ** The license page and the entry point: [add_license_page], [main] *)

Definition get_license_notice : str :=
  text
    [ "";
      "This PDF was generated by Astro Documentation PDF Generator";
      "Original work Copyright (C) 2024 Riyooo";
      "Modified work Copyright (C) 2024 PacNPal";
      "";
      "This program is free software: you can redistribute it and/or modify";
      "it under the terms of the GNU Affero General Public License version 3.";
      "Source code is available at: https://github.com/PacFactory/Docs-Exporter-Astro";
      "" ].

Definition license_html : str :=
  lines
    [ [];
      "    <div class=" ++ [dq] ++ "license-notice" ++ [dq] ++ " style=" ++ [dq]
        ++ "page-break-before: always;" ++ [dq] ++ ">";
      chars "        <h2>License Notice</h2>";
      "        <pre style=" ++ [dq]
        ++ "white-space: pre-wrap; font-family: monospace;" ++ [dq] ++ ">";
      "            " ++ get_license_notice;
      chars "        </pre>";
      chars "        <p>Complete source code for this program is available at: https://github.com/PacFactory/Docs-Exporter-Astro</p>";
      chars "        <p>This program comes with ABSOLUTELY NO WARRANTY. This is free software, and you ";
      chars "        are welcome to redistribute it under certain conditions. See the GNU Affero General ";
      chars "        Public License version 3 for details.</p>";
      chars "    </div>";
      chars "    " ].

Definition add_license_page (html_content : str) : str :=
  html_content ++ license_html.

Definition cover_html (css_content today : str) : str :=
  lines
    [ [];
      chars "        <!DOCTYPE html>";
      "        <html lang=" ++ [dq] ++ "en" ++ [dq] ++ ">";
      chars "        <head>";
      "            <meta charset=" ++ [dq] ++ "UTF-8" ++ [dq] ++ ">";
      "            <style>" ++ css_content ++ "</style>";
      chars "        </head>";
      chars "        <body>";
      "            <div class=" ++ [dq] ++ "master-container" ++ [dq] ++ ">";
      "                <div class=" ++ [dq] ++ "container" ++ [dq] ++ ">";
      "                    <div class=" ++ [dq] ++ "title" ++ [dq]
        ++ ">Astro Documentation</div>";
      "                    <div class=" ++ [dq] ++ "date" ++ [dq]
        ++ ">Generated on " ++ today ++ "</div>";
      chars "                </div>";
      chars "            </div>";
      chars "        </body>";
      chars "        </html>";
      chars "        " ].

Section Main.

Variable yaml_safe_load : str -> option dict.
Variable markdown_markdown : str -> option str.
Variable read_file : str -> option str.
Variable styles_css : option str.
Variable cwd : str.
Variable str_title : str -> str.

(** [datetime.now().strftime('%Y-%m-%d')], as read for the cover. *)
Variable today : str.

(** What [clone_repo] leaves below the documentation directory; [None]
    when it raises. *)
Variable clone_repo : option tree.

(** [generate_pdf], an effect: [false] when it raises. *)
Variable generate_pdf : str -> bool.

Definition repo_dir : str := "astro-docs".
Definition docs_dir : str := "src/content/docs/en".

(** The document handed to [generate_pdf]; [None] when an exception is
    raised before. *)
Definition final_html : option str :=
  match clone_repo with
  | None => None
  | Some t =>
      let docs_dir_full_path := PosixPath.join repo_dir docs_dir in
      match get_files_sorted docs_dir_full_path t with
      | None => None
      | Some files_to_process =>
          match styles_css with
          | None => None
          | Some css_content =>
              let cover_html := cover_html css_content today in
              match process_files yaml_safe_load markdown_markdown read_file
                      styles_css cwd str_title files_to_process repo_dir
                      docs_dir with
              | None => None
              | Some html_content =>
                  let final_html :=
                    cover_html ++ "<div class='page-break'></div>"
                    ++ html_content in
                  Some (add_license_page final_html)
              end
          end
      end
  end.

(** The value [main] returns: [Some 1] after an error, [None] otherwise. *)
Definition main : option nat :=
  match final_html with
  | None => Some 1
  | Some final_html => if generate_pdf final_html then None else Some 1
  end.

End Main.

(** * The vocabulary of the properties *)

(** ** Texts and positions *)

(** [b] is what remains of [a] from some position on. *)
Definition suffix (b a : str) : Prop := exists p, a = p ++ b.

(** The text [a] holds no character [c]. *)
Definition without (c : ascii) (a : str) : bool :=
  forallb (fun x => negb (Ascii.eqb x c)) a.

(** A run of [p]: not empty, every character in [p]. *)
Definition run_of (p : ascii -> bool) (w : str) : Prop :=
  w <> [] /\ forallb p w = true.

(** The text read stops the class [p]: it is over, or its next character
    is outside the class. *)
Definition stops (p : ascii -> bool) (r : str) : Prop :=
  match r with
  | c :: _ => p c = false
  | [] => True
  end.

(** ** Matching *)

(** The continuation [k] fails at every position of [a]. *)
Definition fails_below (k : mstate -> option mstate) (a : str) : Prop :=
  forall st', suffix (rest st') a -> k st' = None.

(** The continuation [k] yields [res] from some position at or after
    [st]. *)
Definition reaches (k : mstate -> option mstate) (st res : mstate) : Prop :=
  exists st', suffix (rest st') (rest st) /\ k st' = Some res.

(** The same, from a position strictly after [st]. *)
Definition reaches_later (k : mstate -> option mstate) (st res : mstate)
    : Prop :=
  exists st', length (rest st') < length (rest st) /\ k st' = Some res.

(** The state after the text [w] was read and [r] remains. *)
Definition advance (w : str) (r : str) (st : mstate) : mstate :=
  {| prev := fold_left (fun _ c => Some c) w (prev st);
     rest := r; caps := caps st |}.

(** A pattern that reads at least one character wherever it matches. *)
Fixpoint consumes (r : regex) : bool :=
  match r with
  | Chr _ | Any | Cls _ _ => true
  | Seq r1 r2 => consumes r1 || consumes r2
  | Alt r1 r2 => consumes r1 && consumes r2
  | Group _ r1 => consumes r1
  | _ => false
  end.

(** The patterns of the program. *)
Definition program_patterns : list regex :=
  [leading_markers; mdx_pattern; md_pattern; component_pattern; code_pattern;
   title_attr_pattern; import_line_pattern; i18n_pattern; block_scalar_pattern;
   field_pattern "title"; field_pattern "description"].

(** A pattern without [^]. *)
Fixpoint anchor_free (r : regex) : bool :=
  match r with
  | Bol => false
  | Seq r1 r2 | Alt r1 r2 => anchor_free r1 && anchor_free r2
  | Star _ r1 | Group _ r1 => anchor_free r1
  | _ => true
  end.

(** Two states, two results, two continuations that differ at most in the
    previous character. *)
Definition agree (s1 s2 : mstate) : Prop :=
  rest s1 = rest s2 /\ caps s1 = caps s2.

Definition same (o1 o2 : option mstate) : Prop :=
  match o1, o2 with
  | Some a, Some b => agree a b
  | None, None => True
  | _, _ => False
  end.

Definition respects (k1 k2 : mstate -> option mstate) : Prop :=
  forall s1 s2, agree s1 s2 -> same (k1 s1) (k2 s2).

(** ** Image references and import statements *)

(** Every occurrence of [](] in the text is followed by a text that
    satisfies [ok]. *)
Fixpoint targets_satisfy (ok : str -> bool) (a : str) : bool :=
  (negb (Str.startswith a "](") || ok (skipn 2 a))
  && match a with
     | [] => true
     | _ :: a' => targets_satisfy ok a'
     end.

(** The text is empty or starts with one of [h], [t], [p]. *)
Definition starts_with_h_t_p (r : str) : bool :=
  match r with
  | c :: _ => Str.mem c "http"
  | [] => true
  end.

(** The tail of [md_pattern], from the bracket that closes the alt text. *)
Definition md_pattern_tail : regex :=
  seqs [lit "]("; Group 2 (Seq (none_of "http") (Star false Any)); Chr ")"].

Definition is_quote (c : ascii) : bool := Str.mem c [sq; dq].

(** The characters [normalize_path] removes at the start of a path. *)
Definition is_marker (c : ascii) : bool := Str.mem c "./~".



(** ** Numberings *)

(** Lexicographic order on numberings, component by component as numbers;
    a proper prefix comes first. *)
Inductive lex_lt : list nat -> list nat -> Prop :=
| lex_nil : forall y b, lex_lt [] (y :: b)
| lex_head : forall x y a b, x < y -> lex_lt (x :: a) (y :: b)
| lex_tail : forall x a b, lex_lt a b -> lex_lt (x :: a) (x :: b).

(** The numberings a run of bumps emits, from the counters [n] on. *)
Fixpoint numberings (n : list nat) (depths : list nat) : list (list nat) :=
  match depths with
  | [] => []
  | d :: depths' =>
      firstn (d + 1) (bump d n) :: numberings (bump d n) depths'
  end.

(** What one document adds to the table of contents and does to the
    counters, by the depth it is emitted at, if it is. *)
Definition emitted (n : list nat) (d : option nat) : list (list nat) :=
  match d with
  | Some d => [firstn (d + 1) (bump d n)]
  | None => []
  end.

Definition bumped (n : list nat) (d : option nat) : list nat :=
  match d with
  | Some d => bump d n
  | None => n
  end.

Section EmitDepths.

Variable yaml_safe_load : str -> option dict.
Variable read_file : str -> option str.
Variable cwd : str.

(** The depth at which a document enters the table of contents, if it
    does. *)
Definition emit_depth (repo_dir docs_dir file_path : str) : option nat :=
  match load_document yaml_safe_load read_file file_path with
  | None => None
  | Some _ => toc_depth cwd file_path repo_dir docs_dir
  end.

Fixpoint emit_depths (repo_dir docs_dir : str) (todo : list str) : list nat :=
  match todo with
  | [] => []
  | file_path :: todo' =>
      match emit_depth repo_dir docs_dir file_path with
      | Some d => d :: emit_depths repo_dir docs_dir todo'
      | None => emit_depths repo_dir docs_dir todo'
      end
  end.

End EmitDepths.

(** ** Paths and sort keys *)

(** The order of the sort: by the keys. *)
Definition key_le (x y : str * str) : Prop := Str.leb (snd x) (snd y) = true.

(** A file name holds no separator. *)
Definition plain_name (file : str) : bool :=
  forallb (fun c => negb (PosixPath.is_sep c)) file.

(** A tree whose file names are plain, as on a real file system. *)
Fixpoint plain_tree (t : tree) : bool :=
  match t with
  | Dir subdirs files =>
      forallb plain_name files
      && forallb (fun dt => plain_tree (snd dt)) subdirs
  end.

(** The sort key as a function of the path. *)
Definition key_of_path (p : str) : str :=
  PosixPath.dirname p ++ "/"
  ++ (if Str.eqb (PosixPath.basename p) "index.md" then "0" else "1")
  ++ PosixPath.basename p.

(** A component that [normpath] keeps as it is. *)
Definition simple_comp (c : str) : bool :=
  PosixPath.nonempty c && negb (Str.eqb c ".") && negb (Str.eqb c "..").

(** A relative path made of such components. *)
Definition simple_path (p : str) : bool :=
  forallb simple_comp (Str.split "/" p).

(** [relpath] on the components of a path and of the start directory. *)
Definition rel_of (path_list start_list : list str) : str :=
  let i := length (PosixPath.commonprefix start_list path_list) in
  match List.repeat (".." : str) (length start_list - i) ++ skipn i path_list with
  | [] => "."
  | rel_list => Str.join "/" rel_list
  end.

(** The depth of a simple path below a simple start directory. *)
Definition rel_depth (file_path start : str) : nat :=
  let rel_path := rel_of (Str.split "/" file_path) (Str.split "/" start) in
  let depth := Str.count rel_path "/" in
  if Str.eqb (PosixPath.basename file_path) "index.md" && (0 <? depth)
  then depth - 1 else depth.

(** ** Documents of the examples *)

Module Scenario.

(** [docs/index.md], [docs/guide/index.md] and [docs/guide/setup.md], the
    directory [guide] listing [setup.md] first. *)
Definition docs_tree : tree :=
  Dir [("guide" : str, Dir [] ["setup.md" : str; "index.md" : str])]
      ["index.md" : str].

Definition document (title : string) (body : string) : str :=
  text ["---"; ("title: " ++ title)%string; "---"; body].

Definition read_file (file_path : str) : option str :=
  if Str.eqb file_path "docs/index.md"
  then Some (document "Intro" "Welcome.")
  else if Str.eqb file_path "docs/guide/index.md"
  then Some (document "Guide" "Read on.")
  else if Str.eqb file_path "docs/guide/setup.md"
  then Some (document "Setup" "Install it.")
  else None.

Definition files : list str :=
  ["docs/index.md" : str; "docs/guide/index.md" : str;
   "docs/guide/setup.md" : str].

Definition cwd : str := "/work".

(** A YAML parser and a Markdown renderer to run the scenario with: the
    three frontmatters parse to their one field, a body renders to one
    paragraph. *)
Definition yaml_safe_load (frontmatter : str) : option dict :=
  match Str.split1 ":" frontmatter with
  | (key, Some value) => Some [(key, Str.strip value)]
  | (_, None) => None
  end.

Definition markdown_markdown (body : str) : option str :=
  Some ("<p>" ++ body ++ "</p>").

Definition str_title (a : str) : str := a.

End Scenario.

Module TailDrop.

(** Two files, the second without frontmatter. *)
Definition files : list str := ["docs/a.md" : str; "docs/b.md" : str].

Definition read_file (file_path : str) : option str :=
  if Str.eqb file_path "docs/a.md" then Some (Scenario.document "A" "Text.")
  else if Str.eqb file_path "docs/b.md" then Some ("No frontmatter here." : str)
  else None.

End TailDrop.

(** ** Pages and entries of a run *)

Section PageVocabulary.

Variable yaml_safe_load : str -> option dict.
Variable markdown_markdown : str -> option str.
Variable read_file : str -> option str.
Variable cwd : str.

(** The document reaches the end of the loop body: it is loaded, and
    neither [relative_to] nor the Markdown renderer raises. *)
Definition yields_page (repo_dir docs_dir file_path : str) : bool :=
  match load_document yaml_safe_load read_file file_path with
  | None => false
  | Some (_, md_content) =>
      match toc_depth cwd file_path repo_dir docs_dir,
            PosixPath.relative_to file_path repo_dir docs_dir,
            markdown_markdown md_content with
      | Some _, Some _, Some _ => true
      | _, _, _ => false
      end
  end.

End PageVocabulary.

(** A page and, when [snd b], the marker after it. *)
Definition page_block (b : str * bool) : list str :=
  fst b :: (if snd b then [page_break] else []).

(** An entry numbered with one component per level down to its depth, the
    last one counted from 1. *)
Definition entry_ok (e : toc_entry) : Prop :=
  length (entry_numbering e) = entry_depth e + 1
  /\ 1 <= nth (entry_depth e) (entry_numbering e) 0.

Module Unrendered.

(** A renderer that raises on every body. *)
Definition markdown_markdown (body : str) : option str := None.

End Unrendered.

(** A tree whose directory names are plain as well. *)
Fixpoint plain_dirs (t : tree) : bool :=
  match t with
  | Dir subdirs _ =>
      forallb (fun dt => plain_name (fst dt) && plain_dirs (snd dt)) subdirs
  end.

(** ** Documents below the root *)

(** Components that are plain names other than [.] and [..]. *)
Definition plain_comps (l : list str) : bool :=
  forallb (fun c => simple_comp c && plain_name c) l.

(** The file [name] in the directory reached from [start] through [dirs]. *)
Definition below (start : str) (dirs : list str) (name : str) : str :=
  start ++ "/" ++ Str.join "/" (dirs ++ [name]).

(** A tree all of whose file and directory names are plain names other
    than [.] and [..], as on a real file system. *)
Fixpoint simple_names (t : tree) : bool :=
  match t with
  | Dir subdirs files =>
      plain_comps files
      && forallb (fun dt => plain_comps [fst dt] && simple_names (snd dt))
           subdirs
  end.

(** The Markdown image with alt text [alt] and target [target]. *)
Definition md_image (alt target : str) : str :=
  "![" ++ alt ++ "](" ++ target ++ ")".

(** The component [<Image src={SRC} alt=QaltQ ATTRS>], with white space
    [ws1] and [ws2] before the two attributes; [Q] is the double quote. *)
Definition image_component (ws1 src ws2 alt attrs : str) : str :=
  "<Image" ++ ws1 ++ "src={" ++ src ++ "}" ++ ws2 ++ "alt=" ++ dq :: alt
  ++ dq :: attrs ++ ">".

(** ** Fenced code blocks *)

(** The optional attribute string between braces. *)
Definition brace_text (braces : option str) : str :=
  match braces with
  | Some attributes => "{" ++ attributes ++ "}"
  | None => []
  end.

(** A fenced block: the language, white space, the attributes if any,
    white space, the code, between two fences. *)
Definition fenced_block (language ws1 : str) (braces : option str)
    (ws2 code : str) : str :=
  fence ++ language ++ ws1 ++ brace_text braces ++ ws2 ++ code ++ fence.

(** What [replace] returns for the three groups of a match. *)
Definition code_block_html (language attributes code_block : str) : str :=
  code_replace {| prev := None; rest := [];
                  caps := [(3, code_block); (2, attributes); (1, language)] |}.

(** The header line for a block with a language and no title. *)
Definition language_header (language : str) : str :=
  "<div class=" ++ [dq] ++ "code-header" ++ [dq] ++ "><i>"
  ++ ("(" ++ language ++ ")") ++ "</i></div>".

(** ** Documents with frontmatter *)

(** The two substitutions [parse_frontmatter] applies to the frontmatter. *)
Definition clean_frontmatter (frontmatter : str) : str :=
  sub no_flags block_scalar_pattern (fun _ => ": ")
    (sub no_flags i18n_pattern (fun _ => []) frontmatter).

(** The text handed to the YAML parser: the lines [keep_line] keeps. *)
Definition cleaned_content (frontmatter_content : str) : str :=
  Str.join [nl] (filter keep_line (Str.split nl frontmatter_content)).

(** ** Anchors *)

Definition is_digit (c : ascii) : bool :=
  (48 <=? nat_of_ascii c) && (nat_of_ascii c <=? 57).

(** ** Numbering strings *)

(** The number a decimal numeral denotes; [None] when the text is empty or
    holds a character other than a digit. *)
Definition numeral (a : str) : option nat :=
  match a with
  | [] => None
  | _ :: _ =>
      option_map Nat.of_uint (NilEmpty.uint_of_string (string_of_list_ascii a))
  end.

Fixpoint numerals (fields : list str) : option (list nat) :=
  match fields with
  | [] => Some []
  | f :: fields' =>
      match numeral f, numerals fields' with
      | Some n, Some l => Some (n :: l)
      | _, _ => None
      end
  end.

(** The numbers a numbering string denotes: its fields between the dots,
    each read as a numeral. *)
Definition components (a : str) : option (list nat) :=
  numerals (Str.split "." a).

(** The order on numbering strings: lexicographic, component by component,
    the components compared as numbers. *)
Definition numbering_lt (a b : str) : Prop :=
  exists n m, components a = Some n /\ components b = Some m /\ lex_lt n m.

(** ** Listings of one directory tree *)

(** Two listings of the same tree: in every directory the files come in
    any order, and so do the subdirectories. *)
Inductive same_listing : tree -> tree -> Prop :=
| same_dir : forall subdirs subdirs' files files',
    Permutation files files' ->
    same_subdirs subdirs subdirs' ->
    same_listing (Dir subdirs files) (Dir subdirs' files')
with same_subdirs : list (str * tree) -> list (str * tree) -> Prop :=
| same_nil : same_subdirs [] []
| same_cons : forall d t t' l l',
    same_listing t t' -> same_subdirs l l' ->
    same_subdirs ((d, t) :: l) ((d, t') :: l')
| same_swap : forall x y l, same_subdirs (x :: y :: l) (y :: x :: l)
| same_trans : forall l1 l2 l3,
    same_subdirs l1 l2 -> same_subdirs l2 l3 -> same_subdirs l1 l3.

Scheme same_listing_mut := Induction for same_listing Sort Prop
  with same_subdirs_mut := Induction for same_subdirs Sort Prop.

(** The entries collected below the subdirectories of [top]. *)
Definition sub_files (top : str) (subdirs : list (str * tree))
    : list (str * str) :=
  flat_map
    (fun dt => if keep_dir (fst dt)
               then all_files (PosixPath.join top (fst dt)) (snd dt) else [])
    subdirs.

(** A page followed by its marker. *)
Definition marked (page : str) : list str := [page; page_break].

Module Untitled.

(** A document with a description and no title. *)
Definition read_file (file_path : str) : option str :=
  if Str.eqb file_path "docs/guide/setup.md"
  then Some (text ["---"; "description: How to install"; "---"; "Install it."])
  else None.

End Untitled.

Module AstroDocs.

(** A clone whose documentation directory holds one document. *)
Definition docs_tree : tree := Dir [] ["index.md" : str].

Definition read_file (file_path : str) : option str :=
  if Str.eqb file_path "astro-docs/src/content/docs/en/index.md"
  then Some (Scenario.document "Intro" "Welcome.")
  else None.

End AstroDocs.

(** ** Field lines of a frontmatter *)

(** A character a plain field value is made of: not a newline, not a
    quote, not a colon. *)
Definition value_char (c : ascii) : bool :=
  negb (Ascii.eqb c nl) && negb (is_quote c) && negb (Ascii.eqb c ":").

(** A plain value: not empty, made of such characters, without white space
    at either end. *)
Definition plain_value (value : str) : bool :=
  forallb value_char value
  && match value with
     | c :: _ => negb (Str.isspace c)
     | [] => false
     end
  && negb (Str.isspace (last value " "%char)).

(** What follows the value: the end of the text, or a newline and then no
    white space. *)
Definition ends_line (post : str) : bool :=
  match post with
  | [] => true
  | c :: post' =>
      Ascii.eqb c nl
      && match post' with
         | [] => true
         | d :: _ => negb (Str.isspace d)
         end
  end.

(** What precedes the field: nothing, or complete lines. *)
Definition whole_lines (pre : str) : bool :=
  match pre with
  | [] => true
  | _ :: _ => Ascii.eqb (last pre " "%char) nl
  end.

(** ** What the Markdown-image pass does to a text *)


(** * Properties *)

(** ** Equality of strings, and the functions run on small inputs *)

Lemma Str_eqb_eq (a b : str) : Str.eqb a b = true <-> a = b.
Proof.
  unfold Str.eqb. destruct (list_eq_dec ascii_dec a b); split; congruence.
Qed.

Lemma Str_eqb_refl (a : str) : Str.eqb a a = true.
Proof. apply Str_eqb_eq. reflexivity. Qed.

Lemma Str_eqb_neq (a b : str) : Str.eqb a b = false <-> a <> b.
Proof.
  unfold Str.eqb. destruct (list_eq_dec ascii_dec a b); split; congruence.
Qed.

Example split_ex : Str.split nl ("a" ++ [nl] ++ "b") = ["a" : str; "b" : str].
Proof. reflexivity. Qed.

Example re_ex1 :
  option_map (fun st => (group st 1, rest st))
    (search no_flags (seqs [lit "ab"; Group 1 (Plus true word); Chr "!"]) "xxabcd!e")
  = Some (Some ("cd" : str), "e" : str).
Proof. reflexivity. Qed.

Example pip_ex1 :
  process_image_paths ("see ![logo](./img/logo.png) and ![x](http://a/b.png)")
  = "see ![logo](https://docs.astro.build/img/logo.png) and ![x](http://a/b.png)".
Proof. vm_compute. reflexivity. Qed.

Example pip_ex2 :
  process_image_paths ("import Hero from '../../assets/hero.svg';")
  = "![Hero](https://docs.astro.build/assets/hero.svg);".
Proof. vm_compute. reflexivity. Qed.

Example pip_ex3 :
  process_image_paths ("<Image  src={" ++ [dq] ++ "~/a.png" ++ [dq] ++ "} alt="
                       ++ [dq] ++ "A b" ++ [dq] ++ " width=3 />")
  = "![A b](https://docs.astro.build/a.png)".
Proof. vm_compute. reflexivity. Qed.

Example pf_ex1 :
  parse_frontmatter (text ["---"; "title: Intro"; "---"; "Hello"])
  = (Some ("title: Intro" : str), "Hello" : str).
Proof. vm_compute. reflexivity. Qed.

Example slf_ex1 :
  safe_load_frontmatter (fun _ => None) "title: Intro"
  = Some [("title" : str, "Intro" : str)].
Proof. vm_compute. reflexivity. Qed.

Example pcb_ex1 :
  preprocess_code_blocks
    (lines ["```js {title=" ++ [dq] ++ "a.js" ++ [dq] ++ "}";
            chars "let x = 1;"; chars "```"])
  = lines ["<div class=" ++ [dq] ++ "code-header" ++ [dq] ++ "><i>a.js (js)</i></div>";
           chars "```js"; chars "let x = 1;"; chars "```"].
Proof. vm_compute. reflexivity. Qed.

Example relpath_ex :
  PosixPath.relpath "/work" "docs/guide/index.md" "docs"
  = Some ("guide/index.md" : str).
Proof. vm_compute. reflexivity. Qed.

Example dirname_ex :
  PosixPath.dirname "docs/guide/index.md" = "docs/guide"
  /\ PosixPath.basename "docs/guide/index.md" = "index.md"
  /\ PosixPath.stem "docs/guide/set.up.md" = "set.up"
  /\ PosixPath.relative_to "docs/guide/index.md" [] "docs"
     = Some ("guide/index.md" : str).
Proof. vm_compute. repeat split; reflexivity. Qed.

Example discovery_ex :
  get_files_sorted "docs"
    (Dir [("guide" : str, Dir [] ["setup.md" : str; "index.md" : str]);
          ("_drafts" : str, Dir [] ["x.md" : str])]
         ["notes.txt" : str; "index.md" : str])
  = Some ["docs/index.md" : str; "docs/guide/index.md" : str;
          "docs/guide/setup.md" : str].
Proof. vm_compute. reflexivity. Qed.

(** ** Strings *)

Lemma suffix_refl (a : str) : suffix a a.
Proof. exists []. reflexivity. Qed.

Lemma suffix_trans (c b a : str) : suffix c b -> suffix b a -> suffix c a.
Proof.
  intros [p ->] [q ->]. exists (q ++ p). now rewrite app_assoc.
Qed.

Lemma suffix_tail (x : ascii) (b a : str) : suffix (x :: b) a -> suffix b a.
Proof.
  intros [p ->]. exists (p ++ [x]). now rewrite <- app_assoc.
Qed.

Lemma suffix_cons (x : ascii) (b a : str) : suffix b a -> suffix b (x :: a).
Proof. intros [p ->]. now exists (x :: p). Qed.

Lemma startswith_app (w r : str) : Str.startswith (w ++ r) w = true.
Proof.
  induction w as [|c w IH]; simpl; [reflexivity|].
  now rewrite Ascii.eqb_refl, IH.
Qed.

Lemma startswith_inv (a w : str) :
  Str.startswith a w = true -> exists r, a = w ++ r.
Proof.
  revert a. induction w as [|c w IH]; intros a H; simpl in *.
  - now exists a.
  - destruct a as [|x a]; [discriminate|].
    apply andb_true_iff in H as [Hx Hw]. apply Ascii.eqb_eq in Hx as ->.
    destruct (IH _ Hw) as [r ->]. now exists r.
Qed.

Lemma contains_suffix (a w b : str) :
  Str.contains a w = false -> suffix b a -> Str.startswith b w = false.
Proof.
  intros H [p ->]. induction p as [|x p IH]; simpl in *.
  - destruct b; simpl in H; apply orb_false_iff in H; tauto.
  - apply orb_false_iff in H as [_ H]. auto.
Qed.

Lemma split_not_nil (sep : ascii) (a : str) : Str.split sep a <> [].
Proof.
  induction a as [|c a IH]; simpl; [discriminate|].
  destruct (Ascii.eqb c sep); [discriminate|].
  destruct (Str.split sep a); [contradiction | discriminate].
Qed.

Lemma index_none (l : list str) (x : str) :
  Str.index l x = None <-> ~ In x l.
Proof.
  induction l as [|y l IH]; simpl.
  - tauto.
  - destruct (Str.eqb y x) eqn:E.
    + apply Str_eqb_eq in E. split; [discriminate | intros H; exfalso; auto].
    + apply Str_eqb_neq in E.
      destruct (Str.index l x); simpl; split; try discriminate; try tauto.
      intros H. exfalso. apply H. right.
      destruct IH as [_ IH].
      destruct (in_dec (list_eq_dec ascii_dec) x l) as [Hin|Hout]; [exact Hin|].
      specialize (IH Hout). discriminate.
Qed.

(** ** The matcher *)

Section MatcherFacts.

Variable fl : flags.

Lemma step_none (p : ascii -> bool) k st :
  fails_below k (rest st) -> step p k st = None.
Proof.
  intros H. unfold step. destruct (rest st) as [|x a] eqn:E; [reflexivity|].
  destruct (p x); [|reflexivity].
  apply H. simpl. exists [x]. reflexivity.
Qed.

Lemma star_loop_none greedy body k :
  (forall k' st', fails_below k' (rest st') -> body k' st' = None) ->
  forall n st, fails_below k (rest st) -> star_loop greedy body k n st = None.
Proof.
  intros Hbody. induction n as [|n IH]; intros st H; simpl.
  - apply H, suffix_refl.
  - assert (Hk : k st = None) by apply H, suffix_refl.
    rewrite Hk.
    rewrite Hbody.
    + now destruct greedy.
    + intros st' Hs. destruct (_ <? _); [|reflexivity].
      apply IH. intros st'' Hs'. apply H. eapply suffix_trans; eassumption.
Qed.

(** A pattern cannot match when its continuation fails at every later
    position. *)
Lemma rmatch_none (r : regex) :
  forall k st, fails_below k (rest st) -> rmatch fl r k st = None.
Proof.
  induction r; intros k st H; simpl.
  - apply H, suffix_refl.
  - now apply step_none.
  - now apply step_none.
  - now apply step_none.
  - apply IHr1. intros st' Hs. apply IHr2.
    intros st'' Hs'. apply H. eapply suffix_trans; eassumption.
  - rewrite IHr1 by assumption. now apply IHr2.
  - apply star_loop_none; [|assumption]. intros k' st'. apply IHr.
  - apply IHr. intros st' Hs. apply H. exact Hs.
  - destruct (at_bol fl st); [apply H, suffix_refl | reflexivity].
  - destruct (at_eol fl st); [apply H, suffix_refl | reflexivity].
Qed.

Lemma rmatch_Seq r1 r2 k st :
  rmatch fl (Seq r1 r2) k st = rmatch fl r1 (rmatch fl r2 k) st.
Proof. reflexivity. Qed.

Lemma rmatch_Group n r k st :
  rmatch fl (Group n r) k st
  = rmatch fl r (fun st' => k (set_cap n (consumed st st') st')) st.
Proof. reflexivity. Qed.

Lemma rmatch_Star greedy r k st :
  rmatch fl (Star greedy r) k st
  = star_loop greedy (rmatch fl r) k (length (rest st)) st.
Proof. reflexivity. Qed.

Lemma rmatch_seqs_cons r rs k st :
  rmatch fl (seqs (r :: rs)) k st = rmatch fl r (rmatch fl (seqs rs) k) st.
Proof. reflexivity. Qed.

(** A literal needs its text at the current position. *)
Lemma lit_none (w : str) :
  forall k st, Str.startswith (rest st) w = false -> rmatch fl (lit w) k st = None.
Proof.
  induction w as [|c w IH]; intros k st H; [discriminate|].
  change (rmatch fl (lit (c :: w)) k st)
    with (step (Ascii.eqb c) (rmatch fl (lit w) k) st).
  unfold step. destruct st as [p a cs]. simpl in *.
  destruct a as [|x a]; [reflexivity|].
  rewrite Ascii.eqb_sym. destruct (Ascii.eqb x c); [|reflexivity].
  apply IH. exact H.
Qed.

Lemma lit_ok (w : str) :
  forall k st r, rest st = w ++ r ->
    rmatch fl (lit w) k st = k (advance w r st).
Proof.
  induction w as [|c w IH]; intros k st r H.
  - destruct st as [p a cs]. simpl in *. subst. reflexivity.
  - change (rmatch fl (lit (c :: w)) k st)
      with (step (Ascii.eqb c) (rmatch fl (lit w) k) st).
    unfold step. rewrite H. simpl. rewrite Ascii.eqb_refl.
    erewrite IH by reflexivity. reflexivity.
Qed.

(** When no position of the text starts a match, [re.sub] returns the
    text. *)
Lemma search_from_none r :
  forall a p,
    (forall b q, suffix b a -> match_here fl r q b = None) ->
    search_from fl r p a = None.
Proof.
  induction a as [|c a IH]; intros p H; simpl.
  - now rewrite H by apply suffix_refl.
  - rewrite H by apply suffix_refl.
    rewrite IH; [reflexivity|].
    intros b q Hs. apply H. now apply suffix_cons.
Qed.

Lemma sub_no_match r repl a :
  (forall b q, suffix b a -> match_here fl r q b = None) ->
  sub fl r repl a = a.
Proof.
  intros H. unfold sub. simpl. now rewrite search_from_none.
Qed.

End MatcherFacts.

(** ** Frontmatter extraction *)

(** C6, counterexample: a first line that is not exactly the marker (it
    starts with a space) still opens a frontmatter block, because the test
    strips the line first. *)
Lemma padded_marker_line_opens_frontmatter :
  let md := text [" ---"; "title: x"; "---"; "body"] in
  hd [] (Str.split nl md) <> marker
  /\ parse_frontmatter md = (Some ("title: x" : str), "body" : str)
  /\ parse_frontmatter md <> (None, md).
Proof. vm_compute. repeat split; discriminate. Qed.

(** C6, as amended: [parse_frontmatter] finds no frontmatter exactly when
    the first line, once stripped of surrounding white space, differs from
    the marker [---], or no later line is exactly [---]; and then it
    returns the document unchanged. *)
Theorem parse_frontmatter_absent_iff (md : str) :
  (fst (parse_frontmatter md) = None <->
     Str.strip (hd [] (Str.split nl md)) <> marker
     \/ ~ In marker (tl (Str.split nl md)))
  /\ (fst (parse_frontmatter md) = None -> parse_frontmatter md = (None, md)).
Proof.
  unfold parse_frontmatter.
  destruct (Str.split nl md) as [|first others] eqn:E.
  - exfalso. eapply split_not_nil. exact E.
  - simpl hd. simpl tl.
    destruct (Str.eqb (Str.strip first) marker) eqn:Em.
    + apply Str_eqb_eq in Em.
      destruct (Str.index others marker) as [i|] eqn:Ei.
      * simpl. split; [|discriminate]. split; [discriminate|].
        intros [H|H]; [contradiction|].
        apply index_none in H. congruence.
      * simpl. split; [|reflexivity]. split; [|reflexivity].
        intros _. right. now apply index_none.
    + apply Str_eqb_neq in Em. simpl. split; [|reflexivity].
      split; [intros _; now left | reflexivity].
Qed.

Lemma parse_frontmatter_absent_iff_witness :
  let md := text ["# Title"; "---"; "text"] in
  parse_frontmatter md = (None, md).
Proof.
  intros md.
  apply (proj2 (parse_frontmatter_absent_iff md)).
  apply (proj1 (parse_frontmatter_absent_iff md)).
  left. vm_compute. discriminate.
Defined.

(** C3: the effective [parse_frontmatter] leaves an import line in the body
    it returns, where the shadowed first definition removes it. *)
Theorem effective_parse_frontmatter_keeps_imports :
  let import_line := "import { Steps } from '@astrojs/starlight/components';" in
  let md := text ["---"; "title: T"; "---"; import_line; "Body"] in
  parse_frontmatter md = (Some ("title: T" : str), text [import_line; "Body"])
  /\ parse_frontmatter (preprocess_code_blocks (process_image_paths md))
     = (Some ("title: T" : str), text [import_line; "Body"])
  /\ parse_frontmatter_shadowed md = (Some ("title: T" : str), "Body" : str).
Proof. vm_compute. repeat split; reflexivity. Qed.

(** ** Image references *)

Lemma without_app (x : ascii) (a b : str) :
  without x (a ++ b) = without x a && without x b.
Proof. unfold without. apply forallb_app. Qed.


Lemma targets_satisfy_suffix ok (a b : str) :
  targets_satisfy ok a = true -> suffix b a -> targets_satisfy ok b = true.
Proof.
  intros H [p ->]. induction p as [|x p IH]; [exact H|].
  apply IH. simpl app in H. simpl in H.
  apply andb_true_iff in H. tauto.
Qed.

Lemma targets_satisfy_here ok (a : str) :
  targets_satisfy ok a = true ->
  Str.startswith a "](" = true -> ok (skipn 2 a) = true.
Proof.
  intros H Hs. destruct a as [|x a]; [discriminate|].
  simpl in H. apply andb_true_iff in H as [H _].
  apply orb_true_iff in H as [H|H]; [|exact H].
  simpl in Hs. rewrite Hs in H. discriminate.
Qed.


Lemma md_pattern_split :
  md_pattern = Seq (lit "![") (Seq (Group 1 (Star false Any)) md_pattern_tail).
Proof. reflexivity. Qed.

Lemma md_pattern_tail_none fl k st :
  targets_satisfy starts_with_h_t_p (rest st) = true ->
  rmatch fl md_pattern_tail k st = None.
Proof.
  intros H. unfold md_pattern_tail. rewrite rmatch_seqs_cons.
  destruct (Str.startswith (rest st) "](") eqn:Es.
  - pose proof (targets_satisfy_here _ _ H Es) as Hc.
    destruct (startswith_inv _ _ Es) as [r Hr].
    rewrite lit_ok with (r := r) by exact Hr.
    rewrite Hr in Hc. simpl in Hc.
    rewrite rmatch_seqs_cons. simpl. unfold step. simpl.
    destruct r as [|c r]; [reflexivity|].
    unfold cls_has. simpl in *. unfold Str.mem in Hc. simpl in Hc.
    rewrite !orb_false_r in *. rewrite Hc. reflexivity.
  - now apply lit_none.
Qed.

(** The Markdown-image pass changes nothing in a text where every [](] is
    followed by [h], [t] or [p]. *)
Lemma md_pass_unchanged (a : str) :
  targets_satisfy starts_with_h_t_p a = true -> md_pass a = a.
Proof.
  intros H. apply sub_no_match. intros b q Hs.
  unfold match_here. rewrite md_pattern_split, rmatch_Seq.
  apply rmatch_none. intros st1 Hs1. rewrite rmatch_Seq.
  apply rmatch_none. intros st2 Hs2. apply md_pattern_tail_none.
  eapply targets_satisfy_suffix; [exact H|].
  eapply suffix_trans; [exact Hs2|].
  eapply suffix_trans; [exact Hs1|]. exact Hs.
Qed.

Lemma mdx_pass_unchanged (a : str) :
  Str.contains a "import" = false -> mdx_pass a = a.
Proof.
  intros H. apply sub_no_match. intros b q Hs.
  unfold match_here, mdx_pattern. rewrite rmatch_seqs_cons.
  apply lit_none. unfold init, rest. eapply contains_suffix; eassumption.
Qed.

Lemma component_pass_unchanged (a : str) :
  Str.contains a "<Image" = false -> component_pass a = a.
Proof.
  intros H. apply sub_no_match. intros b q Hs.
  unfold match_here, component_pattern. rewrite rmatch_seqs_cons.
  apply lit_none. unfold init, rest. eapply contains_suffix; eassumption.
Qed.


(** ** The numbering counters *)

#[local] Hint Constructors lex_lt : core.

Lemma lex_lt_trans (a b c : list nat) : lex_lt a b -> lex_lt b c -> lex_lt a c.
Proof.
  intros Hab. revert c. induction Hab; intros c Hbc; inversion Hbc; subst; auto.
  apply lex_head. lia.
Qed.

Lemma lex_lt_irrefl (a : list nat) : ~ lex_lt a a.
Proof.
  induction a as [|x a IH]; intros H; inversion H; subst; [lia | auto].
Qed.

Lemma bump_0_nil : bump 0 [] = [1].
Proof. reflexivity. Qed.

Lemma bump_0_cons (x : nat) (l : list nat) :
  bump 0 (x :: l) = (x + 1) :: List.repeat 0 (length l).
Proof.
  unfold bump, extend_to. simpl.
  replace (List.repeat 0 (0 - length l)) with (@nil nat) by (destruct l; reflexivity).
  rewrite app_nil_r. unfold zero_after. simpl. now rewrite Nat.sub_0_r.
Qed.

Lemma bump_S_cons (d x : nat) (l : list nat) :
  bump (S d) (x :: l) = x :: bump d l.
Proof. reflexivity. Qed.

Lemma bump_S_nil (d : nat) : bump (S d) [] = 0 :: bump d [].
Proof.
  unfold bump, extend_to. cbn [app length]. rewrite !Nat.sub_0_r.
  replace (S d + 1) with (S (d + 1)) by lia. reflexivity.
Qed.

Lemma bump_not_nil (d : nat) (n : list nat) : bump d n <> [].
Proof.
  destruct d, n; rewrite ?bump_0_nil, ?bump_0_cons, ?bump_S_cons, ?bump_S_nil;
    discriminate.
Qed.

Lemma nth_repeat_0 (i m : nat) : nth i (List.repeat 0 m) 0 = 0.
Proof.
  revert i. induction m; destruct i; simpl; auto.
Qed.

(** Incrementing the counter at depth [d] zeroes every deeper counter. *)
Lemma bump_zeroes_deeper (d : nat) :
  forall n i, d < i -> nth i (bump d n) 0 = 0.
Proof.
  induction d as [|d IH]; intros [|x l] [|i] H; try lia.
  - rewrite bump_0_nil. now destruct i.
  - rewrite bump_0_cons. simpl. apply nth_repeat_0.
  - rewrite bump_S_nil. simpl. apply IH. lia.
  - rewrite bump_S_cons. simpl. apply IH. lia.
Qed.

Lemma bump_increments (d : nat) :
  forall n, nth d (bump d n) 0 = nth d n 0 + 1.
Proof.
  induction d as [|d IH]; intros [|x l].
  - reflexivity.
  - now rewrite bump_0_cons.
  - rewrite bump_S_nil. simpl. rewrite IH. now destruct d.
  - rewrite bump_S_cons. simpl. apply IH.
Qed.

Lemma bump_keeps_shallower (d : nat) :
  forall n i, i < d -> nth i (bump d n) 0 = nth i n 0.
Proof.
  induction d as [|d IH]; intros [|x l] [|i] H; try lia.
  - now rewrite bump_S_nil.
  - rewrite bump_S_nil. simpl. rewrite IH by lia. now destruct i.
  - now rewrite bump_S_cons.
  - rewrite bump_S_cons. simpl. apply IH. lia.
Qed.

Lemma length_bump (d : nat) : forall n, d < length (bump d n).
Proof.
  induction d as [|d IH]; intros [|x l].
  - rewrite bump_0_nil. simpl. lia.
  - rewrite bump_0_cons. simpl. lia.
  - rewrite bump_S_nil. simpl. specialize (IH []). lia.
  - rewrite bump_S_cons. simpl. specialize (IH l). lia.
Qed.

(** Over a run of bumps at depth [d] or deeper, the counter at [d] grows
    by the number of bumps at [d]. *)
Lemma bump_run (d : nat) (depths : list nat) :
  forall n,
    Forall (fun d' => d <= d') depths ->
    nth d (fold_left (fun n d' => bump d' n) depths n) 0
    = nth d n 0 + count_occ Nat.eq_dec depths d.
Proof.
  induction depths as [|d' depths IH]; intros n H; simpl; [lia|].
  inversion H as [|? ? Hd Hds]; subst. rewrite (IH _ Hds).
  destruct (Nat.eq_dec d' d) as [->|Hne].
  - rewrite bump_increments. lia.
  - rewrite bump_keeps_shallower by lia. lia.
Qed.

(** The numbering emitted after a bump follows, in lexicographic order,
    any prefix of the counters before it. *)
Lemma emitted_increases (d' : nat) :
  forall n d, lex_lt (firstn (d + 1) n) (firstn (d' + 1) (bump d' n)).
Proof.
  induction d' as [|d' IH]; intros [|x l] d.
  - rewrite bump_0_nil. simpl. destruct d; simpl; auto.
  - rewrite bump_0_cons. replace (d + 1) with (S d) by lia.
    simpl. apply lex_head. lia.
  - rewrite bump_S_nil. replace (d + 1) with (S d) by lia. simpl. auto.
  - rewrite bump_S_cons. replace (d + 1) with (S d) by lia.
    replace (S d' + 1) with (S (d' + 1)) by lia. simpl. apply lex_tail.
    destruct d as [|d].
    + simpl. pose proof (bump_not_nil d' l).
      replace (d' + 1) with (S d') by lia.
      destruct (bump d' l); [contradiction | simpl; auto].
    + replace (S d) with (d + 1) by lia. apply IH.
Qed.

Lemma Sorted_snoc (A : Type) (R : A -> A -> Prop) (x y : A) (l : list A) :
  Sorted R (l ++ [y]) -> R y x -> Sorted R ((l ++ [y]) ++ [x]).
Proof.
  intros Hs Hr. induction l as [|a l IH]; simpl in *.
  - repeat constructor. exact Hr.
  - inversion Hs as [|? ? Hs' Hh]; subst. constructor.
    + now apply IH.
    + destruct l as [|b l]; simpl in *; constructor; now inversion Hh.
Qed.

(** ** The per-document loop *)

Lemma numberings_sorted (depths : list nat) :
  forall n, Sorted lex_lt (numberings n depths).
Proof.
  induction depths as [|d depths IH]; intros n; simpl; constructor.
  - apply IH.
  - destruct depths as [|d' depths]; simpl; constructor.
    apply emitted_increases.
Qed.

#[local] Instance lex_lt_transitive : RelationClasses.Transitive lex_lt.
Proof. intros a b c. apply lex_lt_trans. Qed.

Lemma dict_set_not_nil (d : dict) (k v : str) : dict_set d k v <> [].
Proof.
  destruct d as [|[k' v'] d]; simpl; [discriminate|].
  destruct (Str.eqb k' k); discriminate.
Qed.

Lemma dict_update_not_nil (other d : dict) : d <> [] -> dict_update d other <> [].
Proof.
  unfold dict_update. revert d.
  induction other as [|kv other IH]; intros d H; simpl; [exact H|].
  apply IH, dict_set_not_nil.
Qed.

Section LoopFacts.

Variable yaml_safe_load : str -> option dict.
Variable markdown_markdown : str -> option str.
Variable read_file : str -> option str.
Variable cwd : str.
Variable str_title : str -> str.

Let load := load_document yaml_safe_load read_file.
Let step_file := process_file yaml_safe_load markdown_markdown read_file cwd str_title.
Let run_from := process_from yaml_safe_load markdown_markdown read_file cwd str_title.
Let run := process_loop yaml_safe_load markdown_markdown read_file cwd str_title.

(** A frontmatter with a [title:] line always yields metadata, whatever
    the YAML parser makes of it. *)
Lemma safe_load_frontmatter_title (fm : str) :
  search MULTILINE (field_pattern "title") fm <> None ->
  fm <> [] ->
  safe_load_frontmatter yaml_safe_load fm <> None.
Proof.
  intros Hm Hne. unfold safe_load_frontmatter.
  destruct fm as [|c fm]; [contradiction|].
  destruct (search MULTILINE (field_pattern "title") (c :: fm)) as [m|];
    [|contradiction].
  set (md0 := dict_set [] "title" _).
  set (md1 := match search MULTILINE (field_pattern "description") _ with
              | Some m0 => _ | None => md0 end).
  assert (H1 : md1 <> []).
  { subst md1. destruct (search MULTILINE (field_pattern "description") _).
    - apply dict_set_not_nil.
    - apply dict_set_not_nil. }
  destruct (yaml_safe_load _) as [parsed|].
  - pose proof (dict_update_not_nil parsed H1) as H2.
    destruct (dict_update md1 parsed); [contradiction | discriminate].
  - destruct md1; [contradiction | discriminate].
Qed.

Lemma process_file_numbering files repo_dir docs_dir st index file_path :
  numbering (step_file files repo_dir docs_dir st index file_path)
  = bumped (numbering st)
      (emit_depth yaml_safe_load read_file cwd repo_dir docs_dir file_path).
Proof.
  unfold step_file, process_file, emit_depth, load.
  destruct (load_document _ _ _) as [[data body]|]; [|reflexivity].
  destruct (toc_depth _ _ _ _) as [d|]; [|reflexivity].
  simpl. now destruct (html_page _ _ _ _ _ _ _).
Qed.

Lemma process_file_toc files repo_dir docs_dir st index file_path :
  map entry_numbering (toc (step_file files repo_dir docs_dir st index file_path))
  = map entry_numbering (toc st)
    ++ emitted (numbering st)
         (emit_depth yaml_safe_load read_file cwd repo_dir docs_dir file_path).
Proof.
  unfold step_file, process_file, emit_depth, load.
  destruct (load_document _ _ _) as [[data body]|]; [|now rewrite app_nil_r].
  destruct (toc_depth _ _ _ _) as [d|]; [|now rewrite app_nil_r].
  simpl. destruct (html_page _ _ _ _ _ _ _); simpl; now rewrite map_app.
Qed.

(** The table of contents of a run consists of the numberings emitted for
    the documents that have metadata, in order. *)
Lemma process_from_toc files repo_dir docs_dir todo :
  forall st index,
    map entry_numbering (toc (run_from files repo_dir docs_dir st index todo))
    = map entry_numbering (toc st)
      ++ numberings (numbering st)
           (emit_depths yaml_safe_load read_file cwd repo_dir docs_dir todo).
Proof.
  induction todo as [|f todo IH]; intros st index; simpl.
  - now rewrite app_nil_r.
  - unfold run_from in *. simpl. rewrite IH.
    fold (step_file files repo_dir docs_dir st index f).
    rewrite process_file_toc, process_file_numbering.
    destruct (emit_depth yaml_safe_load read_file cwd repo_dir docs_dir f); simpl.
    + now rewrite <- app_assoc.
    + now rewrite app_nil_r.
Qed.

Lemma process_loop_toc files repo_dir docs_dir :
  map entry_numbering (toc (run files repo_dir docs_dir))
  = numberings [0] (emit_depths yaml_safe_load read_file cwd repo_dir docs_dir files).
Proof.
  unfold run, process_loop.
  apply (process_from_toc files repo_dir docs_dir files initial_state 0).
Qed.

Lemma process_from_numbering files repo_dir docs_dir todo :
  forall st index,
    numbering (run_from files repo_dir docs_dir st index todo)
    = fold_left (fun n d => bump d n)
        (emit_depths yaml_safe_load read_file cwd repo_dir docs_dir todo)
        (numbering st).
Proof.
  induction todo as [|f todo IH]; intros st index; simpl; [reflexivity|].
  unfold run_from in *. simpl. rewrite IH.
  fold (step_file files repo_dir docs_dir st index f).
  rewrite process_file_numbering.
  now destruct (emit_depth yaml_safe_load read_file cwd repo_dir docs_dir f).
Qed.

Lemma process_file_skip files repo_dir docs_dir st index file_path :
  load file_path = None ->
  step_file files repo_dir docs_dir st index file_path = st.
Proof.
  intros H. unfold step_file, process_file. fold load. now rewrite H.
Qed.

Lemma process_file_page files repo_dir docs_dir st index file_path
    data body d page :
  load file_path = Some (data, body) ->
  toc_depth cwd file_path repo_dir docs_dir = Some d ->
  (forall e, entry_depth e = d ->
     html_page markdown_markdown e data body file_path repo_dir docs_dir
     = Some (page e)) ->
  exists e,
    entry_depth e = d
    /\ entry_numbering e = firstn (d + 1) (bump d (numbering st))
    /\ step_file files repo_dir docs_dir st index file_path
       = {| toc := toc st ++ [e];
            html_all_pages_content :=
              html_all_pages_content st ++ [page e]
              ++ (if index <? length files - 1 then [page_break] else []);
            numbering := bump d (numbering st) |}.
Proof.
  intros Hl Hd Hp. unfold step_file, process_file. fold load.
  rewrite Hl, Hd. eexists. split; [|split]; cycle 2.
  - rewrite Hp by reflexivity. reflexivity.
  - reflexivity.
  - reflexivity.
Qed.

Lemma process_file_depths files repo_dir docs_dir st index file_path :
  map entry_depth (toc (step_file files repo_dir docs_dir st index file_path))
  = map entry_depth (toc st)
    ++ match emit_depth yaml_safe_load read_file cwd repo_dir docs_dir file_path with
       | Some d => [d]
       | None => []
       end.
Proof.
  unfold step_file, process_file, emit_depth, load.
  destruct (load_document _ _ _) as [[data body]|]; [|now rewrite app_nil_r].
  destruct (toc_depth _ _ _ _) as [d|]; [|now rewrite app_nil_r].
  simpl. destruct (html_page _ _ _ _ _ _ _); simpl; now rewrite map_app.
Qed.

Lemma process_from_depths files repo_dir docs_dir todo :
  forall st index,
    map entry_depth (toc (run_from files repo_dir docs_dir st index todo))
    = map entry_depth (toc st)
      ++ emit_depths yaml_safe_load read_file cwd repo_dir docs_dir todo.
Proof.
  induction todo as [|f todo IH]; intros st index; simpl.
  - now rewrite app_nil_r.
  - unfold run_from in *. simpl. rewrite IH.
    fold (step_file files repo_dir docs_dir st index f).
    rewrite process_file_depths.
    destruct (emit_depth yaml_safe_load read_file cwd repo_dir docs_dir f); simpl.
    + now rewrite <- app_assoc.
    + now rewrite app_nil_r.
Qed.

Lemma process_loop_depths files repo_dir docs_dir :
  map entry_depth (toc (run files repo_dir docs_dir))
  = emit_depths yaml_safe_load read_file cwd repo_dir docs_dir files.
Proof.
  unfold run, process_loop.
  apply (process_from_depths files repo_dir docs_dir files initial_state 0).
Qed.

End LoopFacts.

Section LoopTheorems.

Variable yaml_safe_load : str -> option dict.
Variable markdown_markdown : str -> option str.
Variable read_file : str -> option str.
Variable cwd : str.
Variable str_title : str -> str.

Let load := load_document yaml_safe_load read_file.
Let step_file := process_file yaml_safe_load markdown_markdown read_file cwd str_title.
Let run_from := process_from yaml_safe_load markdown_markdown read_file cwd str_title.
Let run := process_loop yaml_safe_load markdown_markdown read_file cwd str_title.

(** C9: a document whose metadata is absent (no frontmatter is found, or
    [safe_load_frontmatter] recovers nothing from it) leaves the state of
    the loop as it was: no entry in the table of contents, no page, the
    counters untouched; and the loop goes on with the next document. *)
Theorem document_without_metadata_is_dropped
    (files : list str) (repo_dir docs_dir : str)
    (st : loop_state) (index : nat) (file_path md_content : str) :
  read_file file_path = Some md_content ->
  (let md := preprocess_code_blocks (process_image_paths md_content) in
   fst (parse_frontmatter md) = None
   \/ exists frontmatter,
        fst (parse_frontmatter md) = Some frontmatter
        /\ safe_load_frontmatter yaml_safe_load frontmatter = None) ->
  step_file files repo_dir docs_dir st index file_path = st
  /\ forall todo,
       run_from files repo_dir docs_dir st index (file_path :: todo)
       = run_from files repo_dir docs_dir st (S index) todo.
Proof.
  intros Hread Habsent.
  assert (Hstep : step_file files repo_dir docs_dir st index file_path = st).
  { unfold step_file, process_file, load_document. rewrite Hread.
    simpl in Habsent.
    destruct (parse_frontmatter _) as [frontmatter body]. simpl in Habsent.
    destruct Habsent as [-> | [fm [-> Hnone]]]; [reflexivity|].
    destruct fm as [|c fm]; [reflexivity|].
    now rewrite Hnone. }
  split; [exact Hstep|].
  intros todo. unfold run_from. simpl.
  fold (step_file files repo_dir docs_dir st index file_path).
  now rewrite Hstep.
Qed.

(** A document with a [title:] line in its frontmatter is loaded. *)
Lemma load_document_title (file_path md_content fm body : str) :
  read_file file_path = Some md_content ->
  parse_frontmatter (preprocess_code_blocks (process_image_paths md_content))
  = (Some fm, body) ->
  fm <> [] ->
  search MULTILINE (field_pattern "title") fm <> None ->
  exists data, load file_path = Some (data, body).
Proof.
  intros Hread Hparse Hne Hm. unfold load, load_document.
  rewrite Hread, Hparse.
  pose proof (safe_load_frontmatter_title yaml_safe_load Hm Hne) as H.
  destruct fm as [|c fm]; [contradiction|].
  destruct (safe_load_frontmatter yaml_safe_load (c :: fm)) as [data|];
    [now exists data | contradiction].
Qed.

End LoopTheorems.

(** ** Witnesses of the loop theorems *)

Lemma document_without_metadata_is_dropped_witness :
  process_file Scenario.yaml_safe_load Scenario.markdown_markdown
    TailDrop.read_file Scenario.cwd Scenario.str_title
    TailDrop.files [] "docs" initial_state 1 "docs/b.md"
  = initial_state.
Proof.
  refine (proj1 (@document_without_metadata_is_dropped
                   Scenario.yaml_safe_load Scenario.markdown_markdown
                   TailDrop.read_file Scenario.cwd Scenario.str_title
                   TailDrop.files [] "docs" initial_state 1 "docs/b.md"
                   "No frontmatter here." _ _)).
  - reflexivity.
  - left. vm_compute. reflexivity.
Defined.

(** ** The order of discovery *)

Lemma nat_of_ascii_inj (x y : ascii) : nat_of_ascii x = nat_of_ascii y -> x = y.
Proof.
  intros H. rewrite <- (ascii_nat_embedding x), <- (ascii_nat_embedding y).
  now rewrite H.
Qed.

Lemma ltb_irrefl (a : str) : Str.ltb a a = false.
Proof.
  induction a as [|x a IH]; simpl; [reflexivity|].
  now rewrite Nat.ltb_irrefl, Nat.eqb_refl, IH.
Qed.

Lemma ltb_app (p a b : str) : Str.ltb (p ++ a) (p ++ b) = Str.ltb a b.
Proof.
  induction p as [|x p IH]; simpl; [reflexivity|].
  now rewrite Nat.ltb_irrefl, Nat.eqb_refl, IH.
Qed.

Lemma ltb_cons (x y : ascii) (a b : str) :
  Str.ltb (x :: a) (y :: b)
  = (nat_of_ascii x <? nat_of_ascii y)
    || ((nat_of_ascii x =? nat_of_ascii y) && Str.ltb a b).
Proof. reflexivity. Qed.

(** [leb] is transitive: the keys are totally ordered. *)
Lemma leb_trans (a b c : str) :
  Str.leb a b = true -> Str.leb b c = true -> Str.leb a c = true.
Proof.
  unfold Str.leb. rewrite !negb_true_iff.
  revert a b. induction c as [|z c IH]; intros [|x a] [|y b] Hba Hcb;
    try reflexivity; try discriminate.
  rewrite ltb_cons in *.
  apply orb_false_iff in Hba as [H1 H2]. apply orb_false_iff in Hcb as [H3 H4].
  apply Nat.ltb_ge in H1, H3. apply orb_false_iff. split.
  - apply Nat.ltb_ge. lia.
  - destruct (Nat.eqb_spec (nat_of_ascii z) (nat_of_ascii x)) as [E|E];
      [|reflexivity].
    assert (E1 : nat_of_ascii y = nat_of_ascii x) by lia.
    assert (E2 : nat_of_ascii z = nat_of_ascii y) by lia.
    rewrite E1, Nat.eqb_refl in H2. rewrite E2, Nat.eqb_refl in H4.
    simpl in *. now apply (IH a b).
Qed.

Lemma leb_total (a b : str) : Str.leb a b = false -> Str.leb b a = true.
Proof.
  unfold Str.leb. rewrite negb_false_iff, negb_true_iff.
  revert b. induction a as [|x a IH]; intros [|y b] H; try reflexivity;
    try discriminate.
  rewrite ltb_cons in *. apply orb_true_iff in H as [H|H].
  - apply Nat.ltb_lt in H. apply orb_false_iff. split.
    + apply Nat.ltb_ge. lia.
    + destruct (Nat.eqb_spec (nat_of_ascii x) (nat_of_ascii y)); [lia | reflexivity].
  - apply andb_true_iff in H as [H1 H2]. apply Nat.eqb_eq in H1.
    rewrite H1, Nat.ltb_irrefl, Nat.eqb_refl. simpl. now apply IH.
Qed.

(** When neither text is a prefix of the other, what follows them does not
    matter. *)
Lemma ltb_app_incomparable (a b x y : str) :
  Str.startswith a b = false -> Str.startswith b a = false ->
  Str.ltb (a ++ x) (b ++ y) = Str.ltb a b.
Proof.
  revert b. induction a as [|c a IH]; intros [|d b] H1 H2; try discriminate.
  simpl app. rewrite !ltb_cons. simpl in H1, H2.
  destruct (Nat.eqb_spec (nat_of_ascii c) (nat_of_ascii d)) as [E|E].
  - apply nat_of_ascii_inj in E. subst d. rewrite Ascii.eqb_refl in *.
    simpl in *. f_equal. now apply IH.
  - now rewrite !andb_false_l.
Qed.

Lemma insert_by_key_In e l x :
  In x (insert_by_key e l) <-> x = e \/ In x l.
Proof.
  induction l as [|y l IH]; simpl.
  - intuition.
  - destruct (Str.leb (snd e) (snd y)); simpl; rewrite ?IH; intuition.
Qed.

Lemma insert_by_key_sorted e l :
  StronglySorted key_le l -> StronglySorted key_le (insert_by_key e l).
Proof.
  induction l as [|y l IH]; intros Hs; simpl.
  - repeat constructor.
  - inversion Hs as [|? ? Hs' Hall]; subst.
    destruct (Str.leb (snd e) (snd y)) eqn:E.
    + constructor; [exact Hs|]. constructor; [exact E|].
      eapply Forall_impl; [|exact Hall].
      intros z Hz. unfold key_le in *. eapply leb_trans; eassumption.
    + constructor; [now apply IH|].
      apply Forall_forall. intros z Hz. apply insert_by_key_In in Hz as [->|Hz].
      * now apply leb_total.
      * rewrite Forall_forall in Hall. now apply Hall.
Qed.

Lemma sort_by_key_In l x : In x (sort_by_key l) <-> In x l.
Proof.
  induction l as [|e l IH]; simpl; [tauto|].
  rewrite insert_by_key_In, IH. intuition.
Qed.

Lemma sort_by_key_sorted l : StronglySorted key_le (sort_by_key l).
Proof.
  induction l as [|e l IH]; simpl; [constructor|].
  now apply insert_by_key_sorted.
Qed.

Lemma sort_by_key_permutation l : Permutation l (sort_by_key l).
Proof.
  induction l as [|e l IH]; simpl; [constructor|].
  transitivity (e :: sort_by_key l); [now constructor|].
  clear IH. induction (sort_by_key l) as [|y s IH]; simpl; [reflexivity|].
  destruct (Str.leb (snd e) (snd y)); [reflexivity|].
  transitivity (y :: e :: s); [apply perm_swap | now constructor].
Qed.

Lemma sorted_positions (A : Type) (R : A -> A -> Prop) (l : list A) :
  StronglySorted R l ->
  forall i j x y, nth_error l i = Some x -> nth_error l j = Some y ->
    i < j -> R x y.
Proof.
  induction 1 as [|a l Hs IH Hall]; intros i j x y Hi Hj Hij.
  - destruct i; discriminate.
  - destruct j as [|j]; [lia|]. simpl in Hj. destruct i as [|i]; simpl in Hi.
    + injection Hi as <-. rewrite Forall_forall in Hall.
      apply Hall. eapply nth_error_In; eassumption.
    + eapply IH; try eassumption. lia.
Qed.

Lemma span_name_plain (n r : str) :
  plain_name n = true ->
  PosixPath.span_name (n ++ "/"%char :: r) = (n, "/"%char :: r).
Proof.
  induction n as [|c n IH]; simpl; intros H; [reflexivity|].
  apply andb_true_iff in H as [Hc Hn]. apply negb_true_iff in Hc.
  now rewrite Hc, (IH Hn).
Qed.

Lemma span_name_plain_all (n : str) :
  plain_name n = true -> PosixPath.span_name n = (n, []).
Proof.
  induction n as [|c n IH]; simpl; intros H; [reflexivity|].
  apply andb_true_iff in H as [Hc Hn]. apply negb_true_iff in Hc.
  now rewrite Hc, (IH Hn).
Qed.

Lemma plain_name_rev (n : str) : plain_name (rev n) = plain_name n.
Proof.
  unfold plain_name. induction n as [|c n IH]; simpl; [reflexivity|].
  rewrite forallb_app, IH. simpl. rewrite andb_true_r. apply andb_comm.
Qed.

Lemma basename_sep (a file : str) :
  plain_name file = true -> PosixPath.basename (a ++ "/" ++ file) = file.
Proof.
  intros H. unfold PosixPath.basename.
  change (a ++ "/" ++ file) with (a ++ "/"%char :: file).
  rewrite rev_app_distr. simpl rev. rewrite <- app_assoc. simpl app.
  rewrite span_name_plain by now rewrite plain_name_rev.
  simpl. apply rev_involutive.
Qed.

Lemma endswith_sep (a : str) :
  Str.endswith a "/" = true -> exists a', a = a' ++ "/".
Proof.
  unfold Str.endswith. simpl. destruct (rev a) as [|x r] eqn:E; [discriminate|].
  intros H. apply andb_true_iff in H as [H _]. apply Ascii.eqb_eq in H. subst x.
  exists (rev r). rewrite <- (rev_involutive a), E. reflexivity.
Qed.

Lemma plain_name_not_abs (file : str) :
  plain_name file = true -> Str.startswith file "/" = false.
Proof.
  destruct file as [|c file]; [reflexivity|]. simpl. intros H.
  apply andb_true_iff in H as [H _]. unfold PosixPath.is_sep in H.
  apply negb_true_iff in H. now rewrite H.
Qed.

(** Joining a directory and a plain file name keeps the name as the
    basename. *)
Lemma basename_join (root file : str) :
  plain_name file = true ->
  PosixPath.basename (PosixPath.join root file) = file.
Proof.
  intros H. unfold PosixPath.join. rewrite (plain_name_not_abs _ H).
  destruct root as [|c root].
  - unfold PosixPath.basename. rewrite span_name_plain_all.
    + apply rev_involutive.
    + now rewrite plain_name_rev.
  - destruct (Str.endswith (c :: root) "/") eqn:E.
    + destruct (endswith_sep _ E) as [a' ->]. rewrite <- app_assoc.
      now apply basename_sep.
    + now apply basename_sep.
Qed.

Lemma sort_key_of_path (root file : str) :
  plain_name file = true ->
  sort_key root file = key_of_path (PosixPath.join root file).
Proof.
  intros H. unfold sort_key, key_of_path. now rewrite basename_join.
Qed.

Lemma entries_of_In root files p k :
  In (p, k) (entries_of root files) ->
  exists file, In file files /\ p = PosixPath.join root file
               /\ k = sort_key root file.
Proof.
  induction files as [|f files IH]; simpl; [contradiction|].
  unfold entry at 1.
  destruct (is_document f); [|intros H; destruct (IH H) as [x Hx]; exists x; tauto].
  destruct (existsb _ excluded_dirs).
  - intros H; destruct (IH H) as [x Hx]; exists x; tauto.
  - intros [H|H].
    + injection H as <- <-. exists f. auto.
    + destruct (IH H) as [x Hx]; exists x; tauto.
Qed.

Lemma walk_plain :
  forall t top root files,
    plain_tree t = true -> In (root, files) (walk top t) ->
    forallb plain_name files = true.
Proof.
  fix IH 1. intros [subdirs files0] top root files Hp Hin.
  simpl in Hp. apply andb_true_iff in Hp as [Hf Hs].
  simpl in Hin. destruct Hin as [Heq|Hin].
  - injection Heq as _ <-. exact Hf.
  - clear Hf. revert Hs Hin.
    induction subdirs as [|[d t'] subdirs IHs]; simpl; intros Hs Hin.
    + contradiction.
    + apply andb_true_iff in Hs as [Ht' Hs].
      apply in_app_or in Hin as [Hin|Hin].
      * destruct (keep_dir d); [|contradiction].
        exact (IH t' _ _ _ Ht' Hin).
      * now apply IHs.
Qed.

Lemma all_files_keys root_dir t p k :
  plain_tree t = true -> In (p, k) (all_files root_dir t) -> k = key_of_path p.
Proof.
  intros Hp Hin. unfold all_files in Hin.
  apply in_flat_map in Hin as [[root files] [Hw He]]. simpl in He.
  apply entries_of_In in He as [file [Hf [-> ->]]].
  apply sort_key_of_path.
  pose proof (@walk_plain _ _ _ _ Hp Hw) as Hall.
  rewrite forallb_forall in Hall. now apply Hall.
Qed.

Lemma nth_error_map_inv (A B : Type) (f : A -> B) (l : list A) (i : nat) (y : B) :
  nth_error (map f l) i = Some y -> exists x, nth_error l i = Some x /\ f x = y.
Proof.
  revert i. induction l as [|a l IH]; intros [|i] H; simpl in *; try discriminate.
  - injection H as <-. now exists a.
  - now apply IH.
Qed.

(** Paths come out in the order of their keys. *)
Lemma discovery_order_by_key root_dir t out :
  plain_tree t = true ->
  get_files_sorted root_dir t = Some out ->
  forall i j p q,
    nth_error out i = Some p -> nth_error out j = Some q ->
    Str.ltb (key_of_path p) (key_of_path q) = true -> i < j.
Proof.
  intros Hp Hout i j p q Hi Hj Hlt. unfold get_files_sorted in Hout.
  destruct (all_files root_dir t) as [|e0 found] eqn:Ef; [discriminate|].
  injection Hout as <-.
  apply nth_error_map_inv in Hi as [[p' kp] [Hi Ep]].
  apply nth_error_map_inv in Hj as [[q' kq] [Hj Eq]].
  simpl in Ep, Eq. subst p' q'.
  assert (Hkp : kp = key_of_path p).
  { apply (@all_files_keys root_dir t _ _ Hp). rewrite Ef.
    apply sort_by_key_In. eapply nth_error_In; eassumption. }
  assert (Hkq : kq = key_of_path q).
  { apply (@all_files_keys root_dir t _ _ Hp). rewrite Ef.
    apply sort_by_key_In. eapply nth_error_In; eassumption. }
  destruct (Nat.lt_trichotomy i j) as [H|[H|H]]; [exact H| |].
  - subst j. rewrite Hi in Hj. injection Hj as -> ->.
    rewrite ltb_irrefl in Hlt. discriminate.
  - pose proof (@sorted_positions _ _ _ (sort_by_key_sorted (e0 :: found))
                  _ _ _ _ Hj Hi H) as Hle.
    unfold key_le, Str.leb in Hle. simpl in Hle. subst kp kq.
    rewrite Hlt in Hle. discriminate.
Qed.

(** Two runs of the discovery: [about.md] comes before its sibling
    [index.mdx]; and the files of [docs/a-b] come before those of [docs/a],
    although [docs/a] is the smaller path string. *)
Lemma index_mdx_is_not_prioritized :
  get_files_sorted "docs" (Dir [] ["index.mdx" : str; "about.md" : str])
  = Some ["docs/about.md" : str; "docs/index.mdx" : str]
  /\ get_files_sorted "docs"
       (Dir [("a" : str, Dir [] ["x.md" : str]);
             ("a-b" : str, Dir [] ["y.md" : str])] [])
     = Some ["docs/a-b/y.md" : str; "docs/a/x.md" : str]
  /\ Str.ltb "docs/a" "docs/a-b" = true.
Proof. vm_compute. repeat split; reflexivity. Qed.

(** What the sort key gives: in the discovery order of a tree whose file
    names hold no separator, a file named exactly [index.md] comes before
    every other document of its directory; two documents of one directory
    that get the same flag come in the lexicographic order of their names;
    and across directories the paths come in the order of the strings
    [dir_path + "/" + flag + name], so two directories of which neither,
    with its separator appended, is a prefix of the other compare as those
    strings. *)
Theorem index_md_sorts_before_siblings
    (root_dir : str) (t : tree) (out : list str) :
  plain_tree t = true ->
  get_files_sorted root_dir t = Some out ->
  forall i j p q,
    nth_error out i = Some p -> nth_error out j = Some q ->
    (PosixPath.dirname p = PosixPath.dirname q ->
     PosixPath.basename p = "index.md" -> PosixPath.basename q <> "index.md" ->
     i < j)
    /\ (PosixPath.dirname p = PosixPath.dirname q ->
        PosixPath.basename p <> "index.md" -> PosixPath.basename q <> "index.md" ->
        Str.ltb (PosixPath.basename p) (PosixPath.basename q) = true ->
        i < j)
    /\ (Str.startswith (PosixPath.dirname p ++ "/")
          (PosixPath.dirname q ++ "/") = false ->
        Str.startswith (PosixPath.dirname q ++ "/")
          (PosixPath.dirname p ++ "/") = false ->
        Str.ltb (PosixPath.dirname p ++ "/")
          (PosixPath.dirname q ++ "/") = true ->
        i < j)
    /\ (Str.ltb (key_of_path p) (key_of_path q) = true -> i < j).
Proof.
  intros Hp Hout i j p q Hi Hj.
  pose proof (@discovery_order_by_key root_dir t out Hp Hout i j p q Hi Hj) as Hkey.
  repeat split; [| | |exact Hkey].
  - intros Hd Hbp Hbq. apply Hkey. unfold key_of_path.
    rewrite Hd, Hbp. apply Str_eqb_neq in Hbq. rewrite Hbq.
    rewrite Str_eqb_refl, ltb_app.
    change ("/" ++ "0" ++ "index.md") with ("/" ++ ("0" ++ "index.md")).
    change ("/" ++ "1" ++ PosixPath.basename q)
      with ("/" ++ ("1" ++ PosixPath.basename q)).
    rewrite ltb_app. reflexivity.
  - intros Hd Hbp Hbq Hlt. apply Hkey. unfold key_of_path.
    apply Str_eqb_neq in Hbp, Hbq. rewrite Hd, Hbp, Hbq.
    rewrite ltb_app.
    change ("/" ++ "1" ++ PosixPath.basename p)
      with (("/" ++ "1") ++ PosixPath.basename p).
    change ("/" ++ "1" ++ PosixPath.basename q)
      with (("/" ++ "1") ++ PosixPath.basename q).
    rewrite ltb_app. exact Hlt.
  - intros H1 H2 Hlt. apply Hkey. unfold key_of_path.
    rewrite !(app_assoc (PosixPath.dirname _) "/").
    rewrite ltb_app_incomparable; assumption.
Qed.

Lemma index_md_sorts_before_siblings_witness :
  plain_tree Scenario.docs_tree = true
  /\ get_files_sorted "docs" Scenario.docs_tree = Some Scenario.files
  /\ nth_error Scenario.files 1 = Some ("docs/guide/index.md" : str)
  /\ nth_error Scenario.files 2 = Some ("docs/guide/setup.md" : str)
  /\ 1 < 2.
Proof.
  assert (Hp : plain_tree Scenario.docs_tree = true) by reflexivity.
  assert (Ho : get_files_sorted "docs" Scenario.docs_tree = Some Scenario.files)
    by (vm_compute; reflexivity).
  assert (H1 : nth_error Scenario.files 1 = Some ("docs/guide/index.md" : str))
    by reflexivity.
  assert (H2 : nth_error Scenario.files 2 = Some ("docs/guide/setup.md" : str))
    by reflexivity.
  repeat split; try assumption.
  refine (proj1 (@index_md_sorts_before_siblings "docs" Scenario.docs_tree _
                   Hp Ho 1 2 _ _ H1 H2) _ _ _).
  - vm_compute. reflexivity.
  - vm_compute. reflexivity.
  - vm_compute. discriminate.
Defined.

(** C4: the key gives the flag of an index file to [index.md] alone, so
    [index.mdx], which the discovery accepts as a document, is not put
    first: in the discovery order of a tree whose file names hold no
    separator, a document named [index.mdx] comes after every document of
    its directory whose name is smaller than [index.mdx] as a string, such
    as [about.md]. *)
Theorem index_mdx_sorts_after_smaller_siblings
    (root_dir : str) (t : tree) (out : list str) :
  plain_tree t = true ->
  get_files_sorted root_dir t = Some out ->
  forall i j p q,
    nth_error out i = Some p -> nth_error out j = Some q ->
    PosixPath.dirname p = PosixPath.dirname q ->
    PosixPath.basename p = "index.mdx" ->
    Str.ltb (PosixPath.basename q) "index.mdx" = true ->
    is_document (PosixPath.basename p) = true /\ j < i.
Proof.
  intros Hp Hout i j p q Hi Hj Hd Hbp Hlt.
  split; [now rewrite Hbp|].
  apply (@discovery_order_by_key root_dir t out Hp Hout j i q p Hj Hi).
  unfold key_of_path. rewrite Hd, Hbp, ltb_app.
  change (Str.eqb "index.mdx" "index.md") with false. cbv iota.
  destruct (Str.eqb (PosixPath.basename q) "index.md").
  - change ("/" ++ "0" ++ PosixPath.basename q)
      with ("/" ++ ("0" ++ PosixPath.basename q)).
    change ("/" ++ "1" ++ "index.mdx") with ("/" ++ ("1" ++ "index.mdx")).
    rewrite ltb_app. reflexivity.
  - change ("/" ++ "1" ++ PosixPath.basename q)
      with (("/" ++ "1") ++ PosixPath.basename q).
    change ("/" ++ "1" ++ "index.mdx") with (("/" ++ "1") ++ "index.mdx").
    rewrite ltb_app. exact Hlt.
Qed.

Lemma index_mdx_sorts_after_smaller_siblings_witness :
  get_files_sorted "docs" (Dir [] ["index.mdx" : str; "about.md" : str])
  = Some ["docs/about.md" : str; "docs/index.mdx" : str]
  /\ is_document "index.mdx" = true /\ 0 < 1.
Proof.
  assert (Ho : get_files_sorted "docs"
                 (Dir [] ["index.mdx" : str; "about.md" : str])
               = Some ["docs/about.md" : str; "docs/index.mdx" : str])
    by (vm_compute; reflexivity).
  split; [exact Ho|].
  refine (@index_mdx_sorts_after_smaller_siblings "docs"
            (Dir [] ["index.mdx" : str; "about.md" : str]) _ _ Ho
            1 0 "docs/index.mdx" "docs/about.md" _ _ _ _ _);
    vm_compute; reflexivity.
Defined.

(** ** Greedy repetition of a character class *)

Section GreedyFacts.

Variable fl : flags.

Lemma advance_nil (st : mstate) : advance [] (rest st) st = st.
Proof. now destruct st. Qed.

(** A greedy star over a class reads the whole run [w] of the class, when
    the rest of the pattern matches from there. *)
Lemma star_greedy_run body (p : ascii -> bool) k :
  (forall k' st', body k' st' = step p k' st') ->
  forall w st r res,
    rest st = w ++ r -> forallb p w = true -> stops p r ->
    k (advance w r st) = Some res ->
    star_loop true body k (length (rest st)) st = Some res.
Proof.
  intros Hbody. induction w as [|c w IH]; intros st r res Hrest Hw Hstop Hk.
  - simpl in Hrest. rewrite <- Hrest, advance_nil in Hk.
    destruct (length (rest st)) eqn:En; simpl; [exact Hk|].
    rewrite Hbody. unfold step. rewrite Hrest in *.
    destruct r as [|x r]; [discriminate|]. simpl in Hstop. now rewrite Hstop.
  - destruct st as [pv a cs]. simpl in Hrest. subst a. simpl length.
    simpl in Hw. apply andb_true_iff in Hw as [Hc Hw].
    cbn [star_loop]. rewrite Hbody. unfold step. cbn [rest caps app].
    rewrite Hc.
    replace (length (w ++ r) <? length (c :: w ++ r)) with true
      by (symmetry; apply Nat.ltb_lt; simpl; lia).
    pose proof (IH {| prev := Some c; rest := w ++ r; caps := cs |} r res
                  eq_refl Hw Hstop Hk) as H.
    cbn [rest] in H. now rewrite H.
Qed.

Lemma plus_greedy_run (r1 : regex) (p : ascii -> bool) k :
  (forall k' st', rmatch fl r1 k' st' = step p k' st') ->
  forall w st r res,
    w <> [] -> rest st = w ++ r -> forallb p w = true -> stops p r ->
    k (advance w r st) = Some res ->
    rmatch fl (Plus true r1) k st = Some res.
Proof.
  intros Hbody w st r res Hne Hrest Hw Hstop Hk.
  destruct w as [|c w]; [contradiction|].
  unfold Plus. rewrite rmatch_Seq, Hbody. unfold step.
  destruct st as [pv a cs]. simpl in Hrest. subst a. cbn [rest caps].
  simpl in Hw. apply andb_true_iff in Hw as [Hc Hw]. rewrite Hc.
  rewrite rmatch_Star.
  apply (@star_greedy_run (rmatch fl r1) p k Hbody w
           {| prev := Some c; rest := w ++ r; caps := cs |} r res);
    try reflexivity; assumption.
Qed.

Lemma consumed_advance (w r : str) (st : mstate) :
  rest st = w ++ r -> consumed st (advance w r st) = w.
Proof.
  intros H. unfold consumed, advance. simpl. rewrite H, length_app.
  replace (length w + length r - length r) with (length w) by lia.
  rewrite firstn_app, firstn_all, Nat.sub_diag. simpl. apply app_nil_r.
Qed.

(** The same for a capturing group around the repetition. *)
Lemma group_plus_greedy_run (n : nat) (r1 : regex) (p : ascii -> bool) k :
  (forall k' st', rmatch fl r1 k' st' = step p k' st') ->
  forall w st r res,
    w <> [] -> rest st = w ++ r -> forallb p w = true -> stops p r ->
    k (set_cap n w (advance w r st)) = Some res ->
    rmatch fl (Group n (Plus true r1)) k st = Some res.
Proof.
  intros Hbody w st r res Hne Hrest Hw Hstop Hk.
  rewrite rmatch_Group.
  apply (@plus_greedy_run r1 p _ Hbody w st r res); try assumption.
  now rewrite consumed_advance.
Qed.

Lemma cls_step neg items k st :
  rmatch fl (Cls neg items) k st = step (cls_has neg items) k st.
Proof. reflexivity. Qed.

End GreedyFacts.

Lemma isword_not_isspace (c : ascii) : isword c = true -> Str.isspace c = false.
Proof.
  destruct c as [[] [] [] [] [] [] [] []]; vm_compute; intros H;
    first [reflexivity | discriminate].
Qed.

Lemma isspace_not_isword (c : ascii) : Str.isspace c = true -> isword c = false.
Proof.
  intros H. destruct (isword c) eqn:E; [|reflexivity].
  apply isword_not_isspace in E. congruence.
Qed.

(** ** Import statements *)

Lemma forallb_eq (A : Type) (f g : A -> bool) (l : list A) :
  (forall a, f a = g a) -> forallb f l = forallb g l.
Proof.
  intros H. induction l as [|a l IH]; simpl; [reflexivity|].
  now rewrite H, IH.
Qed.

Lemma cls_space (c : ascii) : cls_has false [ISpace] c = Str.isspace c.
Proof. unfold cls_has. simpl. now rewrite orb_false_r. Qed.

Lemma cls_word (c : ascii) : cls_has false [IWord] c = isword c.
Proof. unfold cls_has. simpl. now rewrite orb_false_r. Qed.






(** ** Normalizing a path *)

Lemma lstrip_decompose (p : ascii -> bool) (a : str) :
  exists w, a = w ++ Str.lstrip_by p a
            /\ forallb p w = true /\ stops p (Str.lstrip_by p a).
Proof.
  induction a as [|c a [w [E [Hw Hs]]]].
  - exists []. simpl. auto.
  - simpl. destruct (p c) eqn:Hc.
    + exists (c :: w). simpl. rewrite Hc, Hw. repeat split; [|exact Hs].
      now rewrite <- E.
    + exists []. simpl. auto.
Qed.

Lemma prev_after_run (w : str) :
  w <> [] -> forall pv, exists x, fold_left (fun _ c => Some c) w pv = Some x.
Proof.
  induction w as [|c w IH]; intros Hne pv; [contradiction|].
  simpl. destruct w as [|c' w]; [now exists c|].
  apply IH. discriminate.
Qed.

Lemma leading_markers_not_here (a : str) (x : ascii) :
  match_here no_flags leading_markers (Some x) a = None.
Proof. reflexivity. Qed.

Lemma leading_markers_only_at_start (a : str) (x : ascii) :
  search_from no_flags leading_markers (Some x) a = None.
Proof.
  revert x. induction a as [|c a IH]; intros x; cbn [search_from];
    rewrite leading_markers_not_here; [reflexivity|].
  now rewrite IH.
Qed.

(** [normalize_path] removes the leading run of [.], [/] and [~], and
    nothing else. *)
Lemma normalize_path_lstrip (a : str) :
  normalize_path a = Str.lstrip_by is_marker a.
Proof.
  destruct (lstrip_decompose is_marker a) as [w [E [Hw Hs]]].
  unfold normalize_path, sub. cbn [sub_loop].
  destruct w as [|c w].
  - simpl in E. rewrite <- E.
    assert (Hm : match_here no_flags leading_markers None a = None).
    { unfold match_here, leading_markers. rewrite rmatch_seqs_cons.
      change (rmatch no_flags Bol) with
        (fun (k : mstate -> option mstate) st =>
           if at_bol no_flags st then k st else None).
      cbv beta. change (at_bol no_flags (init None a)) with true. cbv iota.
      rewrite rmatch_seqs_cons. unfold Plus, one_of.
      rewrite rmatch_Seq, cls_step. unfold step, init. cbn [rest].
      rewrite <- E in Hs. destruct a as [|y a]; [reflexivity|].
      simpl in Hs. change (cls_has false (map IChar "./~") y) with (is_marker y).
      now rewrite Hs. }
    assert (Hsearch : search_from no_flags leading_markers None a = None).
    { destruct a as [|y a]; cbn [search_from]; rewrite Hm;
        rewrite ?leading_markers_only_at_start; reflexivity. }
    now rewrite Hsearch.
  - set (r := Str.lstrip_by is_marker a) in *.
    destruct (prev_after_run (w := c :: w) ltac:(discriminate) None) as [x Hx].
    assert (Hm : match_here no_flags leading_markers None a
                 = Some {| prev := Some x; rest := r; caps := [] |}).
    { unfold match_here, leading_markers. rewrite rmatch_seqs_cons.
      change (rmatch no_flags Bol) with
        (fun (k : mstate -> option mstate) st =>
           if at_bol no_flags st then k st else None).
      cbv beta. change (at_bol no_flags (init None a)) with true. cbv iota.
      rewrite rmatch_seqs_cons.
      eapply plus_greedy_run with (p := is_marker) (w := c :: w) (r := r);
        [intros; apply cls_step | discriminate | exact E | exact Hw | exact Hs |].
      unfold advance, init. cbn [prev caps]. rewrite Hx. reflexivity. }
    assert (Hsearch : search_from no_flags leading_markers None a
                      = Some ([], {| prev := Some x; rest := r; caps := [] |})).
    { destruct a; cbn [search_from]; now rewrite Hm. }
    rewrite Hsearch. cbn [rest prev length app].
    replace (0 + length r <? length a) with true.
    + destruct (length a); cbn [sub_loop]; [reflexivity|].
      now rewrite leading_markers_only_at_start.
    + symmetry. apply Nat.ltb_lt.
      assert (length a = length (c :: w) + length r)
        by (rewrite E at 1; apply length_app).
      simpl in *. lia.
Qed.

(** ** Substitution: independence of the fuel and of the previous character *)

Section SubFacts.

Variable fl : flags.

Lemma step_reaches p k st res :
  step p k st = Some res -> reaches k st res.
Proof.
  unfold step. destruct (rest st) as [|x a] eqn:E; [discriminate|].
  destruct (p x); [|discriminate]. intros H.
  eexists. split; [|exact H]. simpl. rewrite E. exists [x]. reflexivity.
Qed.

Lemma star_loop_reaches greedy body k :
  (forall k' st' res, body k' st' = Some res -> reaches k' st' res) ->
  forall n st res, star_loop greedy body k n st = Some res -> reaches k st res.
Proof.
  intros Hbody. induction n as [|n IH]; intros st res H; simpl in H.
  - exists st. split; [apply suffix_refl | exact H].
  - assert (Hmore : forall res',
               body (fun st' => if length (rest st') <? length (rest st)
                                then star_loop greedy body k n st' else None) st
               = Some res' -> reaches k st res').
    { intros res' Hb. apply Hbody in Hb as [st1 [Hs1 Hk1]].
      destruct (_ <? _); [|discriminate].
      apply IH in Hk1 as [st2 [Hs2 Hk2]].
      exists st2. split; [|exact Hk2]. eapply suffix_trans; eassumption. }
    assert (Hstop : forall res', k st = Some res' -> reaches k st res').
    { intros res' Hk. exists st. split; [apply suffix_refl | exact Hk]. }
    destruct greedy.
    + destruct (body _ st) as [x|] eqn:Eb.
      * injection H as <-. now apply Hmore.
      * now apply Hstop.
    + destruct (k st) as [x|] eqn:Ek.
      * injection H as <-. now apply Hstop.
      * now apply Hmore.
Qed.

(** A match ends at a later position of the text it started in. *)
Lemma rmatch_reaches (r : regex) :
  forall k st res, rmatch fl r k st = Some res -> reaches k st res.
Proof.
  induction r; intros k st res H; simpl in H.
  - exists st. split; [apply suffix_refl | exact H].
  - eapply step_reaches; eassumption.
  - eapply step_reaches; eassumption.
  - eapply step_reaches; eassumption.
  - apply IHr1 in H as [st1 [Hs1 H1]]. apply IHr2 in H1 as [st2 [Hs2 H2]].
    exists st2. split; [|exact H2]. eapply suffix_trans; eassumption.
  - destruct (rmatch fl r1 k st) as [x|] eqn:E.
    + injection H as <-. now apply IHr1.
    + now apply IHr2.
  - eapply star_loop_reaches; [|exact H]. intros k' st' res'. apply IHr.
  - apply IHr in H as [st1 [Hs1 H1]]. eexists. split; [|exact H1]. exact Hs1.
  - destruct (at_bol fl st); [|discriminate].
    exists st. split; [apply suffix_refl | exact H].
  - destruct (at_eol fl st); [|discriminate].
    exists st. split; [apply suffix_refl | exact H].
Qed.

Lemma suffix_length (b a : str) : suffix b a -> length b <= length a.
Proof. intros [p ->]. rewrite length_app. lia. Qed.

Lemma step_consumes p k st res :
  step p k st = Some res -> reaches_later k st res.
Proof.
  unfold step. destruct (rest st) as [|x a] eqn:E; [discriminate|].
  destruct (p x); [|discriminate]. intros H.
  eexists. split; [|exact H]. simpl. rewrite E. simpl. lia.
Qed.

(** A match of a pattern that [consumes] is not empty. *)
Lemma rmatch_consumes (r : regex) :
  consumes r = true ->
  forall k st res, rmatch fl r k st = Some res -> reaches_later k st res.
Proof.
  induction r; intros Hc k st res H; simpl in Hc; try discriminate;
    simpl in H.
  - eapply step_consumes; eassumption.
  - eapply step_consumes; eassumption.
  - eapply step_consumes; eassumption.
  - destruct (consumes r1) eqn:E1.
    + apply (IHr1 eq_refl) in H as [st1 [Hl1 H1]].
      apply rmatch_reaches in H1 as [st2 [Hs2 H2]].
      apply suffix_length in Hs2. exists st2. split; [lia | exact H2].
    + simpl in Hc. apply rmatch_reaches in H as [st1 [Hs1 H1]].
      apply (IHr2 Hc) in H1 as [st2 [Hl2 H2]].
      apply suffix_length in Hs1. exists st2. split; [lia | exact H2].
  - apply andb_true_iff in Hc as [Hc1 Hc2].
    destruct (rmatch fl r1 k st) as [x|] eqn:E.
    + injection H as <-. now apply IHr1.
    + now apply IHr2.
  - apply (IHr Hc) in H as [st1 [Hl1 H1]]. eexists. split; [|exact H1].
    exact Hl1.
Qed.

(** So a pattern that [consumes] never takes the branch of [sub_loop] for
    empty matches. *)
Lemma search_from_consumes r :
  consumes r = true ->
  forall a p sk st,
    search_from fl r p a = Some (sk, st) ->
    length sk + length (rest st) < length a.
Proof.
  intros Hc. induction a as [|c a IH]; intros p sk st H;
    cbn [search_from] in H.
  - destruct (match_here fl r p []) as [x|] eqn:E; [|discriminate].
    apply (rmatch_consumes r Hc) in E as [st' [Hl _]]. simpl in Hl. lia.
  - destruct (match_here fl r p (c :: a)) as [x|] eqn:E.
    + injection H as <- <-.
      apply (rmatch_consumes r Hc) in E as [st' [Hl Hk]].
      injection Hk as ->. simpl in *. lia.
    + destruct (search_from fl r (Some c) a) as [[sk' st']|] eqn:Es;
        [|discriminate].
      injection H as <- <-. apply IH in Es. simpl. lia.
Qed.

Lemma search_from_bound r :
  forall a p sk st,
    search_from fl r p a = Some (sk, st) ->
    length sk + length (rest st) <= length a.
Proof.
  induction a as [|c a IH]; intros p sk st H; cbn [search_from] in H.
  - destruct (match_here fl r p []) as [x|] eqn:E; [|discriminate].
    injection H as <- <-. apply rmatch_reaches in E as [st' [Hs Hk]].
    injection Hk as ->. apply suffix_length in Hs. simpl in *. lia.
  - destruct (match_here fl r p (c :: a)) as [x|] eqn:E.
    + injection H as <- <-. apply rmatch_reaches in E as [st' [Hs Hk]].
      injection Hk as ->. apply suffix_length in Hs. simpl in *. lia.
    + destruct (search_from fl r (Some c) a) as [[sk' st']|] eqn:Es; [|discriminate].
      injection H as <- <-. apply IH in Es. simpl. lia.
Qed.

(** Any fuel above the length of the text gives the same result. *)
Lemma sub_loop_fuel r repl :
  forall f1 f2 a p,
    length a < f1 -> length a < f2 ->
    sub_loop fl r repl f1 p a = sub_loop fl r repl f2 p a.
Proof.
  induction f1 as [|f1 IH]; intros [|f2] a p H1 H2; try lia.
  cbn [sub_loop].
  destruct (search_from fl r p a) as [[sk st]|] eqn:Es; [|reflexivity].
  pose proof (search_from_bound _ _ _ Es) as Hb.
  destruct (_ <? _) eqn:El.
  - apply Nat.ltb_lt in El. do 2 f_equal. apply IH; lia.
  - destruct (rest st) as [|c after'] eqn:Er; [reflexivity|].
    simpl in Hb. do 3 f_equal. apply IH; lia.
Qed.

Lemma step_agree p k1 k2 s1 s2 :
  respects k1 k2 -> agree s1 s2 -> same (step p k1 s1) (step p k2 s2).
Proof.
  intros Hk [Hr Hc]. unfold step. rewrite Hr, Hc.
  destruct (rest s2) as [|x a]; [exact I|].
  destruct (p x); [|exact I]. apply Hk. now split.
Qed.

Lemma orelse_same (a1 a2 b1 b2 : option mstate) :
  same a1 a2 -> same b1 b2 ->
  same (match a1 with Some x => Some x | None => b1 end)
       (match a2 with Some x => Some x | None => b2 end).
Proof. destruct a1, a2; simpl; tauto. Qed.

Lemma star_loop_agree greedy body1 body2 k1 k2 :
  (forall k1' k2' s1 s2, respects k1' k2' -> agree s1 s2 ->
     same (body1 k1' s1) (body2 k2' s2)) ->
  respects k1 k2 ->
  forall n s1 s2, agree s1 s2 ->
    same (star_loop greedy body1 k1 n s1) (star_loop greedy body2 k2 n s2).
Proof.
  intros Hbody Hk. induction n as [|n IH]; intros s1 s2 Ha; simpl.
  - now apply Hk.
  - assert (Hmore :
      same (body1 (fun st' => if length (rest st') <? length (rest s1)
                              then star_loop greedy body1 k1 n st' else None) s1)
           (body2 (fun st' => if length (rest st') <? length (rest s2)
                              then star_loop greedy body2 k2 n st' else None) s2)).
    { apply Hbody; [|exact Ha]. intros t1 t2 Ht.
      destruct Ha as [Hr _]. destruct Ht as [Hr' Hc']. rewrite Hr, Hr'.
      destruct (_ <? _); [|exact I]. apply IH. now split. }
    destruct greedy; apply orelse_same; auto.
Qed.

(** A pattern without [^] does not look at the previous character. *)
Lemma rmatch_agree (r : regex) :
  anchor_free r = true ->
  forall k1 k2 s1 s2, respects k1 k2 -> agree s1 s2 ->
    same (rmatch fl r k1 s1) (rmatch fl r k2 s2).
Proof.
  induction r; intros Hf k1 k2 s1 s2 Hk Ha; simpl in *;
    try (apply andb_true_iff in Hf as [Hf1 Hf2]).
  - now apply Hk.
  - now apply step_agree.
  - now apply step_agree.
  - now apply step_agree.
  - apply IHr1; [assumption| |assumption].
    intros t1 t2 Ht. now apply IHr2.
  - apply orelse_same; [now apply IHr1 | now apply IHr2].
  - destruct Ha as [Hr Hc]. rewrite Hr.
    apply star_loop_agree; [|assumption|now split].
    intros k1' k2' t1 t2 Hk' Ht. now apply IHr.
  - apply IHr; [assumption| |assumption].
    intros t1 t2 [Hr' Hc']. apply Hk. destruct Ha as [Hr Hc].
    unfold set_cap, consumed, agree. simpl. now rewrite Hr, Hr', Hc'.
  - discriminate.
  - destruct Ha as [Hr Hc]. unfold at_eol. rewrite Hr.
    destruct (match rest s2 with [] => true | c :: a => _ end);
      [apply Hk; now split | exact I].
Qed.

Lemma search_from_agree r a p1 p2 :
  anchor_free r = true ->
  match search_from fl r p1 a, search_from fl r p2 a with
  | Some (sk1, s1), Some (sk2, s2) => sk1 = sk2 /\ agree s1 s2
  | None, None => True
  | _, _ => False
  end.
Proof.
  intros Hf.
  assert (Hm : same (match_here fl r p1 a) (match_here fl r p2 a)).
  { unfold match_here. apply rmatch_agree; [exact Hf| |now split].
    intros t1 t2 Ht. exact Ht. }
  destruct a as [|c a]; cbn [search_from];
    destruct (match_here fl r p1 _) as [x1|], (match_here fl r p2 _) as [x2|];
    simpl in Hm; try contradiction; auto.
  destruct (search_from fl r (Some c) a) as [[sk st]|]; [|exact I].
  split; [reflexivity | now split].
Qed.

Lemma sub_loop_agree r repl :
  anchor_free r = true ->
  (forall s1 s2, caps s1 = caps s2 -> repl s1 = repl s2) ->
  forall fuel a p1 p2,
    sub_loop fl r repl fuel p1 a = sub_loop fl r repl fuel p2 a.
Proof.
  intros Hf Hrepl. induction fuel as [|fuel IH]; intros a p1 p2;
    [reflexivity|]. cbn [sub_loop].
  pose proof (search_from_agree r a p1 p2 Hf) as Hs.
  destruct (search_from fl r p1 a) as [[sk1 s1]|],
           (search_from fl r p2 a) as [[sk2 s2]|]; try contradiction;
    [|reflexivity].
  destruct Hs as [-> [Hr Hc]]. rewrite Hr, (Hrepl _ _ Hc).
  destruct (_ <? _).
  - do 2 f_equal. apply IH.
  - reflexivity.
Qed.

(** The matches of [re.sub] in a text whose first match is known: the
    text before it is copied, the match replaced, and the substitution
    goes on after it. *)
Lemma sub_first_match r repl (pre m post : str) (res : mstate) :
  anchor_free r = true ->
  (forall s1 s2, caps s1 = caps s2 -> repl s1 = repl s2) ->
  m <> [] ->
  (forall b q, suffix b pre -> b <> [] ->
     match_here fl r q (b ++ m ++ post) = None) ->
  (forall q, match_here fl r q (m ++ post) = Some res) ->
  rest res = post ->
  sub fl r repl (pre ++ m ++ post) = pre ++ repl res ++ sub fl r repl post.
Proof.
  intros Hf Hrepl Hne Hskip Hm Hrest.
  assert (Hsearch : forall p,
            search_from fl r p (pre ++ m ++ post) = Some (pre, res)).
  { clear Hrepl. induction pre as [|c pre IH]; intros p.
    - simpl app. destruct (m ++ post); cbn [search_from]; now rewrite Hm.
    - simpl app. cbn [search_from].
      pose proof (Hskip (c :: pre) p (suffix_refl _) ltac:(discriminate)) as H0.
      simpl app in H0. rewrite H0.
      rewrite IH; [reflexivity|].
      intros b q Hs Hb. apply Hskip; [now apply suffix_cons | exact Hb]. }
  set (tail := sub fl r repl post).
  unfold sub. cbn [sub_loop]. rewrite Hsearch, Hrest.
  replace (length pre + length post <? length (pre ++ m ++ post)) with true.
  - do 2 f_equal. subst tail. unfold sub.
    rewrite (sub_loop_agree r repl Hf Hrepl _ post (prev res) None).
    apply sub_loop_fuel.
    + rewrite !length_app. destruct m; [contradiction | simpl; lia].
    + lia.
  - symmetry. apply Nat.ltb_lt. rewrite !length_app.
    destruct m; [contradiction | simpl; lia].
Qed.

End SubFacts.

(** No pattern of the program matches the empty text. *)
Lemma program_patterns_consume :
  forallb consumes program_patterns = true.
Proof. reflexivity. Qed.

(** ** Import statements, in context *)




Lemma targets_satisfy_cons ok (x : ascii) (a : str) :
  targets_satisfy ok (x :: a)
  = (negb (Str.startswith (x :: a) "](") || ok (skipn 2 (x :: a)))
    && targets_satisfy ok a.
Proof. reflexivity. Qed.

Lemma targets_satisfy_skip ok (a b : str) :
  without "]" a = true -> targets_satisfy ok (a ++ b) = targets_satisfy ok b.
Proof.
  induction a as [|x a IH]; intros H; [reflexivity|].
  simpl in H. apply andb_true_iff in H as [Hx Ha].
  simpl app. rewrite targets_satisfy_cons, (IH Ha).
  apply negb_true_iff in Hx.
  replace (Str.startswith (x :: a ++ b) "](") with false; [reflexivity|].
  simpl. now rewrite Hx.
Qed.

Lemma targets_satisfy_without ok (a : str) :
  without "]" a = true -> targets_satisfy ok a = true.
Proof.
  intros H. rewrite <- (app_nil_r a). now rewrite targets_satisfy_skip.
Qed.

Lemma contains_without (a : str) :
  without "<" a = true -> Str.contains a "<Image" = false.
Proof.
  induction a as [|x a IH]; intros H; [reflexivity|].
  simpl in H. apply andb_true_iff in H as [Hx Ha]. apply negb_true_iff in Hx.
  cbn [Str.contains]. rewrite (IH Ha), orb_false_r. simpl. now rewrite Hx.
Qed.

Lemma isword_plain (c : ascii) :
  isword c = true ->
  negb (Ascii.eqb c "]") = true /\ negb (Ascii.eqb c "<") = true.
Proof.
  destruct c as [[] [] [] [] [] [] [] []]; vm_compute; intros H;
    first [split; reflexivity | discriminate].
Qed.

Lemma forallb_lstrip (f p : ascii -> bool) (a : str) :
  forallb f a = true -> forallb f (Str.lstrip_by p a) = true.
Proof.
  induction a as [|c a IH]; intros H; [reflexivity|]. simpl.
  destruct (p c); [|exact H].
  simpl in H. apply andb_true_iff in H as [_ H]. now apply IH.
Qed.

Lemma forallb_word_without (c : ascii) (name : str) :
  c = "]"%char \/ c = "<"%char ->
  forallb isword name = true -> without c name = true.
Proof.
  intros Hc H. unfold without. induction name as [|x name IH]; [reflexivity|].
  simpl in *. apply andb_true_iff in H as [Hx H]. rewrite (IH H), andb_true_r.
  destruct (isword_plain _ Hx) as [H1 H2]. now destruct Hc as [-> | ->].
Qed.

(** An image link whose alt text is a word and whose path holds neither
    []] nor [<] is left alone by the two later passes. *)
Lemma image_link_stable (name path : str) :
  forallb isword name = true ->
  without "]" path = true -> without "<" path = true ->
  component_pass (md_pass (image_link name path)) = image_link name path.
Proof.
  intros Hn Hb Hl.
  rewrite md_pass_unchanged.
  - apply component_pass_unchanged, contains_without.
    unfold image_link, without. rewrite !forallb_app.
    fold (without "<" name). fold (without "<" path).
    rewrite Hl, (@forallb_word_without "<" name (or_intror eq_refl) Hn).
    reflexivity.
  - unfold image_link. rewrite app_assoc.
    rewrite targets_satisfy_skip.
    + change ("](" ++ base_url ++ path ++ ")")
        with ("]"%char :: "(" ++ base_url ++ path ++ ")").
      rewrite targets_satisfy_cons. simpl negb. simpl orb.
      apply targets_satisfy_without.
      unfold without. rewrite !forallb_app. fold (without "]" path).
      rewrite Hb. reflexivity.
    + unfold without. rewrite forallb_app. fold (without "]" name).
      rewrite (@forallb_word_without "]" name (or_introl eq_refl) Hn).
      reflexivity.
Qed.

(** The text of an image link, spelled out. *)
Lemma image_link_text (alt path rest : str) :
  image_link alt path ++ rest
  = "![" ++ alt ++ "](https://docs.astro.build/" ++ path ++ ")" ++ rest.
Proof. unfold image_link, base_url. rewrite <- !app_assoc. reflexivity. Qed.




(** ** Targets of the Markdown-image pass *)



(** ** What a match of the Markdown-image pattern reads *)






(** ** What the Markdown-image pass does to a text *)
















(** The same text, run: the two relative images are rewritten, the
    absolute one between them is kept. *)
Lemma absolute_image_between_relative_ones :
  md_pass "![a](x.png) ![b](http://y/z.png) ![c](./w.png)"
  = "![a](https://docs.astro.build/x.png) ![b](http://y/z.png) "
    ++ "![c](https://docs.astro.build/w.png)".
Proof. vm_compute. reflexivity. Qed.


(** ** Relative paths do not depend on the working directory *)

Lemma split_app_sep (sep : ascii) (a b : str) :
  Str.split sep (a ++ sep :: b) = Str.split sep a ++ Str.split sep b.
Proof.
  induction a as [|c a IH]; simpl.
  - now rewrite Ascii.eqb_refl.
  - destruct (Ascii.eqb c sep); [now rewrite IH|].
    rewrite IH. pose proof (split_not_nil sep a) as Hn.
    destruct (Str.split sep a); [contradiction | reflexivity].
Qed.

Lemma split_plain (a : str) :
  plain_name a = true -> Str.split "/" a = [a].
Proof.
  induction a as [|c a IH]; simpl; intros H; [reflexivity|].
  apply andb_true_iff in H as [Hc Ha]. unfold PosixPath.is_sep in Hc.
  apply negb_true_iff in Hc. now rewrite Hc, (IH Ha).
Qed.

Lemma split_comps_plain (a c : str) :
  In c (Str.split "/" a) -> plain_name c = true.
Proof.
  revert c. induction a as [|x a IH]; simpl; intros c H.
  - destruct H as [<-|[]]. reflexivity.
  - destruct (Ascii.eqb x "/") eqn:E.
    + destruct H as [<-|H]; [reflexivity | now apply IH].
    + destruct (Str.split "/" a) as [|f fs]; simpl in H.
      * destruct H as [<-|[]]. simpl. unfold PosixPath.is_sep. now rewrite E.
      * destruct H as [<-|H].
        -- simpl. unfold PosixPath.is_sep. rewrite E. simpl.
           apply IH. now left.
        -- apply IH. now right.
Qed.

Lemma split_join (l : list str) :
  l <> [] -> (forall c, In c l -> plain_name c = true) ->
  Str.split "/" (Str.join "/" l) = l.
Proof.
  induction l as [|p l IH]; intros Hne Hp; [contradiction|].
  destruct l as [|q l].
  - simpl. apply split_plain, Hp. now left.
  - change (Str.join "/" (p :: q :: l)) with (p ++ "/"%char :: Str.join "/" (q :: l)).
    rewrite split_app_sep, IH.
    + rewrite split_plain; [reflexivity|]. apply Hp. now left.
    + discriminate.
    + intros c Hc. apply Hp. now right.
Qed.

Lemma split_leading_slashes (n : nat) (a : str) :
  filter PosixPath.nonempty (Str.split "/" (Str.repeat "/" n ++ a))
  = filter PosixPath.nonempty (Str.split "/" a).
Proof.
  induction n as [|n IH]; [reflexivity|]. simpl. exact IH.
Qed.

Lemma filter_all (A : Type) (f : A -> bool) (l : list A) :
  (forall x, In x l -> f x = true) -> filter f l = l.
Proof.
  induction l as [|x l IH]; intros H; simpl; [reflexivity|].
  rewrite (H x (or_introl eq_refl)), IH; [reflexivity|].
  intros y Hy. apply H. now right.
Qed.

Lemma norm_comps_app (i : nat) (x y acc : list str) :
  PosixPath.norm_comps i (x ++ y) acc
  = PosixPath.norm_comps i y (PosixPath.norm_comps i x acc).
Proof.
  revert acc. induction x as [|c x IH]; intros acc; simpl; [reflexivity|].
  destruct (Str.eqb c [] || _); [apply IH|].
  destruct (negb _ || _ || _); apply IH.
Qed.

Lemma norm_comps_simple (i : nat) (l acc : list str) :
  forallb simple_comp l = true -> PosixPath.norm_comps i l acc = acc ++ l.
Proof.
  revert acc. induction l as [|c l IH]; intros acc H; cbn [PosixPath.norm_comps].
  - now rewrite app_nil_r.
  - simpl in H. apply andb_true_iff in H as [Hc Hl].
    unfold simple_comp in Hc.
    apply andb_true_iff in Hc as [Hc H2]. apply andb_true_iff in Hc as [H0 H1].
    assert (E0 : Str.eqb c [] = false) by (destruct c; [discriminate | reflexivity]).
    apply negb_true_iff in H1. rewrite E0, H1, H2. simpl.
    rewrite (IH _ Hl), <- app_assoc. reflexivity.
Qed.

Lemma In_removelast (A : Type) (l : list A) (x : A) :
  In x (removelast l) -> In x l.
Proof.
  induction l as [|a l IH]; simpl; [tauto|].
  destruct l as [|b l]; [contradiction|].
  intros [H|H]; [now left | right; now apply IH].
Qed.

Lemma norm_comps_In (i : nat) (l : list str) :
  forall acc c,
    In c (PosixPath.norm_comps i l acc) ->
    In c acc \/ (In c l /\ PosixPath.nonempty c = true).
Proof.
  induction l as [|x l IH]; intros acc c H; simpl in H; [now left|].
  destruct (Str.eqb x [] || _) eqn:E.
  - destruct (IH _ _ H) as [H'|[H' Hn]]; [now left|].
    right. split; [now right | exact Hn].
  - apply orb_false_iff in E as [E0 _].
    assert (Hx : PosixPath.nonempty x = true).
    { destruct x; [discriminate E0 | reflexivity]. }
    destruct (negb _ || _ || _).
    + destruct (IH _ _ H) as [H'|[H' Hn]].
      * apply in_app_or in H' as [H'|[<-|[]]]; [now left|].
        right. split; [now left | exact Hx].
      * right. split; [now right | exact Hn].
    + destruct (IH _ _ H) as [H'|[H' Hn]].
      * left. now apply In_removelast.
      * right. split; [now right | exact Hn].
Qed.

Lemma commonprefix_app (c a b : list str) :
  PosixPath.commonprefix (c ++ a) (c ++ b) = c ++ PosixPath.commonprefix a b.
Proof.
  induction c as [|x c IH]; simpl; [reflexivity|].
  now rewrite Str_eqb_refl, IH.
Qed.

Lemma simple_path_head (p : str) :
  simple_path p = true ->
  exists c p', p = c :: p' /\ Ascii.eqb c "/" = false.
Proof.
  unfold simple_path. destruct p as [|c p]; [discriminate|].
  simpl. destruct (Ascii.eqb c "/") eqn:E; [discriminate|].
  intros _. now exists c, p.
Qed.

Lemma initial_slashes_app (b : str) (c d : ascii) (p q : str) :
  b <> [] -> Ascii.eqb c "/" = false -> Ascii.eqb d "/" = false ->
  PosixPath.initial_slashes (b ++ c :: p) = PosixPath.initial_slashes (b ++ d :: q).
Proof.
  intros Hb Hc Hd. unfold PosixPath.initial_slashes.
  destruct b as [|b1 [|b2 [|b3 b]]]; [contradiction|..]; simpl;
    rewrite ?Hc, ?Hd, ?andb_false_r; reflexivity.
Qed.

(** What [join] makes of a working directory and a simple path. *)
Lemma join_cwd (cwd : str) :
  exists (X : list str) (i0 : nat),
    (forall c, In c X -> plain_name c = true)
    /\ forall p, simple_path p = true ->
         Str.split "/" (PosixPath.join cwd p) = X ++ Str.split "/" p
         /\ PosixPath.initial_slashes (PosixPath.join cwd p) = i0
         /\ PosixPath.join cwd p <> [].
Proof.
  destruct cwd as [|c0 cwd].
  - exists [], 0. split; [intros c []|]. intros p Hp.
    destruct (simple_path_head _ Hp) as [c [p' [-> Hc]]].
    unfold PosixPath.join. simpl Str.startswith. rewrite Hc. simpl.
    repeat split; [|discriminate].
    unfold PosixPath.initial_slashes. simpl. now rewrite Hc.
  - set (w := c0 :: cwd).
    assert (Hb : exists b, b ++ ["/"%char] <> [] /\
                   forall p, simple_path p = true ->
                     PosixPath.join w p = (b ++ ["/"%char]) ++ p).
    { destruct (Str.endswith w "/") eqn:E.
      - destruct (endswith_sep _ E) as [a' Ha']. exists a'. split.
        + destruct a'; discriminate.
        + intros p Hp. destruct (simple_path_head _ Hp) as [c [p' [-> Hc]]].
          unfold PosixPath.join. simpl Str.startswith. rewrite Hc.
          unfold w in *. rewrite E. now rewrite Ha'.
      - exists w. split.
        + destruct w; discriminate.
        + intros p Hp. destruct (simple_path_head _ Hp) as [c [p' [-> Hc]]].
          unfold PosixPath.join. simpl Str.startswith. rewrite Hc.
          unfold w in *. rewrite E. now rewrite <- app_assoc. }
    destruct Hb as [b [Hne Hj]].
    exists (Str.split "/" b), (PosixPath.initial_slashes ((b ++ ["/"%char]) ++ "x")).
    split; [intros c Hc; eapply split_comps_plain; exact Hc|].
    intros p Hp. rewrite (Hj p Hp).
    destruct (simple_path_head _ Hp) as [c [p' [-> Hc]]].
    repeat split.
    + rewrite <- app_assoc. simpl. apply split_app_sep.
    + now apply initial_slashes_app.
    + destruct b; discriminate.
Qed.

(** The components of the absolute path of a simple path: those of the
    working directory, then its own. *)
Lemma abspath_simple (cwd : str) :
  exists C : list str, forall p,
    simple_path p = true ->
    filter PosixPath.nonempty (Str.split "/" (PosixPath.abspath cwd p))
    = C ++ Str.split "/" p.
Proof.
  destruct (join_cwd cwd) as [X [i0 [HX Hj]]].
  exists (PosixPath.norm_comps i0 X []). intros p Hp.
  destruct (Hj p Hp) as [Hs [Hi Hne]].
  destruct (simple_path_head _ Hp) as [c [p' [Ep Hc]]].
  unfold PosixPath.abspath, PosixPath.isabs.
  replace (Str.startswith p "/") with false
    by (rewrite Ep; simpl; now rewrite Hc).
  unfold PosixPath.normpath.
  destruct (PosixPath.join cwd p) as [|j0 j] eqn:Ej; [contradiction|].
  rewrite Hi, Hs, norm_comps_app, norm_comps_simple by exact Hp.
  set (C := PosixPath.norm_comps i0 X []).
  assert (Hplain : forall x, In x (C ++ Str.split "/" p) -> plain_name x = true).
  { intros x Hx. apply in_app_or in Hx as [Hx|Hx].
    - apply norm_comps_In in Hx as [[]|[Hx _]]. now apply HX.
    - eapply split_comps_plain. exact Hx. }
  assert (Hfull : forall x, In x (C ++ Str.split "/" p) -> PosixPath.nonempty x = true).
  { intros x Hx. apply in_app_or in Hx as [Hx|Hx].
    - apply norm_comps_In in Hx as [[]|[_ Hx]]. exact Hx.
    - unfold simple_path in Hp. rewrite forallb_forall in Hp.
      specialize (Hp x Hx). unfold simple_comp in Hp.
      apply andb_true_iff in Hp as [Hp _]. apply andb_true_iff in Hp as [Hp _].
      exact Hp. }
  assert (Hl : C ++ Str.split "/" p <> []).
  { pose proof (split_not_nil "/" p). destruct C; [assumption | discriminate]. }
  assert (Hgoal : filter PosixPath.nonempty
                    (Str.split "/" (Str.repeat "/" i0 ++ Str.join "/" (C ++ Str.split "/" p)))
                  = C ++ Str.split "/" p).
  { rewrite split_leading_slashes, split_join by assumption.
    now apply filter_all. }
  destruct (Str.repeat "/" i0 ++ Str.join "/" (C ++ Str.split "/" p)) eqn:E;
    [|exact Hgoal].
  simpl in Hgoal. destruct (C ++ Str.split "/" p); [contradiction | discriminate].
Qed.

(** For simple paths [relpath] is a function of the two paths alone. *)
Lemma relpath_simple (cwd path start : str) :
  simple_path path = true -> simple_path start = true ->
  PosixPath.relpath cwd path start
  = Some (rel_of (Str.split "/" path) (Str.split "/" start)).
Proof.
  intros Hp Hs. destruct (abspath_simple cwd) as [C HC].
  unfold PosixPath.relpath.
  destruct (simple_path_head _ Hp) as [c [p' [Ep _]]].
  rewrite Ep at 1. rewrite (HC _ Hp), (HC _ Hs).
  rewrite commonprefix_app, !length_app.
  set (i := length (PosixPath.commonprefix (Str.split "/" start) (Str.split "/" path))).
  replace (length C + length (Str.split "/" start) - (length C + i))
    with (length (Str.split "/" start) - i) by lia.
  rewrite skipn_app, skipn_all2 by lia.
  replace (length C + i - length C) with i by lia.
  unfold rel_of. fold i. simpl app.
  destruct (List.repeat _ _ ++ skipn i _); reflexivity.
Qed.

Lemma toc_depth_simple (cwd file_path repo_dir docs_dir : str) :
  simple_path file_path = true ->
  simple_path (PosixPath.join repo_dir docs_dir) = true ->
  toc_depth cwd file_path repo_dir docs_dir
  = Some (rel_depth file_path (PosixPath.join repo_dir docs_dir)).
Proof.
  intros Hf Hs. unfold toc_depth, rel_depth.
  rewrite (relpath_simple cwd _ _ Hf Hs).
  now destruct (_ && _).
Qed.

Section ScenarioFacts.

Variable yaml_safe_load : str -> option dict.
Variable markdown_markdown : str -> option str.
Variable str_title : str -> str.
Variable cwd : str.

Lemma scenario_emit_depths :
  emit_depths yaml_safe_load Scenario.read_file cwd [] "docs" Scenario.files
  = [0; 0; 1].
Proof.
  unfold Scenario.files, emit_depths, emit_depth.
  destruct (@load_document_title yaml_safe_load Scenario.read_file
              "docs/index.md" (Scenario.document "Intro" "Welcome.")
              "title: Intro" "Welcome.") as [d1 ->];
    [reflexivity | vm_compute; reflexivity | discriminate
    | vm_compute; discriminate |].
  destruct (@load_document_title yaml_safe_load Scenario.read_file
              "docs/guide/index.md" (Scenario.document "Guide" "Read on.")
              "title: Guide" "Read on.") as [d2 ->];
    [reflexivity | vm_compute; reflexivity | discriminate
    | vm_compute; discriminate |].
  destruct (@load_document_title yaml_safe_load Scenario.read_file
              "docs/guide/setup.md" (Scenario.document "Setup" "Install it.")
              "title: Setup" "Install it.") as [d3 ->];
    [reflexivity | vm_compute; reflexivity | discriminate
    | vm_compute; discriminate |].
  rewrite !toc_depth_simple by reflexivity. reflexivity.
Qed.

End ScenarioFacts.

(** C1, counterexample: run on the three documents, the program numbers
    them [1], [2] and [2.1], not [1], [1.1] and [1.1.1]. *)
Lemma scenario_numbering_is_not_nested :
  let st := process_loop Scenario.yaml_safe_load Scenario.markdown_markdown
              Scenario.read_file Scenario.cwd Scenario.str_title
              Scenario.files [] "docs" in
  get_files_sorted "docs" Scenario.docs_tree = Some Scenario.files
  /\ map toc_numbering (toc st) = ["1" : str; "2" : str; "2.1" : str]
  /\ map toc_numbering (toc st) <> ["1" : str; "1.1" : str; "1.1.1" : str].
Proof. vm_compute. repeat split; discriminate. Qed.

(** C1, as amended: the three documents are discovered in the order
    [index.md], [guide/index.md], [guide/setup.md] and numbered [1], [2]
    and [2.1]: [guide/index.md] is counted at depth 0, one level shallower
    than its path, so it takes the next top-level number, and [setup.md]
    at depth 1 below it.  This holds whatever the YAML parser and the
    Markdown renderer return, and in every working directory. *)
Theorem scenario_discovery_and_numbering
    (yaml_safe_load : str -> option dict)
    (markdown_markdown : str -> option str) (str_title : str -> str)
    (cwd : str) :
  let st := process_loop yaml_safe_load markdown_markdown
              Scenario.read_file cwd str_title
              Scenario.files [] "docs" in
  get_files_sorted "docs" Scenario.docs_tree = Some Scenario.files
  /\ map toc_numbering (toc st) = ["1" : str; "2" : str; "2.1" : str]
  /\ map entry_depth (toc st) = [0; 0; 1]
  /\ toc_depth cwd "docs/guide/index.md" [] "docs" = Some 0
  /\ PosixPath.relpath cwd "docs/guide/index.md" "docs"
     = Some ("guide/index.md" : str).
Proof.
  intros st. split; [vm_compute; reflexivity|].
  assert (Hn : map entry_numbering (toc st) = [[1]; [2]; [2; 1]]).
  { subst st. rewrite process_loop_toc, scenario_emit_depths. reflexivity. }
  split; [|split; [|split]].
  - unfold toc_numbering. rewrite <- map_map, Hn. reflexivity.
  - subst st. rewrite process_loop_depths. apply scenario_emit_depths.
  - now rewrite toc_depth_simple by reflexivity.
  - now rewrite relpath_simple by reflexivity.
Qed.

(** C5: when the last file of the list is dropped for lacking frontmatter,
    the assembled pages end with a page-break marker: the marker follows
    the final emitted page. *)
Theorem page_break_after_final_page_when_tail_dropped
    (yaml_safe_load : str -> option dict)
    (markdown_markdown : str -> option str) (str_title : str -> str)
    (cwd body : str) :
  markdown_markdown "Text." = Some body ->
  let st := process_loop yaml_safe_load markdown_markdown
              TailDrop.read_file cwd str_title
              TailDrop.files [] "docs" in
  exists page,
    html_all_pages_content st = [page; page_break]
    /\ page <> page_break
    /\ map toc_numbering (toc st) = ["1" : str].
Proof.
  intros Hmd st. subst st. unfold process_loop, TailDrop.files.
  cbn [process_from].
  destruct (@load_document_title yaml_safe_load TailDrop.read_file
              "docs/a.md" (Scenario.document "A" "Text.")
              "title: A" "Text.") as [data Hload];
    [reflexivity | vm_compute; reflexivity | discriminate
    | vm_compute; discriminate |].
  destruct (@process_file_page yaml_safe_load markdown_markdown
              TailDrop.read_file cwd str_title
              ["docs/a.md" : str; "docs/b.md" : str] [] "docs" initial_state 0
              "docs/a.md" data "Text." 0
              (fun e =>
                 Str.join [nl]
                   ((["<h1 id='" ++ toc_full_title e ++ "'>" ++ toc_full_title e
                      ++ "</h1>";
                      chars "<div class='doc-path'><p>Documentation path: a.md</p></div>"]
                     ++ match dict_get data "description" with
                        | Some description =>
                            ["<p><strong>Description:</strong> " ++ description
                             ++ "</p>"; chars "<br/>"]
                        | None => []
                        end) ++ [body])))
    as [e [He1 [He2 Hstep]]].
  - exact Hload.
  - now rewrite toc_depth_simple by reflexivity.
  - intros e0 _. unfold html_page.
    replace (PosixPath.relative_to "docs/a.md" [] "docs") with (Some ("a.md" : str))
      by (vm_compute; reflexivity).
    rewrite Hmd. destruct (dict_get data "description"); [reflexivity|].
    now rewrite app_nil_r.
  - rewrite Hstep. rewrite process_file_skip.
    + eexists. simpl. split; [reflexivity|]. split.
      * destruct (dict_get data "description"); discriminate.
      * unfold toc_numbering. rewrite He2. reflexivity.
    + unfold load_document. simpl. reflexivity.
Qed.

Lemma page_break_after_final_page_when_tail_dropped_witness :
  exists page,
    html_all_pages_content
      (process_loop Scenario.yaml_safe_load Scenario.markdown_markdown
         TailDrop.read_file Scenario.cwd Scenario.str_title
         TailDrop.files [] "docs")
    = [page; page_break].
Proof.
  destruct (@page_break_after_final_page_when_tail_dropped
              Scenario.yaml_safe_load Scenario.markdown_markdown
              Scenario.str_title Scenario.cwd "<p>Text.</p>" eq_refl)
    as [page [H _]].
  exists page. exact H.
Defined.

(** ** Relative images the pass misses *)

Lemma md_pass_keeps_h_t_p (alt : str) (c : ascii) (path : str) :
  Str.mem c "http" = true ->
  without "]" alt = true -> without "]" path = true ->
  md_pass ("![" ++ alt ++ "](" ++ c :: path ++ ")")
  = "![" ++ alt ++ "](" ++ c :: path ++ ")".
Proof.
  intros Hc Ha Hp. apply md_pass_unchanged.
  rewrite app_assoc, targets_satisfy_skip.
  - change ("](" ++ c :: path ++ ")") with ("]"%char :: "(" ++ c :: path ++ ")").
    rewrite targets_satisfy_cons.
    change (skipn 2 ("]"%char :: "(" ++ c :: path ++ ")")) with (c :: path ++ ")").
    cbn [starts_with_h_t_p]. rewrite Hc, orb_true_r.
    apply targets_satisfy_without.
    unfold without in *. simpl. rewrite forallb_app, Hp. simpl.
    destruct (Ascii.eqb_spec c "]") as [->|]; [discriminate Hc | reflexivity].
  - unfold without in *. simpl. exact Ha.
Qed.

(** C2: a relative image path whose first character is [p], [t] or [h] is
    not rewritten, while one starting with any other character is; the
    Markdown-image pass keeps every reference [![alt](path)] whose path
    starts with one of the three letters (alt and path without []]). *)
Theorem relative_image_starting_with_h_t_p_is_kept :
  process_image_paths "![a](pic.png)" = "![a](pic.png)"
  /\ process_image_paths "![a](tutorial/x.png)" = "![a](tutorial/x.png)"
  /\ process_image_paths "![a](./hero.png)"
     = "![a](https://docs.astro.build/hero.png)"
  /\ process_image_paths "![a](hero.png)" = "![a](hero.png)"
  /\ process_image_paths "![a](img.png)" = "![a](https://docs.astro.build/img.png)"
  /\ forall alt c path,
       Str.mem c "http" = true ->
       without "]" alt = true -> without "]" path = true ->
       md_pass ("![" ++ alt ++ "](" ++ c :: path ++ ")")
       = "![" ++ alt ++ "](" ++ c :: path ++ ")".
Proof.
  do 5 (split; [vm_compute; reflexivity|]).
  exact md_pass_keeps_h_t_p.
Qed.

Lemma relative_image_starting_with_h_t_p_is_kept_witness :
  md_pass "![a logo](pictures/logo.png)" = "![a logo](pictures/logo.png)".
Proof.
  refine (proj2 (proj2 (proj2 (proj2 (proj2
            relative_image_starting_with_h_t_p_is_kept))))
            "a logo" "p"%char "ictures/logo.png" _ _ _); reflexivity.
Defined.

(** ** Pages, markers and entries of a run *)

Section PageFacts.

Variable yaml_safe_load : str -> option dict.
Variable markdown_markdown : str -> option str.
Variable read_file : str -> option str.
Variable styles_css : option str.
Variable cwd : str.
Variable str_title : str -> str.

Local Abbreviation step_file :=
  (process_file yaml_safe_load markdown_markdown read_file cwd str_title).
Local Abbreviation run_from :=
  (process_from yaml_safe_load markdown_markdown read_file cwd str_title).
Local Abbreviation run :=
  (process_loop yaml_safe_load markdown_markdown read_file cwd str_title).
Local Abbreviation has_page :=
  (yields_page yaml_safe_load markdown_markdown read_file cwd).

Lemma html_page_not_marker e data body file_path repo_dir docs_dir page :
  html_page markdown_markdown e data body file_path repo_dir docs_dir = Some page ->
  page <> page_break.
Proof.
  unfold html_page.
  destruct (PosixPath.relative_to _ _ _); [|discriminate].
  destruct (markdown_markdown body); [|discriminate].
  intros H. injection H as <-.
  destruct (dict_get _ _); intros Hq;
    apply (f_equal (firstn 2)) in Hq; vm_compute in Hq; discriminate Hq.
Qed.

Lemma html_page_some e e' data body file_path repo_dir docs_dir :
  html_page markdown_markdown e data body file_path repo_dir docs_dir = None ->
  html_page markdown_markdown e' data body file_path repo_dir docs_dir = None.
Proof.
  unfold html_page.
  destruct (PosixPath.relative_to _ _ _); [|reflexivity].
  destruct (markdown_markdown body); [discriminate | reflexivity].
Qed.

Lemma process_file_pages files repo_dir docs_dir st index file_path :
  if has_page repo_dir docs_dir file_path
  then exists page,
         page <> page_break
         /\ html_all_pages_content
              (step_file files repo_dir docs_dir st index file_path)
            = html_all_pages_content st
              ++ page_block (page, index <? length files - 1)
  else html_all_pages_content
         (step_file files repo_dir docs_dir st index file_path)
       = html_all_pages_content st.
Proof.
  unfold yields_page, process_file.
  destruct (load_document _ _ _) as [[data body]|]; [|reflexivity].
  destruct (toc_depth _ _ _ _) as [d|]; [|reflexivity].
  cbv zeta.
  destruct (html_page _ _ _ _ _ _ _) as [page|] eqn:Ep.
  - pose proof (html_page_not_marker _ _ _ _ _ _ Ep) as Hne.
    unfold html_page in Ep.
    destruct (PosixPath.relative_to _ _ _); [|discriminate].
    destruct (markdown_markdown body); [|discriminate].
    exists page. split; [exact Hne|]. reflexivity.
  - unfold html_page in Ep.
    destruct (PosixPath.relative_to _ _ _); [|reflexivity].
    destruct (markdown_markdown body); [discriminate | reflexivity].
Qed.

Lemma has_page_emitted repo_dir docs_dir file_path :
  has_page repo_dir docs_dir file_path = true ->
  emit_depth yaml_safe_load read_file cwd repo_dir docs_dir file_path <> None.
Proof.
  unfold yields_page, emit_depth.
  destruct (load_document _ _ _) as [[data body]|]; [|discriminate].
  destruct (toc_depth _ _ _ _); [discriminate | discriminate].
Qed.

Lemma pages_le_entries repo_dir docs_dir files :
  length (filter (has_page repo_dir docs_dir) files)
  <= length (emit_depths yaml_safe_load read_file cwd repo_dir docs_dir files).
Proof.
  induction files as [|f files IH]; simpl; [lia|].
  destruct (has_page repo_dir docs_dir f) eqn:E.
  - apply has_page_emitted in E.
    destruct (emit_depth _ _ _ _ _ f); [simpl; lia | contradiction].
  - destruct (emit_depth _ _ _ _ _ f); simpl; lia.
Qed.

Lemma process_from_pages files repo_dir docs_dir todo :
  forall st index,
    exists blocks,
      html_all_pages_content (run_from files repo_dir docs_dir st index todo)
      = html_all_pages_content st ++ flat_map page_block blocks
      /\ Forall (fun b => fst b <> page_break) blocks
      /\ length blocks = length (filter (has_page repo_dir docs_dir) todo).
Proof.
  induction todo as [|f todo IH]; intros st index.
  - exists []. simpl. rewrite app_nil_r. auto.
  - cbn [process_from].
    destruct (IH (step_file files repo_dir docs_dir st index f) (S index))
      as [blocks [Hp [Hb Hl]]].
    pose proof (process_file_pages files repo_dir docs_dir st index f) as Hf.
    cbn [filter]. destruct (has_page repo_dir docs_dir f).
    + destruct Hf as [page [Hne Hf]].
      exists ((page, index <? length files - 1) :: blocks).
      rewrite Hp, Hf, <- app_assoc. simpl flat_map.
      split; [reflexivity|]. split; [now constructor | simpl; now rewrite Hl].
    + exists blocks. rewrite Hp, Hf. auto.
Qed.

(** X1: the pages of a run are a sequence of blocks, each a page followed
    by at most one marker: no marker comes first and no two markers are
    adjacent; there is one block per document that reaches the end of the
    loop body, and never more blocks than entries in the table of
    contents. *)
Theorem pages_are_blocks (files : list str) (repo_dir docs_dir : str) :
  exists blocks,
    html_all_pages_content (run files repo_dir docs_dir)
    = flat_map page_block blocks
    /\ Forall (fun b => fst b <> page_break) blocks
    /\ length blocks = length (filter (has_page repo_dir docs_dir) files)
    /\ length blocks <= length (toc (run files repo_dir docs_dir)).
Proof.
  destruct (process_from_pages files repo_dir docs_dir files initial_state 0)
    as [blocks [Hp [Hb Hl]]].
  exists blocks. repeat split; try assumption.
  rewrite Hl, <- (length_map entry_depth).
  rewrite process_loop_depths. apply pages_le_entries.
Qed.

(** X2: a document that is loaded but whose page cannot be built (the
    Markdown renderer or [relative_to] raises) still gets its entry in the
    table of contents and still advances the counters, and leaves no
    page. *)
Theorem entry_without_page
    (files : list str) (repo_dir docs_dir : str) (st : loop_state)
    (index : nat) (file_path : str) (d : nat) :
  emit_depth yaml_safe_load read_file cwd repo_dir docs_dir file_path = Some d ->
  has_page repo_dir docs_dir file_path = false ->
  let st' := step_file files repo_dir docs_dir st index file_path in
  html_all_pages_content st' = html_all_pages_content st
  /\ numbering st' = bump d (numbering st)
  /\ exists title,
       toc st' = toc st ++ [{| entry_depth := d;
                               entry_numbering := firstn (d + 1) (bump d (numbering st));
                               entry_title := title |}].
Proof.
  intros Hd Hp st'. subst st'. split; [|split].
  - pose proof (process_file_pages files repo_dir docs_dir st index file_path) as H.
    now rewrite Hp in H.
  - now rewrite process_file_numbering, Hd.
  - revert Hd Hp.
    unfold yields_page, emit_depth, process_file.
    destruct (load_document _ _ _) as [[data body]|]; [|discriminate].
    intros Hd. rewrite Hd. intros Hp. cbv zeta.
    destruct (html_page _ _ _ _ _ _ _) as [page|] eqn:Ep.
    + unfold html_page in Ep.
      destruct (PosixPath.relative_to _ _ _); [|discriminate].
      destruct (markdown_markdown body); discriminate.
    + eexists. reflexivity.
Qed.

Lemma loop_pages_nil (files : list str) (repo_dir docs_dir : str) :
  html_all_pages_content (run files repo_dir docs_dir) = []
  <-> forallb (fun f => negb (has_page repo_dir docs_dir f)) files = true.
Proof.
  destruct (process_from_pages files repo_dir docs_dir files initial_state 0)
    as [blocks [Hp [_ Hl]]].
  fold (run files repo_dir docs_dir) in Hp. simpl in Hp.
  rewrite Hp. split.
  - intros H. destruct blocks as [|b blocks]; [|discriminate].
    simpl in Hl. clear -Hl. induction files as [|f files IH]; [reflexivity|].
    simpl in *. destruct (has_page repo_dir docs_dir f); [discriminate|].
    now apply IH.
  - intros H. destruct blocks as [|b blocks]; [reflexivity|]. exfalso.
    simpl in Hl. clear -Hl H. induction files as [|f files IH]; [discriminate|].
    simpl in *. destruct (has_page repo_dir docs_dir f); [discriminate|].
    now apply IH.
Qed.

(** X3: [process_files] raises exactly when the stylesheet cannot be read
    or no document reaches the end of the loop body; otherwise it returns
    the header, the table of contents, the pages joined by newlines and the
    closing tags. *)
Theorem process_files_fails_iff (files : list str) (repo_dir docs_dir : str) :
  (process_files yaml_safe_load markdown_markdown read_file styles_css cwd
     str_title files repo_dir docs_dir = None
   <-> styles_css = None
       \/ forallb (fun f => negb (has_page repo_dir docs_dir f)) files = true)
  /\ forall html,
       process_files yaml_safe_load markdown_markdown read_file styles_css cwd
         str_title files repo_dir docs_dir = Some html ->
       exists css_content,
         styles_css = Some css_content
         /\ html = html_header css_content
                   ++ toc_html (toc (run files repo_dir docs_dir))
                   ++ Str.join [nl] (html_all_pages_content (run files repo_dir docs_dir))
                   ++ "</body></html>".
Proof.
  pose proof (loop_pages_nil files repo_dir docs_dir) as Hnil.
  unfold process_files. split.
  - destruct styles_css as [css|]; [|split; auto].
    destruct (html_all_pages_content (run files repo_dir docs_dir)) eqn:E.
    + split; [intros _; right; now apply Hnil | reflexivity].
    + split; [discriminate|]. intros [H|H]; [discriminate|].
      apply Hnil in H. discriminate.
  - intros html. destruct styles_css as [css|]; [|discriminate].
    destruct (html_all_pages_content (run files repo_dir docs_dir)) eqn:E;
      [discriminate|].
    intros H. injection H as <-. exists css. split; reflexivity.
Qed.

Lemma nth_firstn_lt (A : Type) (l : list A) (i k : nat) (d : A) :
  i < k -> nth i (firstn k l) d = nth i l d.
Proof.
  revert i k. induction l as [|x l IH]; intros i k H.
  - now rewrite firstn_nil.
  - destruct k; [lia|]. destruct i; [reflexivity|]. simpl. apply IH. lia.
Qed.

Lemma emitted_entry_ok (d : nat) (n : list nat) (title : str) :
  entry_ok {| entry_depth := d; entry_numbering := firstn (d + 1) (bump d n);
              entry_title := title |}.
Proof.
  unfold entry_ok. simpl. split.
  - rewrite length_firstn. pose proof (length_bump d n). lia.
  - rewrite nth_firstn_lt by lia. rewrite bump_increments. lia.
Qed.

Lemma process_file_entries files repo_dir docs_dir st index file_path :
  Forall entry_ok (toc st) ->
  Forall entry_ok (toc (step_file files repo_dir docs_dir st index file_path)).
Proof.
  intros H. unfold process_file.
  destruct (load_document _ _ _) as [[data body]|]; [|exact H].
  destruct (toc_depth _ _ _ _) as [d|]; [|exact H].
  cbv zeta. destruct (html_page _ _ _ _ _ _ _); simpl;
    (apply Forall_app; split; [exact H|]); repeat constructor;
    apply emitted_entry_ok.
Qed.

(** X4: every entry of the table of contents carries a numbering of
    exactly depth + 1 components, the last of which is at least 1. *)
Theorem toc_entries_well_formed (files : list str) (repo_dir docs_dir : str) :
  Forall entry_ok (toc (run files repo_dir docs_dir)).
Proof.
  unfold process_loop.
  assert (H : forall todo st index,
            Forall entry_ok (toc st) ->
            Forall entry_ok (toc (run_from files repo_dir docs_dir st index todo))).
  { induction todo as [|f todo IH]; intros st index Hst; [exact Hst|].
    cbn [process_from]. apply IH.
    now apply process_file_entries. }
  apply H. constructor.
Qed.

End PageFacts.

Lemma entry_without_page_witness :
  let st' := process_file Scenario.yaml_safe_load Unrendered.markdown_markdown
               Scenario.read_file Scenario.cwd Scenario.str_title
               Scenario.files [] "docs" initial_state 0 "docs/index.md" in
  html_all_pages_content st' = []
  /\ numbering st' = [1]
  /\ exists title,
       toc st' = [{| entry_depth := 0; entry_numbering := [1];
                     entry_title := title |}].
Proof.
  apply (@entry_without_page Scenario.yaml_safe_load
           Unrendered.markdown_markdown Scenario.read_file Scenario.cwd
           Scenario.str_title Scenario.files [] "docs" initial_state 0
           "docs/index.md" 0).
  - vm_compute. reflexivity.
  - vm_compute. reflexivity.
Defined.

(** ** What discovery returns *)

Lemma startswith_longer (a x p : str) :
  Str.startswith a p = true -> Str.startswith (a ++ x) p = true.
Proof.
  revert a. induction p as [|c p IH]; intros a H; [reflexivity|].
  destruct a as [|y a]; [discriminate|]. simpl in *.
  apply andb_true_iff in H as [H1 H2]. now rewrite H1, IH.
Qed.

Lemma endswith_app (x a e : str) :
  Str.endswith a e = true -> Str.endswith (x ++ a) e = true.
Proof.
  unfold Str.endswith. rewrite rev_app_distr. apply startswith_longer.
Qed.

Lemma is_document_join (root file : str) :
  is_document file = true -> is_document (PosixPath.join root file) = true.
Proof.
  unfold is_document. intros H.
  assert (G : forall x, Str.endswith (x ++ file) ".md"
                        || Str.endswith (x ++ file) ".mdx" = true).
  { intros x. apply orb_true_iff in H as [H|H]; apply orb_true_iff;
      [left | right]; now apply endswith_app. }
  unfold PosixPath.join. destruct (Str.startswith file "/"); [exact H|].
  destruct root as [|c root]; [exact H|].
  destruct (Str.endswith (c :: root) "/"); [apply G|].
  rewrite app_assoc. apply G.
Qed.

Lemma entries_of_entry root files p k :
  In (p, k) (entries_of root files) ->
  exists file, In file files /\ entry root file = Some (p, k).
Proof.
  induction files as [|f files IH]; simpl; [contradiction|].
  destruct (entry root f) as [e|] eqn:E.
  - intros [H|H].
    + subst e. exists f. auto.
    + destruct (IH H) as [x Hx]. exists x. tauto.
  - intros H. destruct (IH H) as [x Hx]. exists x. tauto.
Qed.

Lemma existsb_in_strs_false (l : list str) (x : str) :
  existsb (fun y => in_strs y l) excluded_dirs = false ->
  In x excluded_dirs -> in_strs x l = false.
Proof.
  intros H Hx. destruct (in_strs x l) eqn:E; [|reflexivity].
  assert (existsb (fun y => in_strs y l) excluded_dirs = true).
  { apply existsb_exists. now exists x. }
  congruence.
Qed.

(** X5: when discovery returns, the list is not empty, it has one path per
    entry collected by the walk, every path ends in [.md] or [.mdx], and no
    path has a component named in [excluded_dirs]. *)
Theorem discovered_are_documents (root_dir : str) (t : tree) (found : list str) :
  get_files_sorted root_dir t = Some found ->
  found <> []
  /\ length found = length (all_files root_dir t)
  /\ forall p, In p found ->
       is_document p = true
       /\ forall x, In x excluded_dirs ->
            in_strs x (PosixPath.parts p) = false.
Proof.
  unfold get_files_sorted.
  destruct (all_files root_dir t) as [|e l] eqn:E; [discriminate|].
  intros H. injection H as <-.
  assert (Hlen : length (map fst (sort_by_key (e :: l))) = length (e :: l)).
  { rewrite length_map. symmetry. apply Permutation_length,
      sort_by_key_permutation. }
  split; [|split; [exact Hlen|]].
  - intros Hnil. change (map fst (sort_by_key (e :: l)) = []) in Hnil.
    rewrite Hnil in Hlen. discriminate.
  - intros p Hp. change (In p (map fst (sort_by_key (e :: l)))) in Hp.
    apply in_map_iff in Hp as [[p' k] [Hfst Hin]].
    simpl in Hfst. subst p'. apply (proj1 (sort_by_key_In _ _)) in Hin.
    rewrite <- E in Hin. unfold all_files in Hin.
    apply in_flat_map in Hin as [[root files] [_ He]]. simpl in He.
    apply entries_of_entry in He as [file [_ He]].
    unfold entry in He. destruct (is_document file) eqn:Hd; [|discriminate].
    destruct (existsb _ excluded_dirs) eqn:Hx; [discriminate|].
    injection He as <- _. split; [now apply is_document_join|].
    intros x. now apply existsb_in_strs_false.
Qed.

Lemma discovered_are_documents_witness :
  Scenario.files <> []
  /\ length Scenario.files = length (all_files "docs" Scenario.docs_tree)
  /\ forall p, In p Scenario.files ->
       is_document p = true
       /\ forall x, In x excluded_dirs ->
            in_strs x (PosixPath.parts p) = false.
Proof.
  apply (@discovered_are_documents "docs" Scenario.docs_tree Scenario.files).
  vm_compute. reflexivity.
Defined.

(** ** A root below an excluded directory *)

Lemma in_strs_In (x : str) (l : list str) : in_strs x l = true <-> In x l.
Proof.
  unfold in_strs. rewrite existsb_exists. split.
  - intros [y [Hy E]]. apply Str_eqb_eq in E. now subst y.
  - intros H. exists x. split; [exact H | apply Str_eqb_refl].
Qed.

Lemma split_join_keeps (a b x : str) :
  plain_name b = true -> x <> [] ->
  In x (Str.split "/" a) -> In x (Str.split "/" (PosixPath.join a b)).
Proof.
  intros Hb Hx Hin. unfold PosixPath.join.
  rewrite (plain_name_not_abs _ Hb).
  destruct a as [|c a]; [simpl in Hin; destruct Hin as [H|[]]; congruence|].
  destruct (Str.endswith (c :: a) "/") eqn:E.
  - destruct (endswith_sep _ E) as [a' Ea]. rewrite Ea in *.
    rewrite <- app_assoc. change ("/" ++ b) with ("/"%char :: b).
    change (a' ++ "/") with (a' ++ "/"%char :: []) in Hin.
    rewrite split_app_sep in *. apply in_or_app.
    apply in_app_or in Hin as [H|H]; [now left|].
    simpl in H. destruct H as [H|[]]. congruence.
  - change ("/" ++ b) with ("/"%char :: b). rewrite split_app_sep.
    apply in_or_app. now left.
Qed.

Lemma parts_In (p x : str) :
  Str.startswith x "/" = false ->
  (In x (PosixPath.parts p)
   <-> In x (Str.split "/" p)
       /\ PosixPath.nonempty x && negb (Str.eqb x ".") = true).
Proof.
  intros Hx. unfold PosixPath.parts.
  set (keep := fun c => PosixPath.nonempty c && negb (Str.eqb c ".")).
  change (PosixPath.nonempty x && negb (Str.eqb x ".")) with (keep x).
  rewrite <- filter_In.
  destruct (Str.startswith p "/"); [|tauto].
  split; [|now right].
  intros [H|H]; [|exact H]. subst x.
  destruct (_ && _); discriminate.
Qed.

Lemma parts_join_keeps (a b x : str) :
  plain_name b = true -> Str.startswith x "/" = false ->
  In x (PosixPath.parts a) -> In x (PosixPath.parts (PosixPath.join a b)).
Proof.
  intros Hb Hx Hin. apply (parts_In _ _ Hx) in Hin as [Hin Hf].
  apply (parts_In _ _ Hx). split; [|exact Hf].
  apply split_join_keeps; [exact Hb | | exact Hin].
  intros ->. discriminate.
Qed.

Lemma walk_keeps_parts (x : str) :
  Str.startswith x "/" = false ->
  forall t top root files,
    plain_dirs t = true -> In x (PosixPath.parts top) ->
    In (root, files) (walk top t) -> In x (PosixPath.parts root).
Proof.
  intros Hx. fix IH 1. intros [subdirs files0] top root files Hp Htop Hin.
  simpl in Hp. simpl in Hin. destruct Hin as [Heq|Hin].
  - injection Heq as <- _. exact Htop.
  - revert Hp Hin.
    induction subdirs as [|[d t'] subdirs IHs]; simpl; intros Hp Hin.
    + contradiction.
    + apply andb_true_iff in Hp as [Hd Hs].
      apply andb_true_iff in Hd as [Hd Ht'].
      apply in_app_or in Hin as [Hin|Hin].
      * destruct (keep_dir d); [|contradiction].
        apply (IH t' (PosixPath.join top d) root files Ht'); [|exact Hin].
        now apply parts_join_keeps.
      * now apply IHs.
Qed.

Lemma excluded_not_abs (x : str) :
  In x excluded_dirs -> Str.startswith x "/" = false.
Proof.
  intros H. repeat (destruct H as [<-|H]; [reflexivity|]). contradiction.
Qed.

Lemma entries_of_excluded (x root : str) (files : list str) :
  In x excluded_dirs -> In x (PosixPath.parts root) ->
  forallb plain_name files = true -> entries_of root files = [].
Proof.
  intros Hx Hroot. induction files as [|f files IH]; [reflexivity|].
  simpl. intros H. apply andb_true_iff in H as [Hf Hfs].
  rewrite (IH Hfs). unfold entry.
  destruct (is_document f); [|reflexivity].
  assert (E : existsb (fun y => in_strs y (PosixPath.parts (PosixPath.join root f)))
                excluded_dirs = true).
  { apply existsb_exists. exists x. split; [exact Hx|].
    apply in_strs_In, parts_join_keeps; auto using excluded_not_abs. }
  now rewrite E.
Qed.

(** X6: when a component of the root directory itself is named in
    [excluded_dirs], every document below it is skipped and discovery
    raises, whatever the tree holds. *)
Theorem excluded_root_finds_nothing (root_dir x : str) (t : tree) :
  plain_tree t = true -> plain_dirs t = true ->
  In x excluded_dirs -> In x (PosixPath.parts root_dir) ->
  get_files_sorted root_dir t = None.
Proof.
  intros Hf Hd Hx Hroot. unfold get_files_sorted.
  assert (E : all_files root_dir t = []); [|now rewrite E].
  unfold all_files.
  destruct (flat_map _ (walk root_dir t)) as [|e l] eqn:E; [reflexivity|].
  assert (Hin : In e (flat_map (fun rf => entries_of (fst rf) (snd rf))
                        (walk root_dir t))) by (rewrite E; now left).
  apply in_flat_map in Hin as [[root files] [Hw He]]. simpl in He.
  rewrite (@entries_of_excluded x root files) in He.
  - contradiction.
  - exact Hx.
  - exact (@walk_keeps_parts x (excluded_not_abs Hx) t root_dir root files
             Hd Hroot Hw).
  - exact (@walk_plain t root_dir root files Hf Hw).
Qed.

Lemma excluded_root_finds_nothing_witness :
  get_files_sorted "site/dist/docs" Scenario.docs_tree = None.
Proof.
  apply (@excluded_root_finds_nothing "site/dist/docs" "dist" Scenario.docs_tree).
  - reflexivity.
  - reflexivity.
  - vm_compute. tauto.
  - vm_compute. tauto.
Defined.

(** ** Every document of a visited directory is collected *)

Lemma split_join_inv (a b x : str) :
  plain_name b = true ->
  In x (Str.split "/" (PosixPath.join a b)) ->
  In x (Str.split "/" a) \/ x = b.
Proof.
  intros Hb. unfold PosixPath.join. rewrite (plain_name_not_abs _ Hb).
  destruct a as [|c a].
  - rewrite (split_plain _ Hb). intros [H|[]]. now right.
  - destruct (Str.endswith (c :: a) "/") eqn:E.
    + destruct (endswith_sep _ E) as [a' Ea]. rewrite Ea.
      rewrite <- app_assoc. change ("/" ++ b) with ("/"%char :: b).
      change (a' ++ "/") with (a' ++ "/"%char :: []).
      rewrite !split_app_sep, (split_plain _ Hb). intros H.
      apply in_app_or in H as [H|[H|[]]]; [left | now right].
      apply in_or_app. now left.
    + change ("/" ++ b) with ("/"%char :: b).
      rewrite split_app_sep, (split_plain _ Hb). intros H.
      apply in_app_or in H as [H|[H|[]]]; [now left | now right].
Qed.

Lemma parts_join_inv (a b x : str) :
  plain_name b = true -> Str.startswith x "/" = false ->
  In x (PosixPath.parts (PosixPath.join a b)) ->
  In x (PosixPath.parts a) \/ x = b.
Proof.
  intros Hb Hx Hin. apply (parts_In _ _ Hx) in Hin as [Hin Hf].
  destruct (@split_join_inv a b x Hb Hin) as [H|H]; [left | now right].
  apply (parts_In _ _ Hx). now split.
Qed.

Lemma walk_clean_roots :
  forall t top root files,
    plain_dirs t = true ->
    (forall x, In x excluded_dirs -> ~ In x (PosixPath.parts top)) ->
    In (root, files) (walk top t) ->
    forall x, In x excluded_dirs -> ~ In x (PosixPath.parts root).
Proof.
  fix IH 1. intros [subdirs files0] top root files Hp Htop Hin.
  simpl in Hp. simpl in Hin. destruct Hin as [Heq|Hin].
  - injection Heq as <- _. exact Htop.
  - revert Hp Hin.
    induction subdirs as [|[d t'] subdirs IHs]; simpl; intros Hp Hin.
    + contradiction.
    + apply andb_true_iff in Hp as [Hd Hs].
      apply andb_true_iff in Hd as [Hd Ht'].
      apply in_app_or in Hin as [Hin|Hin].
      * destruct (keep_dir d) eqn:Hk; [|contradiction].
        apply (IH t' (PosixPath.join top d) root files Ht'); [|exact Hin].
        intros x Hx Hparts.
        destruct (@parts_join_inv top d x Hd (excluded_not_abs Hx) Hparts) as [H|H].
        -- exact (Htop x Hx H).
        -- subst x. unfold keep_dir in Hk.
           apply andb_true_iff in Hk as [Hk _]. apply negb_true_iff in Hk.
           apply in_strs_In in Hx. congruence.
      * now apply IHs.
Qed.

Lemma excluded_not_document (x : str) :
  In x excluded_dirs -> is_document x = false.
Proof.
  intros H. repeat (destruct H as [<-|H]; [reflexivity|]). contradiction.
Qed.

(** X7: below a root none of whose components is named in [excluded_dirs],
    the test on the components of the full path never fires: every file
    ending in [.md] or [.mdx] of every directory the walk visits is
    collected, with its sort key. *)
Theorem visited_documents_are_collected
    (root_dir : str) (t : tree) (root : str) (files : list str) (file : str) :
  plain_tree t = true -> plain_dirs t = true ->
  (forall x, In x excluded_dirs -> ~ In x (PosixPath.parts root_dir)) ->
  In (root, files) (walk root_dir t) ->
  In file files -> is_document file = true ->
  entry root file = Some (PosixPath.join root file, sort_key root file)
  /\ In (PosixPath.join root file, sort_key root file) (all_files root_dir t).
Proof.
  intros Hf Hd Hroot Hw Hin Hdoc.
  assert (Hplain : plain_name file = true).
  { pose proof (@walk_plain t root_dir root files Hf Hw) as Hall.
    rewrite forallb_forall in Hall. now apply Hall. }
  assert (E : entry root file
              = Some (PosixPath.join root file, sort_key root file)).
  { unfold entry. rewrite Hdoc.
    destruct (existsb _ excluded_dirs) eqn:Ex; [|reflexivity]. exfalso.
    apply existsb_exists in Ex as [x [Hx Hp]]. apply in_strs_In in Hp.
    destruct (@parts_join_inv root file x Hplain (excluded_not_abs Hx) Hp) as [H|H].
    - exact (@walk_clean_roots t root_dir root files Hd Hroot Hw x Hx H).
    - subst x. rewrite (excluded_not_document Hx) in Hdoc. discriminate. }
  split; [exact E|].
  unfold all_files. apply in_flat_map. exists (root, files). split; [exact Hw|].
  simpl. clear Hw. induction files as [|f files IH]; [contradiction|].
  simpl. destruct Hin as [->|Hin].
  - rewrite E. now left.
  - destruct (entry root f); [right|]; now apply IH.
Qed.

Lemma visited_documents_are_collected_witness :
  entry "docs/guide" "setup.md"
  = Some (PosixPath.join "docs/guide" "setup.md", sort_key "docs/guide" "setup.md")
  /\ In (PosixPath.join "docs/guide" "setup.md", sort_key "docs/guide" "setup.md")
        (all_files "docs" Scenario.docs_tree).
Proof.
  apply (@visited_documents_are_collected "docs" Scenario.docs_tree
           "docs/guide" ["setup.md" : str; "index.md" : str] "setup.md").
  - reflexivity.
  - reflexivity.
  - intros x Hx Hp. vm_compute in Hp. destruct Hp as [<-|[]].
    vm_compute in Hx. repeat (destruct Hx as [Hx|Hx]; [discriminate Hx|]).
    exact Hx.
  - vm_compute. right. left. reflexivity.
  - left. reflexivity.
  - reflexivity.
Defined.

(** ** Depth and displayed path of a document below the root *)

Lemma plain_comps_plain (l : list str) (c : str) :
  plain_comps l = true -> In c l -> plain_name c = true.
Proof.
  unfold plain_comps. rewrite forallb_forall. intros H Hc.
  specialize (H c Hc). now apply andb_true_iff in H as [_ H].
Qed.

Lemma plain_comps_simple (l : list str) :
  plain_comps l = true -> forallb simple_comp l = true.
Proof.
  unfold plain_comps. rewrite !forallb_forall. intros H c Hc.
  specialize (H c Hc). now apply andb_true_iff in H as [H _].
Qed.

Lemma plain_comps_snoc (dirs : list str) (name : str) :
  plain_comps dirs = true -> plain_comps [name] = true ->
  plain_comps (dirs ++ [name]) = true.
Proof. unfold plain_comps. intros H1 H2. now rewrite forallb_app, H1, H2. Qed.

Lemma split_below (start : str) (dirs : list str) (name : str) :
  plain_comps dirs = true -> plain_comps [name] = true ->
  Str.split "/" (below start dirs name)
  = Str.split "/" start ++ dirs ++ [name].
Proof.
  intros Hd Hn. unfold below.
  change ("/" ++ Str.join "/" (dirs ++ [name]))
    with ("/"%char :: Str.join "/" (dirs ++ [name])).
  rewrite split_app_sep, split_join; [reflexivity | |].
  - now destruct dirs.
  - intros c. apply plain_comps_plain. now apply plain_comps_snoc.
Qed.

Lemma simple_below (start : str) (dirs : list str) (name : str) :
  simple_path start = true ->
  plain_comps dirs = true -> plain_comps [name] = true ->
  simple_path (below start dirs name) = true.
Proof.
  intros Hs Hd Hn. unfold simple_path. rewrite (@split_below start dirs name Hd Hn).
  rewrite forallb_app. apply andb_true_iff. split; [exact Hs|].
  apply plain_comps_simple. now apply plain_comps_snoc.
Qed.

Lemma commonprefix_self (c b : list str) :
  PosixPath.commonprefix c (c ++ b) = c.
Proof.
  induction c as [|x c IH]; simpl; [reflexivity|].
  now rewrite Str_eqb_refl, IH.
Qed.

Lemma rel_of_below (S D : list str) :
  D <> [] -> rel_of (S ++ D) S = Str.join "/" D.
Proof.
  intros HD. unfold rel_of. rewrite commonprefix_self, Nat.sub_diag.
  simpl List.repeat. simpl app.
  rewrite skipn_app, skipn_all, Nat.sub_diag. simpl.
  destruct D; [contradiction | reflexivity].
Qed.

Lemma count_plain (a : str) :
  plain_name a = true -> Str.count a "/" = 0.
Proof.
  unfold Str.count. induction a as [|c a IH]; intros H; [reflexivity|].
  cbn [plain_name forallb] in H. apply andb_true_iff in H as [Hc Ha].
  cbn [filter]. destruct (Ascii.eqb "/" c) eqn:E.
  - apply Ascii.eqb_eq in E. subst c. discriminate Hc.
  - now apply IH.
Qed.

Lemma count_app (a b : str) (c : ascii) :
  Str.count (a ++ b) c = Str.count a c + Str.count b c.
Proof. unfold Str.count. now rewrite filter_app, length_app. Qed.

Lemma count_join (l : list str) :
  (forall c, In c l -> plain_name c = true) ->
  Str.count (Str.join "/" l) "/" = length l - 1.
Proof.
  induction l as [|p l IH]; intros H; [reflexivity|].
  destruct l as [|q l].
  - simpl. apply count_plain, H. now left.
  - change (Str.join "/" (p :: q :: l))
      with (p ++ "/"%char :: Str.join "/" (q :: l)).
    rewrite count_app, count_plain by (apply H; now left).
    change ("/"%char :: Str.join "/" (q :: l))
      with (("/" : str) ++ Str.join "/" (q :: l)).
    rewrite count_app, IH by (intros c Hc; apply H; now right).
    simpl. lia.
Qed.

Lemma join_snoc (sep : str) (l : list str) (x : str) :
  l <> [] -> Str.join sep (l ++ [x]) = Str.join sep l ++ sep ++ x.
Proof.
  induction l as [|p l IH]; intros H; [contradiction|].
  destruct l as [|q l]; [reflexivity|].
  change (Str.join sep ((p :: q :: l) ++ [x]))
    with (p ++ sep ++ Str.join sep ((q :: l) ++ [x])).
  rewrite IH by discriminate.
  change (Str.join sep (p :: q :: l)) with (p ++ sep ++ Str.join sep (q :: l)).
  now rewrite <- !app_assoc.
Qed.

Lemma basename_below (start : str) (dirs : list str) (name : str) :
  plain_name name = true ->
  PosixPath.basename (below start dirs name) = name.
Proof.
  intros Hn. unfold below. destruct dirs as [|d dirs].
  - simpl app at 2. simpl Str.join. now apply basename_sep.
  - rewrite join_snoc by discriminate.
    rewrite !app_assoc. rewrite <- (app_assoc _ "/" name).
    now apply basename_sep.
Qed.

Lemma rel_depth_below (start : str) (dirs : list str) (name : str) :
  plain_comps dirs = true -> plain_comps [name] = true ->
  rel_depth (below start dirs name) start
  = if Str.eqb name "index.md" && (0 <? length dirs)
    then length dirs - 1 else length dirs.
Proof.
  intros Hd Hn.
  assert (Hname : plain_name name = true).
  { apply (@plain_comps_plain [name] name Hn). now left. }
  unfold rel_depth. rewrite (@split_below _ dirs name Hd Hn), rel_of_below.
  - rewrite count_join.
    + rewrite (@basename_below _ dirs name Hname), length_app. simpl length.
      replace (length dirs + 1 - 1) with (length dirs) by lia. reflexivity.
    + intros c. apply plain_comps_plain. now apply plain_comps_snoc.
  - now destruct dirs.
Qed.

(** X8: the depth of a document is the number of directories between the
    documentation root and the file, one less for an [index.md] that is
    not directly in the root; it does not depend on the working
    directory. *)
Theorem depth_is_nesting
    (cwd repo_dir docs_dir : str) (dirs : list str) (name : str) :
  simple_path (PosixPath.join repo_dir docs_dir) = true ->
  plain_comps dirs = true -> plain_comps [name] = true ->
  toc_depth cwd (below (PosixPath.join repo_dir docs_dir) dirs name)
    repo_dir docs_dir
  = Some (if Str.eqb name "index.md" && (0 <? length dirs)
          then length dirs - 1 else length dirs).
Proof.
  intros Hs Hd Hn.
  rewrite toc_depth_simple.
  - f_equal. now apply rel_depth_below.
  - now apply simple_below.
  - exact Hs.
Qed.

Lemma depth_is_nesting_witness :
  toc_depth "/srv" (below (PosixPath.join "astro-docs" "src/content/docs/en")
                      ["guides" : str; "deploy" : str] "index.md")
    "astro-docs" "src/content/docs/en"
  = Some 1.
Proof.
  apply (@depth_is_nesting "/srv" "astro-docs" "src/content/docs/en"
           ["guides" : str; "deploy" : str] "index.md"); reflexivity.
Defined.

Lemma parts_simple (p : str) :
  simple_path p = true -> PosixPath.parts p = Str.split "/" p.
Proof.
  intros H. destruct (@simple_path_head p H) as [c [p' [E Hc]]].
  unfold PosixPath.parts.
  replace (Str.startswith p "/") with false
    by (rewrite E; simpl; now rewrite Hc).
  unfold simple_path in H. rewrite forallb_forall in H.
  apply forallb_filter_id. apply forallb_forall. intros x Hx.
  specialize (H x Hx). unfold simple_comp in H.
  now apply andb_true_iff in H as [H _].
Qed.

Lemma parts_not_nil (p : str) :
  simple_path p = true -> exists x l, PosixPath.parts p = x :: l.
Proof.
  intros H. rewrite (@parts_simple _ H).
  destruct (Str.split "/" p) as [|x l] eqn:Es; [|now exists x, l].
  exfalso. revert Es. apply split_not_nil.
Qed.

Lemma is_prefix_self (c b : list str) : PosixPath.is_prefix c (c ++ b) = true.
Proof.
  induction c as [|x c IH]; simpl; [reflexivity|].
  now rewrite Str_eqb_refl, IH.
Qed.

Lemma parts_below (start : str) (dirs : list str) (name : str) :
  simple_path start = true ->
  plain_comps dirs = true -> plain_comps [name] = true ->
  PosixPath.parts (below start dirs name)
  = PosixPath.parts start ++ dirs ++ [name].
Proof.
  intros Hs Hd Hn.
  rewrite (@parts_simple _ Hs), (@parts_simple _ (@simple_below _ dirs name Hs Hd Hn)).
  now apply split_below.
Qed.

(** X9: for a document below the documentation root [relative_to] never
    raises, and the path displayed on the page is the path from the root
    to the file. *)
Theorem doc_path_below_root
    (repo_dir docs_dir : str) (dirs : list str) (name : str) :
  simple_path (PosixPath.join repo_dir docs_dir) = true ->
  plain_comps dirs = true -> plain_comps [name] = true ->
  PosixPath.relative_to (below (PosixPath.join repo_dir docs_dir) dirs name)
    repo_dir docs_dir
  = Some (Str.join "/" (dirs ++ [name])).
Proof.
  intros Hs Hd Hn. unfold PosixPath.relative_to.
  destruct (@parts_not_nil _ Hs) as [x [l E]].
  rewrite (@parts_below _ dirs name Hs Hd Hn), is_prefix_self.
  set (rooted := match PosixPath.parts _ with [] => _ | _ :: _ => false end).
  assert (Hr : rooted = false) by (subst rooted; now rewrite E).
  rewrite Hr. cbn [negb andb].
  rewrite skipn_app, skipn_all, Nat.sub_diag. simpl skipn. simpl app.
  destruct dirs; reflexivity.
Qed.

Lemma doc_path_below_root_witness :
  PosixPath.relative_to
    (below (PosixPath.join "astro-docs" "src/content/docs/en")
       ["guides" : str] "deploy.mdx")
    "astro-docs" "src/content/docs/en"
  = Some (Str.join "/" (["guides" : str] ++ ["deploy.mdx" : str])).
Proof.
  apply (@doc_path_below_root "astro-docs" "src/content/docs/en"
           ["guides" : str] "deploy.mdx"); reflexivity.
Defined.

(** Against the empty root a relative path is returned as it is, and a
    rooted one is refused. *)
Lemma relative_to_empty_root :
  PosixPath.relative_to "docs/a.md" [] [] = Some ("docs/a.md" : str)
  /\ PosixPath.relative_to "/srv/docs/a.md" [] [] = None
  /\ PosixPath.relative_to "/srv/docs/a.md" "/srv" "docs" = Some ("a.md" : str).
Proof. vm_compute. repeat split; reflexivity. Qed.

(** ** Where discovered documents lie *)

Lemma simple_path_no_trailing_sep (a : str) :
  simple_path a = true -> Str.endswith a "/" = false.
Proof.
  intros H. destruct (Str.endswith a "/") eqn:E; [|reflexivity].
  destruct (endswith_sep _ E) as [a' Ea]. subst a.
  unfold simple_path in H.
  change (a' ++ "/") with (a' ++ "/"%char :: []) in H.
  rewrite split_app_sep, forallb_app in H.
  apply andb_true_iff in H as [_ H]. discriminate H.
Qed.

Lemma join_simple (a b : str) :
  simple_path a = true -> plain_name b = true ->
  PosixPath.join a b = a ++ "/" ++ b.
Proof.
  intros Ha Hb. unfold PosixPath.join. rewrite (plain_name_not_abs _ Hb).
  destruct (@simple_path_head a Ha) as [c [a' [E _]]].
  rewrite (@simple_path_no_trailing_sep a Ha). now rewrite E.
Qed.

Lemma simple_path_join (a b : str) :
  simple_path a = true -> plain_comps [b] = true ->
  simple_path (PosixPath.join a b) = true.
Proof.
  intros Ha Hb.
  assert (Hp : plain_name b = true)
    by (apply (@plain_comps_plain [b] b Hb); now left).
  rewrite (@join_simple a b Ha Hp). unfold simple_path.
  change ("/" ++ b) with ("/"%char :: b).
  rewrite split_app_sep, (split_plain _ Hp), forallb_app.
  apply andb_true_iff. split; [exact Ha|]. now apply plain_comps_simple.
Qed.

Lemma join_cons_sep (a d : str) (l : list str) :
  Str.join "/" ((a ++ "/" ++ d) :: l) = Str.join "/" (a :: d :: l).
Proof.
  destruct l as [|q l]; [reflexivity|].
  change (Str.join "/" ((a ++ "/" ++ d) :: q :: l))
    with ((a ++ "/" ++ d) ++ "/" ++ Str.join "/" (q :: l)).
  change (Str.join "/" (a :: d :: q :: l))
    with (a ++ "/" ++ d ++ "/" ++ Str.join "/" (q :: l)).
  now rewrite <- !app_assoc.
Qed.

Lemma join_cons_below (top : str) (dirs : list str) (file : str) :
  Str.join "/" (top :: dirs) ++ "/" ++ file = below top dirs file.
Proof.
  unfold below. destruct dirs as [|d dirs]; [reflexivity|].
  rewrite join_snoc by discriminate.
  change (Str.join "/" (top :: d :: dirs))
    with (top ++ "/" ++ Str.join "/" (d :: dirs)).
  now rewrite <- !app_assoc.
Qed.

Lemma simple_path_dir (top : str) (dirs : list str) :
  simple_path top = true -> plain_comps dirs = true ->
  simple_path (Str.join "/" (top :: dirs)) = true.
Proof.
  revert top. induction dirs as [|d dirs IH]; intros top Ht Hd; [exact Ht|].
  unfold plain_comps in Hd. simpl in Hd. apply andb_true_iff in Hd as [Hd Hds].
  assert (Hd1 : plain_comps [d] = true) by (unfold plain_comps; simpl; now rewrite Hd).
  assert (Hp : plain_name d = true) by now apply andb_true_iff in Hd as [_ Hd].
  rewrite <- join_cons_sep, <- (@join_simple top d Ht Hp).
  apply IH; [now apply simple_path_join | exact Hds].
Qed.

Lemma walk_below :
  forall t top root files,
    simple_names t = true -> simple_path top = true ->
    In (root, files) (walk top t) ->
    exists dirs,
      root = Str.join "/" (top :: dirs)
      /\ plain_comps dirs = true /\ forallb keep_dir dirs = true
      /\ plain_comps files = true.
Proof.
  fix IH 1. intros [subdirs files0] top root files Hn Htop Hin.
  simpl in Hn. apply andb_true_iff in Hn as [Hfiles Hsub].
  simpl in Hin. destruct Hin as [Heq|Hin].
  - injection Heq as <- <-. exists []. auto.
  - clear Hfiles. revert Hsub Hin.
    induction subdirs as [|[d t'] subdirs IHs]; simpl; intros Hsub Hin.
    + contradiction.
    + apply andb_true_iff in Hsub as [Hd Hs].
      apply andb_true_iff in Hd as [Hd Ht'].
      apply in_app_or in Hin as [Hin|Hin]; [|now apply IHs].
      destruct (keep_dir d) eqn:Hk; [|contradiction].
      assert (Hp : plain_name d = true)
        by (apply (@plain_comps_plain [d] d Hd); now left).
      destruct (IH t' (PosixPath.join top d) root files Ht'
                  (@simple_path_join top d Htop Hd) Hin)
        as [dirs [Hr [Hdirs [Hkeep Hf]]]].
      exists (d :: dirs). repeat split.
      * now rewrite Hr, (@join_simple top d Htop Hp), join_cons_sep.
      * unfold plain_comps in *. simpl. simpl in Hd.
        rewrite andb_true_r in Hd. now rewrite Hd, Hdirs.
      * simpl. now rewrite Hk, Hkeep.
      * exact Hf.
Qed.

Lemma found_in_all_files (root_dir : str) (t : tree) (found : list str) (p : str) :
  get_files_sorted root_dir t = Some found -> In p found ->
  exists k, In (p, k) (all_files root_dir t).
Proof.
  intros Hfound Hp. unfold get_files_sorted in Hfound.
  destruct (all_files root_dir t) as [|e l] eqn:E; [discriminate|].
  injection Hfound as <-.
  change (In p (map fst (sort_by_key (e :: l)))) in Hp.
  apply in_map_iff in Hp as [[p' k] [Hfst Hin]]. simpl in Hfst. subst p'.
  apply (proj1 (sort_by_key_In _ _)) in Hin. now exists k.
Qed.

Lemma all_files_below (root_dir : str) (t : tree) (p k : str) :
  simple_names t = true -> simple_path root_dir = true ->
  In (p, k) (all_files root_dir t) ->
  exists dirs name,
    p = below root_dir dirs name
    /\ plain_comps dirs = true /\ plain_comps [name] = true
    /\ forallb keep_dir dirs = true
    /\ is_document name = true.
Proof.
  intros Hn Hroot Hin. unfold all_files in Hin.
  apply in_flat_map in Hin as [[root files] [Hw He]]. simpl in He.
  apply entries_of_entry in He as [file [Hfile He]].
  unfold entry in He. destruct (is_document file) eqn:Hd; [|discriminate].
  destruct (existsb _ excluded_dirs); [discriminate|].
  injection He as <- _.
  destruct (@walk_below t root_dir root files Hn Hroot Hw)
    as [dirs [Hr [Hdirs [Hkeep Hf]]]].
  assert (Hf1 : plain_comps [file] = true).
  { unfold plain_comps in *. rewrite forallb_forall in Hf. simpl.
    now rewrite (Hf file Hfile). }
  exists dirs, file. repeat split; try assumption.
  subst root. rewrite join_simple.
  - apply join_cons_below.
  - now apply simple_path_dir.
  - apply (@plain_comps_plain [file] file Hf1). now left.
Qed.

(** X10: below a simple root, every path discovery returns is the root
    followed by directory names and a file name; none of the directories
    is named in [excluded_dirs] or starts with an underscore, and the file
    name ends in [.md] or [.mdx]. *)
Theorem discovered_below_root
    (root_dir : str) (t : tree) (found : list str) (p : str) :
  simple_names t = true -> simple_path root_dir = true ->
  get_files_sorted root_dir t = Some found -> In p found ->
  exists dirs name,
    p = below root_dir dirs name
    /\ plain_comps dirs = true /\ plain_comps [name] = true
    /\ forallb (fun d => negb (in_strs d excluded_dirs)
                         && negb (Str.startswith d "_")) dirs = true
    /\ (Str.endswith name ".md" || Str.endswith name ".mdx") = true.
Proof.
  intros Hn Hroot Hfound Hp.
  destruct (@found_in_all_files root_dir t found p Hfound Hp) as [k Hin].
  destruct (@all_files_below root_dir t p k Hn Hroot Hin)
    as [dirs [name [Hb [Hd [Hname [Hkeep Hdoc]]]]]].
  exists dirs, name. repeat split; assumption.
Qed.

Lemma discovered_below_root_witness :
  exists dirs name,
    chars "docs/guide/setup.md" = below "docs" dirs name
    /\ plain_comps dirs = true /\ plain_comps [name] = true
    /\ forallb (fun d => negb (in_strs d excluded_dirs)
                         && negb (Str.startswith d "_")) dirs = true
    /\ (Str.endswith name ".md" || Str.endswith name ".mdx") = true.
Proof.
  apply (@discovered_below_root "docs" Scenario.docs_tree Scenario.files
           "docs/guide/setup.md").
  - reflexivity.
  - reflexivity.
  - vm_compute. reflexivity.
  - right. right. left. reflexivity.
Defined.

Section DiscoveredPages.

Variable yaml_safe_load : str -> option dict.
Variable markdown_markdown : str -> option str.
Variable read_file : str -> option str.
Variable cwd : str.

Lemma below_root_yields_page
    (repo_dir docs_dir : str) (dirs : list str) (name : str) :
  simple_path (PosixPath.join repo_dir docs_dir) = true ->
  plain_comps dirs = true -> plain_comps [name] = true ->
  let p := below (PosixPath.join repo_dir docs_dir) dirs name in
  toc_depth cwd p repo_dir docs_dir <> None
  /\ PosixPath.relative_to p repo_dir docs_dir <> None
  /\ (yields_page yaml_safe_load markdown_markdown read_file cwd
        repo_dir docs_dir p = true
      <-> exists data body page,
            load_document yaml_safe_load read_file p = Some (data, body)
            /\ markdown_markdown body = Some page).
Proof.
  intros Hroot Hd Hname p. subst p.
  assert (Hdepth : exists d,
            toc_depth cwd (below (PosixPath.join repo_dir docs_dir) dirs name)
              repo_dir docs_dir = Some d).
  { rewrite toc_depth_simple; [eauto | now apply simple_below | exact Hroot]. }
  assert (Hpath : exists rel,
            PosixPath.relative_to
              (below (PosixPath.join repo_dir docs_dir) dirs name)
              repo_dir docs_dir = Some rel).
  { unfold PosixPath.relative_to.
    destruct (@parts_not_nil _ Hroot) as [x [l E]].
    rewrite (@parts_below _ dirs name Hroot Hd Hname), is_prefix_self.
    set (rooted := match PosixPath.parts _ with [] => _ | _ :: _ => false end).
    assert (Hr : rooted = false) by (subst rooted; now rewrite E).
    rewrite Hr. cbn [negb andb].
    destruct (skipn _ _); eauto. }
  destruct Hdepth as [d Hdepth]. destruct Hpath as [rel Hpath].
  split; [now rewrite Hdepth|]. split; [now rewrite Hpath|].
  unfold yields_page. rewrite Hdepth, Hpath.
  destruct (load_document _ _ _) as [[data body]|].
  - destruct (markdown_markdown body) as [page|] eqn:Em.
    + split; [|reflexivity]. intros _. now exists data, body, page.
    + split; [discriminate|]. intros [data' [body' [page [H1 H2]]]].
      injection H1 as <- <-. congruence.
  - split; [discriminate|]. intros [data [body [page [H _]]]]. discriminate.
Qed.

(** X11: discovery composed with the loop: for a document discovered below
    the documentation root neither the depth nor the displayed path can
    fail, so the document gets a page exactly when it is loaded and the
    renderer accepts its body. *)
Theorem discovered_document_yields_page
    (repo_dir docs_dir : str) (t : tree) (found : list str) (p : str) :
  simple_names t = true ->
  simple_path (PosixPath.join repo_dir docs_dir) = true ->
  get_files_sorted (PosixPath.join repo_dir docs_dir) t = Some found ->
  In p found ->
  toc_depth cwd p repo_dir docs_dir <> None
  /\ PosixPath.relative_to p repo_dir docs_dir <> None
  /\ (yields_page yaml_safe_load markdown_markdown read_file cwd
        repo_dir docs_dir p = true
      <-> exists data body page,
            load_document yaml_safe_load read_file p = Some (data, body)
            /\ markdown_markdown body = Some page).
Proof.
  intros Hn Hroot Hfound Hp.
  destruct (@found_in_all_files _ t found p Hfound Hp) as [k Hin].
  destruct (@all_files_below _ t p k Hn Hroot Hin)
    as [dirs [name [-> [Hd [Hname _]]]]].
  now apply below_root_yields_page.
Qed.

End DiscoveredPages.

Lemma discovered_document_yields_page_witness :
  toc_depth Scenario.cwd "docs/guide/setup.md" [] "docs" <> None
  /\ PosixPath.relative_to "docs/guide/setup.md" [] "docs" <> None
  /\ (yields_page Scenario.yaml_safe_load Scenario.markdown_markdown
        Scenario.read_file Scenario.cwd [] "docs" "docs/guide/setup.md" = true
      <-> exists data body page,
            load_document Scenario.yaml_safe_load Scenario.read_file
              "docs/guide/setup.md" = Some (data, body)
            /\ Scenario.markdown_markdown body = Some page).
Proof.
  apply (@discovered_document_yields_page Scenario.yaml_safe_load
           Scenario.markdown_markdown Scenario.read_file Scenario.cwd
           [] "docs" Scenario.docs_tree Scenario.files "docs/guide/setup.md").
  - reflexivity.
  - reflexivity.
  - vm_compute. reflexivity.
  - right. right. left. reflexivity.
Defined.

(** ** Lazy repetition *)

(** A lazy star over a class reads the shortest run after which the rest of
    the pattern matches: here the run [w], the rest of the pattern failing
    at every position inside it. *)
Lemma star_lazy_run body (p : ascii -> bool) k :
  (forall k' st', body k' st' = step p k' st') ->
  forall w st r res,
    rest st = w ++ r -> forallb p w = true ->
    (forall w1 w2, w = w1 ++ w2 -> w2 <> [] ->
       k (advance w1 (w2 ++ r) st) = None) ->
    k (advance w r st) = Some res ->
    star_loop false body k (length (rest st)) st = Some res.
Proof.
  intros Hbody. induction w as [|c w IH]; intros st r res Hrest Hw Hfail Hk.
  - simpl in Hrest. rewrite <- Hrest, advance_nil in Hk.
    destruct (length (rest st)) eqn:En; simpl; now rewrite Hk.
  - pose proof (Hfail [] (c :: w) eq_refl ltac:(discriminate)) as H0.
    rewrite <- Hrest, advance_nil in H0.
    destruct st as [pv a cs]. simpl in Hrest. subst a. simpl length.
    simpl in Hw. apply andb_true_iff in Hw as [Hc Hw].
    cbn [star_loop]. rewrite H0, Hbody. unfold step. cbn [rest caps app].
    rewrite Hc.
    replace (length (w ++ r) <? length (c :: w ++ r)) with true
      by (symmetry; apply Nat.ltb_lt; simpl; lia).
    pose proof (IH {| prev := Some c; rest := w ++ r; caps := cs |} r res
                  eq_refl Hw) as H.
    cbn [rest] in H. apply H.
    + intros w1 w2 E Hne. exact (Hfail (c :: w1) w2 (f_equal (cons c) E) Hne).
    + exact Hk.
Qed.

(** No match of a pattern that begins with the word [x :: w] starts inside
    [pre], when [pre] does not hold the word and [x] occurs in it only as
    its first character. *)
Lemma startswith_overlap (w b t : str) (x : ascii) :
  Str.startswith (b ++ x :: t) w = true ->
  Str.startswith b w = true \/ In x (skipn (length b) w).
Proof.
  revert w. induction b as [|y b IH]; intros w H.
  - destruct w as [|c w]; [now left|]. right. simpl in *.
    apply andb_true_iff in H as [H _]. apply Ascii.eqb_eq in H. now left.
  - destruct w as [|c w]; [now left|]. simpl in H.
    apply andb_true_iff in H as [Hc H]. destruct (IH w H) as [H1|H1].
    + left. simpl. now rewrite Hc, H1.
    + right. exact H1.
Qed.

Lemma In_skipn (A : Type) (x : A) (n : nat) (l : list A) :
  In x (skipn n l) -> In x l.
Proof.
  revert l. induction n as [|n IH]; intros l H; [exact H|].
  destruct l as [|y l]; [contradiction|]. right. now apply IH.
Qed.

Lemma no_earlier_start (pre b t w : str) (x : ascii) :
  Str.contains pre (x :: w) = false -> without x w = true ->
  suffix b pre -> b <> [] ->
  Str.startswith (b ++ x :: t) (x :: w) = false.
Proof.
  intros Hc Hw Hs Hb.
  destruct (Str.startswith (b ++ x :: t) (x :: w)) eqn:E; [|reflexivity].
  destruct (@startswith_overlap (x :: w) b t x E) as [H|H].
  - rewrite (@contains_suffix pre (x :: w) b Hc Hs) in H. discriminate.
  - destruct b as [|y b]; [contradiction|]. simpl in H.
    apply In_skipn in H. unfold without in Hw. rewrite forallb_forall in Hw.
    specialize (Hw x H). now rewrite Ascii.eqb_refl in Hw.
Qed.

(** ** Relative Markdown images *)

Lemma any_one_line (a : str) :
  without nl a = true -> forallb (any_has no_flags) a = true.
Proof. intros H. exact H. Qed.

Lemma cls_not_h_t_p (c : ascii) :
  cls_has true (map IChar "http") c = negb (Str.mem c "http").
Proof. reflexivity. Qed.

Lemma without_head (x c : ascii) (a : str) :
  without x (c :: a) = true -> Ascii.eqb x c = false.
Proof.
  unfold without. simpl. intros H. apply andb_true_iff in H as [H _].
  apply negb_true_iff in H. now rewrite Ascii.eqb_sym.
Qed.

(** At a Markdown image whose target starts outside [h], [t], [p] the
    pattern matches the whole image, the alt text in group 1 and the
    target in group 2. *)
Lemma md_pattern_matches (q : option ascii) (alt : str) (c : ascii)
    (path post : str) :
  without nl alt = true -> without "]" alt = true ->
  Str.mem c "http" = false ->
  without nl path = true -> without ")" path = true ->
  match_here no_flags md_pattern q
    ("![" ++ alt ++ "](" ++ c :: path ++ ")" ++ post)
  = Some {| prev := Some ")"%char; rest := post;
            caps := [(2, c :: path); (1, alt)] |}.
Proof.
  intros Ha1 Ha2 Hc Hp1 Hp2.
  change (")" ++ post) with (")"%char :: post).
  unfold match_here, md_pattern.
  rewrite rmatch_seqs_cons.
  rewrite lit_ok with (r := alt ++ "](" ++ c :: path ++ ")"%char :: post)
    by reflexivity.
  rewrite rmatch_seqs_cons, rmatch_Group, rmatch_Star.
  eapply star_lazy_run with (p := any_has no_flags) (w := alt);
    [reflexivity | reflexivity | now apply any_one_line | |].
  - intros w1 w2 E Hne. rewrite rmatch_seqs_cons. apply lit_none.
    cbn [rest set_cap advance]. destruct w2 as [|x w2]; [contradiction|].
    rewrite E, without_app in Ha2. apply andb_true_iff in Ha2 as [_ Ha2].
    apply without_head in Ha2. simpl. rewrite Ascii.eqb_sym, Ha2. reflexivity.
  - rewrite consumed_advance by reflexivity.
    rewrite rmatch_seqs_cons.
    rewrite lit_ok with (r := c :: path ++ ")"%char :: post) by reflexivity.
    rewrite rmatch_seqs_cons, rmatch_Group, rmatch_Seq.
    unfold none_of. rewrite cls_step. unfold step at 1.
    cbn [rest advance set_cap]. rewrite cls_not_h_t_p, Hc. cbn [negb].
    rewrite rmatch_Star.
    eapply star_lazy_run with (p := any_has no_flags) (w := path);
      [reflexivity | reflexivity | now apply any_one_line | |].
    + intros w1 w2 E Hne. rewrite rmatch_seqs_cons.
      destruct w2 as [|x w2]; [contradiction|].
      rewrite E, without_app in Hp2. apply andb_true_iff in Hp2 as [_ Hp2].
      apply without_head in Hp2.
      change (rmatch no_flags (Chr ")")) with (step (Ascii.eqb ")")).
      unfold step. cbn [rest set_cap advance app]. now rewrite Hp2.
    + rewrite rmatch_seqs_cons.
      change (rmatch no_flags (Chr ")")) with (step (Ascii.eqb ")")).
      unfold step. cbn [rest set_cap advance app caps prev].
      rewrite Ascii.eqb_refl. cbn [seqs rmatch]. f_equal. f_equal. f_equal.
      f_equal. unfold consumed. cbn [rest advance].
      replace (length (c :: path ++ ")"%char :: post)
               - length (")"%char :: post))
        with (S (length path)) by (simpl; rewrite !length_app; simpl; lia).
      cbn [firstn]. f_equal.
      rewrite firstn_app, firstn_all, Nat.sub_diag. simpl. apply app_nil_r.
Qed.

Lemma md_image_app (alt : str) (c : ascii) (path post : str) :
  md_image alt (c :: path) ++ post
  = "![" ++ alt ++ "](" ++ c :: path ++ ")" ++ post.
Proof.
  unfold md_image.
  repeat (rewrite <- ?app_assoc, <- ?app_comm_cons). reflexivity.
Qed.

Lemma md_replace_caps (s1 s2 : mstate) :
  caps s1 = caps s2 -> md_replace s1 = md_replace s2.
Proof.
  intros H. unfold md_replace, group_or_empty, group. now rewrite H.
Qed.

(** X12: in a text that holds no [![] before it, a Markdown image whose
    alt text holds neither a newline nor []], and whose target starts with
    a character other than [h], [t] and [p] and holds neither a newline
    nor [)], is rewritten to [![alt](https://docs.astro.build/target)],
    the leading [.], [/] and [~] of the target removed, and the pass goes
    on after the image; a document that is one such image, without the
    word [import] and without [<], leaves [process_image_paths] as that
    link. *)
Theorem relative_image_becomes_absolute
    (pre alt : str) (c : ascii) (path post : str) :
  without nl alt = true -> without "]" alt = true ->
  Str.mem c "http" = false ->
  without nl path = true -> without ")" path = true ->
  Str.contains pre "![" = false ->
  md_pass (pre ++ md_image alt (c :: path) ++ post)
  = pre ++ "![" ++ alt ++ "](https://docs.astro.build/"
    ++ Str.lstrip_by is_marker (c :: path) ++ ")" ++ md_pass post
  /\ (Str.contains (md_image alt (c :: path)) "import" = false ->
      without "<" alt = true -> without "<" (c :: path) = true ->
      process_image_paths (md_image alt (c :: path))
      = "![" ++ alt ++ "](https://docs.astro.build/"
        ++ Str.lstrip_by is_marker (c :: path) ++ ")").
Proof.
  intros Ha1 Ha2 Hc Hp1 Hp2 Hpre.
  rewrite <- image_link_text.
  change ("![" ++ alt ++ "](https://docs.astro.build/"
          ++ Str.lstrip_by is_marker (c :: path) ++ ")")
    with (image_link alt (Str.lstrip_by is_marker (c :: path))).
  assert (Hin : forall pre' post',
            Str.contains pre' "![" = false ->
            md_pass (pre' ++ md_image alt (c :: path) ++ post')
            = pre' ++ image_link alt (Str.lstrip_by is_marker (c :: path))
              ++ md_pass post').
  { intros pre' post' Hpre'. unfold md_pass.
    rewrite sub_first_match
      with (res := {| prev := Some ")"%char; rest := post';
                      caps := [(2, c :: path); (1, alt)] |}).
    - unfold md_replace, group_or_empty, group. simpl lookup.
      now rewrite normalize_path_lstrip.
    - reflexivity.
    - exact md_replace_caps.
    - discriminate.
    - intros b q Hs Hb. unfold match_here, md_pattern.
      rewrite rmatch_seqs_cons. apply lit_none. unfold init, rest.
      rewrite md_image_app.
      change ("![" ++ alt ++ "](" ++ c :: path ++ ")" ++ post')
        with ("!"%char :: "[" ++ alt ++ "](" ++ c :: path ++ ")" ++ post').
      now apply (@no_earlier_start pre' b _ "[" "!"%char).
    - intros q. rewrite md_image_app. now apply md_pattern_matches.
    - reflexivity. }
  split; [now apply Hin|].
  intros Hi Hl1 Hl2. unfold process_image_paths.
  rewrite (mdx_pass_unchanged _ Hi).
  pose proof (Hin [] [] eq_refl) as H0.
  rewrite !app_nil_l, app_nil_r in H0. rewrite H0.
  change (md_pass []) with (@nil ascii). rewrite app_nil_r.
  apply component_pass_unchanged, contains_without.
  unfold image_link. rewrite !without_app, Hl1.
  assert (Hl : without "<" (Str.lstrip_by is_marker (c :: path)) = true)
    by (unfold without; now apply forallb_lstrip).
  rewrite Hl. reflexivity.
Qed.

Lemma relative_image_becomes_absolute_witness :
  md_pass ("See " ++ md_image "logo" "./assets/logo.svg" ++ " here.")
  = "See ![logo](https://docs.astro.build/assets/logo.svg)" ++ md_pass " here."
  /\ (Str.contains (md_image "logo" "./assets/logo.svg") "import" = false ->
      without "<" "logo" = true -> without "<" "./assets/logo.svg" = true ->
      process_image_paths (md_image "logo" "./assets/logo.svg")
      = "![logo](https://docs.astro.build/assets/logo.svg)").
Proof.
  apply (@relative_image_becomes_absolute "See " "logo" "."%char
           "/assets/logo.svg" " here."); reflexivity.
Defined.

(** ** Image components *)

Lemma image_component_app (ws1 src ws2 alt attrs post : str) :
  image_component ws1 src ws2 alt attrs ++ post
  = "<Image" ++ ws1 ++ "src={" ++ src ++ "}"%char :: ws2 ++ "alt=" ++ dq :: alt
    ++ dq :: attrs ++ ">"%char :: post.
Proof.
  unfold image_component.
  repeat (rewrite <- ?app_assoc, <- ?app_comm_cons). reflexivity.
Qed.

Lemma cls_not_char (x c : ascii) :
  cls_has true [IChar x] c = negb (Ascii.eqb c x).
Proof. unfold cls_has. simpl. now rewrite orb_false_r. Qed.

Lemma component_pattern_matches (q : option ascii)
    (ws1 src ws2 alt attrs post : str) :
  run_of Str.isspace ws1 -> run_of (fun c => negb (Ascii.eqb c "}")) src ->
  run_of Str.isspace ws2 -> run_of (fun c => negb (Ascii.eqb c dq)) alt ->
  without ">" attrs = true ->
  match_here no_flags component_pattern q
    (image_component ws1 src ws2 alt attrs ++ post)
  = Some {| prev := Some ">"%char; rest := post;
            caps := [(2, alt); (1, src)] |}.
Proof.
  intros [N1 A1] [N2 A2] [N3 A3] [N4 A4] A5.
  rewrite image_component_app.
  unfold match_here, component_pattern.
  rewrite rmatch_seqs_cons.
  rewrite lit_ok
    with (r := ws1 ++ "src={" ++ src ++ "}"%char :: ws2 ++ "alt=" ++ dq :: alt
               ++ dq :: attrs ++ ">"%char :: post)
    by reflexivity.
  rewrite rmatch_seqs_cons.
  eapply plus_greedy_run with (p := cls_has false [ISpace]) (w := ws1);
    [intros; apply cls_step | exact N1 | reflexivity
    | rewrite (forallb_eq _ _ _ cls_space); exact A1
    | reflexivity |].
  rewrite rmatch_seqs_cons.
  rewrite lit_ok
    with (r := src ++ "}"%char :: ws2 ++ "alt=" ++ dq :: alt
               ++ dq :: attrs ++ ">"%char :: post)
    by reflexivity.
  rewrite rmatch_seqs_cons.
  eapply group_plus_greedy_run
    with (p := cls_has true [IChar "}"%char]) (w := src);
    [intros; apply cls_step | exact N2 | reflexivity
    | rewrite (forallb_eq _ _ _ (cls_not_char "}")); exact A2
    | reflexivity |].
  rewrite rmatch_seqs_cons.
  change (rmatch no_flags (Chr "}")) with (step (Ascii.eqb "}")).
  unfold step at 1. cbn [rest advance set_cap]. cbn [Ascii.eqb Bool.eqb andb].
  rewrite rmatch_seqs_cons.
  eapply plus_greedy_run with (p := cls_has false [ISpace]) (w := ws2);
    [intros; apply cls_step | exact N3 | reflexivity
    | rewrite (forallb_eq _ _ _ cls_space); exact A3
    | reflexivity |].
  rewrite rmatch_seqs_cons.
  rewrite lit_ok with (r := dq :: alt ++ dq :: attrs ++ ">"%char :: post)
    by reflexivity.
  rewrite rmatch_seqs_cons.
  change (rmatch no_flags (Chr dq)) with (step (Ascii.eqb dq)).
  unfold step at 1. cbn [rest advance set_cap].
  rewrite Ascii.eqb_refl.
  rewrite rmatch_seqs_cons.
  eapply group_plus_greedy_run
    with (p := cls_has true [IChar dq]) (w := alt);
    [intros; apply cls_step | exact N4 | reflexivity
    | rewrite (forallb_eq _ _ _ (cls_not_char dq)); exact A4
    | reflexivity |].
  rewrite rmatch_seqs_cons.
  change (rmatch no_flags (Chr dq)) with (step (Ascii.eqb dq)).
  unfold step at 1. cbn [rest advance set_cap].
  rewrite Ascii.eqb_refl.
  rewrite rmatch_seqs_cons, rmatch_Star.
  eapply star_greedy_run with (p := cls_has true [IChar ">"%char]) (w := attrs);
    [intros; apply cls_step | reflexivity
    | rewrite (forallb_eq _ _ _ (cls_not_char ">")); exact A5
    | reflexivity |].
  rewrite rmatch_seqs_cons.
  change (rmatch no_flags (Chr ">")) with (step (Ascii.eqb ">")).
  unfold step. cbn [rest advance set_cap caps prev].
  rewrite Ascii.eqb_refl. reflexivity.
Qed.

Lemma component_replace_caps (s1 s2 : mstate) :
  caps s1 = caps s2 -> component_replace s1 = component_replace s2.
Proof.
  intros H. unfold component_replace, group_or_empty, group. now rewrite H.
Qed.

(** X13: in a text that holds no [<Image] before it, a component
    [<Image src={SRC} alt=QaltQ ATTRS>], [SRC] without a closing brace,
    [alt] without a double quote, [ATTRS] without [>], is replaced by
    [![alt](https://docs.astro.build/PATH)], where [PATH] is [SRC]
    stripped of braces, of quotes and then of its leading [.], [/] and
    [~], and the pass goes on after the tag; a document that is one such
    tag, in which the other two passes find nothing, leaves
    [process_image_paths] as that link. *)
Theorem image_component_becomes_image_link
    (pre ws1 src ws2 alt attrs post : str) :
  run_of Str.isspace ws1 -> run_of (fun c => negb (Ascii.eqb c "}")) src ->
  run_of Str.isspace ws2 -> run_of (fun c => negb (Ascii.eqb c dq)) alt ->
  without ">" attrs = true ->
  Str.contains pre "<Image" = false ->
  let link :=
    "![" ++ alt ++ "](https://docs.astro.build/"
    ++ Str.lstrip_by is_marker
         (Str.strip_chars [dq; sq] (Str.strip_chars "{}" src))
    ++ ")" in
  component_pass (pre ++ image_component ws1 src ws2 alt attrs ++ post)
  = pre ++ link ++ component_pass post
  /\ (Str.contains (image_component ws1 src ws2 alt attrs) "import" = false ->
      targets_satisfy starts_with_h_t_p (image_component ws1 src ws2 alt attrs)
      = true ->
      process_image_paths (image_component ws1 src ws2 alt attrs) = link).
Proof.
  intros H1 H2 H3 H4 H5 Hpre link.
  assert (Elink : link
                  = image_link alt
                      (Str.lstrip_by is_marker
                         (Str.strip_chars [dq; sq] (Str.strip_chars "{}" src))))
    by reflexivity.
  clearbody link. subst link.
  set (link := image_link alt _).
  assert (Hin : forall pre' post',
            Str.contains pre' "<Image" = false ->
            component_pass (pre' ++ image_component ws1 src ws2 alt attrs ++ post')
            = pre' ++ link ++ component_pass post').
  { intros pre' post' Hpre'. unfold component_pass.
    rewrite sub_first_match
      with (res := {| prev := Some ">"%char; rest := post';
                      caps := [(2, alt); (1, src)] |}).
    - unfold component_replace, group_or_empty, group. simpl lookup.
      now rewrite normalize_path_lstrip.
    - reflexivity.
    - exact component_replace_caps.
    - discriminate.
    - intros b q Hs Hb. unfold match_here, component_pattern.
      rewrite rmatch_seqs_cons. apply lit_none. unfold init, rest.
      rewrite image_component_app.
      change ("<Image" ++ ?x) with ("<"%char :: "Image" ++ x).
      now apply (@no_earlier_start pre' b _ "Image" "<"%char).
    - intros q. now apply component_pattern_matches.
    - reflexivity. }
  split; [now apply Hin|].
  intros Hi Ht. unfold process_image_paths.
  rewrite (mdx_pass_unchanged _ Hi), (md_pass_unchanged _ Ht).
  pose proof (Hin [] [] eq_refl) as H0.
  rewrite !app_nil_l, app_nil_r in H0. rewrite H0.
  change (component_pass []) with (@nil ascii). apply app_nil_r.
Qed.

Lemma image_component_becomes_image_link_witness :
  let link := "![Logo](https://docs.astro.build/assets/logo.png)" in
  component_pass
    ("<p>" ++ image_component " " "'../assets/logo.png'" " " "Logo" " /" ++ "</p>")
  = "<p>" ++ link ++ component_pass "</p>"
  /\ (Str.contains (image_component " " "'../assets/logo.png'" " " "Logo" " /")
        "import" = false ->
      targets_satisfy starts_with_h_t_p
        (image_component " " "'../assets/logo.png'" " " "Logo" " /") = true ->
      process_image_paths
        (image_component " " "'../assets/logo.png'" " " "Logo" " /") = link).
Proof.
  apply (@image_component_becomes_image_link "<p>" " " "'../assets/logo.png'"
           " " "Logo" " /" "</p>");
    try reflexivity; split; (discriminate || reflexivity).
Defined.

(** ** Fenced code blocks *)

Lemma rmatch_Alt fl r1 r2 k st :
  rmatch fl (Alt r1 r2) k st
  = match rmatch fl r1 k st with
    | Some x => Some x
    | None => rmatch fl r2 k st
    end.
Proof. reflexivity. Qed.

(** The state after the optional language was read. *)
Lemma opt_language_run fl (k : mstate -> option mstate)
    (language r : str) (st : mstate) (res : mstate) :
  rest st = language ++ r -> forallb isword language = true ->
  stops isword r ->
  k (match language with
     | [] => st
     | _ :: _ => set_cap 1 language (advance language r st)
     end) = Some res ->
  rmatch fl (Opt (Group 1 (Plus true word))) k st = Some res.
Proof.
  intros Hrest Hw Hstop Hk. unfold Opt. rewrite rmatch_Alt.
  destruct language as [|c language].
  - simpl in Hrest.
    replace (rmatch fl (Group 1 (Plus true word)) k st) with (@None mstate);
      [exact Hk|].
    rewrite rmatch_Group. unfold Plus, word. rewrite rmatch_Seq, cls_step.
    unfold step. rewrite Hrest. destruct r as [|x r]; [reflexivity|].
    simpl in Hstop. now rewrite cls_word, Hstop.
  - erewrite group_plus_greedy_run with (p := cls_has false [IWord])
      (w := c :: language) (r := r);
      [reflexivity | intros; apply cls_step | discriminate | exact Hrest
      | rewrite (forallb_eq _ _ _ cls_word); exact Hw
      | destruct r; [exact I | cbn [stops]; rewrite cls_word; exact Hstop]
      | exact Hk].
Qed.

(** The state after the optional attribute string was read. *)
Lemma opt_braces_run fl (k : mstate -> option mstate)
    (braces : option str) (r : str) (st : mstate) (res : mstate) :
  rest st = brace_text braces ++ r ->
  match braces with
  | Some attributes => without "}" attributes = true
  | None => Str.startswith r "{" = false
  end ->
  k (match braces with
     | Some attributes =>
         {| prev := Some "}"%char; rest := r;
            caps := (2, attributes) :: caps st |}
     | None => st
     end) = Some res ->
  rmatch fl (Opt (seqs [Chr "{"; Group 2 (Star true (none_of "}")); Chr "}"]))
    k st = Some res.
Proof.
  intros Hrest Hb Hk. unfold Opt. rewrite rmatch_Alt, rmatch_seqs_cons.
  change (rmatch fl (Chr "{")) with (step (Ascii.eqb "{")).
  destruct braces as [attributes|].
  - assert (E : rest st = "{"%char :: attributes ++ "}"%char :: r).
    { rewrite Hrest. unfold brace_text.
      repeat (rewrite <- ?app_assoc, <- ?app_comm_cons). reflexivity. }
    unfold step at 1. rewrite E. rewrite Ascii.eqb_refl.
    rewrite rmatch_seqs_cons, rmatch_Group, rmatch_Star.
    erewrite star_greedy_run with (p := cls_has true [IChar "}"%char])
      (w := attributes) (r := "}"%char :: r);
      [reflexivity | intros; apply cls_step | reflexivity
      | rewrite (forallb_eq _ _ _ (cls_not_char "}")); exact Hb
      | reflexivity |].
    rewrite consumed_advance by reflexivity.
    rewrite rmatch_seqs_cons.
    change (rmatch fl (Chr "}")) with (step (Ascii.eqb "}")).
    unfold step. cbn [rest advance set_cap caps prev].
    rewrite Ascii.eqb_refl. exact Hk.
  - simpl in Hrest. unfold step at 1. rewrite Hrest.
    destruct r as [|x r]; [exact Hk|].
    simpl in Hb. rewrite Ascii.eqb_sym.
    destruct (Ascii.eqb x "{"); [discriminate | exact Hk].
Qed.

Lemma not_word_backtick : isword "`" = false.
Proof. reflexivity. Qed.

Lemma stops_app (p : ascii -> bool) (a b : str) :
  stops p a -> stops p b -> stops p (a ++ b).
Proof. destruct a; simpl; auto. Qed.

Lemma any_dotall (a : str) : forallb (any_has DOTALL) a = true.
Proof. induction a; simpl; auto. Qed.

(** At a fenced block the pattern matches the whole block: the language in
    group 1, the attribute string in group 2, the code in group 3. *)
Lemma code_pattern_matches (q : option ascii) (language ws1 : str)
    (braces : option str) (ws2 code post : str) :
  forallb isword language = true ->
  stops isword (ws1 ++ brace_text braces ++ ws2 ++ code ++ fence ++ post) ->
  forallb Str.isspace ws1 = true ->
  stops Str.isspace (brace_text braces ++ ws2 ++ code ++ fence ++ post) ->
  match braces with
  | Some attributes => without "}" attributes = true
  | None => Str.startswith (ws2 ++ code ++ fence ++ post) "{" = false
  end ->
  forallb Str.isspace ws2 = true ->
  stops Str.isspace (code ++ fence ++ post) ->
  without "`" code = true ->
  match_here DOTALL code_pattern q
    (fence ++ language ++ ws1 ++ brace_text braces ++ ws2 ++ code ++ fence
     ++ post)
  = Some {| prev := Some "`"%char; rest := post;
            caps := (3, code)
                    :: match braces with
                       | Some attributes => [(2, attributes)]
                       | None => []
                       end
                    ++ match language with
                       | [] => []
                       | _ :: _ => [(1, language)]
                       end |}.
Proof.
  intros Hl Hl' Hw1 Hw1' Hb Hw2 Hw2' Hc.
  unfold match_here, code_pattern.
  rewrite rmatch_seqs_cons.
  rewrite lit_ok
    with (r := language ++ ws1 ++ brace_text braces ++ ws2 ++ code ++ fence
               ++ post)
    by reflexivity.
  rewrite rmatch_seqs_cons.
  eapply opt_language_run
    with (language := language)
         (r := ws1 ++ brace_text braces ++ ws2 ++ code ++ fence ++ post);
    [reflexivity | exact Hl | exact Hl' |].
  match goal with
  | |- rmatch _ _ _ ?st = _ => set (st1 := st)
  end.
  assert (E1 : rest st1
               = ws1 ++ brace_text braces ++ ws2 ++ code ++ fence ++ post).
  { subst st1. now destruct language. }
  rewrite rmatch_seqs_cons, rmatch_Star.
  eapply star_greedy_run with (p := cls_has false [ISpace]) (w := ws1);
    [intros; apply cls_step | exact E1
    | rewrite (forallb_eq _ _ _ cls_space); exact Hw1
    | destruct (brace_text braces ++ ws2 ++ code ++ fence ++ post);
        [exact I | cbn [stops] in *; now rewrite cls_space] |].
  rewrite rmatch_seqs_cons.
  eapply opt_braces_run
    with (braces := braces) (r := ws2 ++ code ++ fence ++ post);
    [reflexivity | exact Hb |].
  match goal with
  | |- rmatch _ _ _ ?st = _ => set (st2 := st)
  end.
  assert (E2 : rest st2 = ws2 ++ code ++ fence ++ post).
  { subst st2. now destruct braces. }
  rewrite rmatch_seqs_cons, rmatch_Star.
  eapply star_greedy_run with (p := cls_has false [ISpace]) (w := ws2);
    [intros; apply cls_step | exact E2
    | rewrite (forallb_eq _ _ _ cls_space); exact Hw2
    | destruct (code ++ fence ++ post);
        [exact I | cbn [stops] in *; now rewrite cls_space] |].
  rewrite rmatch_seqs_cons, rmatch_Group, rmatch_Star.
  eapply star_lazy_run with (p := any_has DOTALL) (w := code);
    [reflexivity | reflexivity | apply any_dotall | |].
  - intros w1 w2 E Hne. rewrite rmatch_seqs_cons. apply lit_none.
    cbn [rest set_cap advance]. destruct w2 as [|x w2]; [contradiction|].
    rewrite E, without_app in Hc. apply andb_true_iff in Hc as [_ Hc].
    apply without_head in Hc. simpl. rewrite Ascii.eqb_sym, Hc. reflexivity.
  - rewrite consumed_advance by reflexivity.
    rewrite rmatch_seqs_cons.
    rewrite lit_ok with (r := post) by reflexivity.
    subst st2 st1. destruct language, braces; reflexivity.
Qed.

Lemma fenced_block_app (language ws1 : str) (braces : option str)
    (ws2 code post : str) :
  fenced_block language ws1 braces ws2 code ++ post
  = fence ++ language ++ ws1 ++ brace_text braces ++ ws2 ++ code ++ fence
    ++ post.
Proof. unfold fenced_block. now rewrite <- !app_assoc. Qed.

Lemma code_replace_caps (s1 s2 : mstate) :
  caps s1 = caps s2 -> code_replace s1 = code_replace s2.
Proof.
  intros H. unfold code_replace, group_or_empty, group. now rewrite H.
Qed.

Lemma without_suffix (c : ascii) (b a : str) :
  suffix b a -> without c a = true -> without c b = true.
Proof.
  intros [p ->] H. rewrite without_app in H.
  now apply andb_true_iff in H as [_ H].
Qed.

Lemma stops_before_fence (p : ascii -> bool) (a t : str) :
  p "`"%char = false -> stops p a -> stops p (a ++ fence ++ t).
Proof. intros Hp Ha. destruct a; [exact Hp | exact Ha]. Qed.

Lemma not_brace_before_fence (a t : str) :
  Str.startswith a "{" = false -> Str.startswith (a ++ fence ++ t) "{" = false.
Proof. intros H. destruct a; [reflexivity | exact H]. Qed.

(** X14: a fenced block, before which the text holds no backquote, is
    replaced by what [replace] builds from its language, its attribute
    string and its code, and the pass goes on after the closing fence.
    The attribute string is whatever stands between braces after the
    language and white space, on the same line or not. *)
Theorem fenced_block_is_replaced
    (pre language ws1 : str) (braces : option str) (ws2 code post : str) :
  forallb isword language = true ->
  stops isword (ws1 ++ brace_text braces ++ ws2 ++ code) ->
  forallb Str.isspace ws1 = true ->
  stops Str.isspace (brace_text braces ++ ws2 ++ code) ->
  match braces with
  | Some attributes => without "}" attributes = true
  | None => Str.startswith (ws2 ++ code) "{" = false
  end ->
  forallb Str.isspace ws2 = true ->
  stops Str.isspace code ->
  without "`" code = true ->
  without "`" pre = true ->
  preprocess_code_blocks
    (pre ++ fenced_block language ws1 braces ws2 code ++ post)
  = pre
    ++ code_block_html language
         (match braces with Some attributes => attributes | None => [] end)
         code
    ++ preprocess_code_blocks post.
Proof.
  intros Hl Hl' Hw1 Hw1' Hb Hw2 Hw2' Hc Hpre.
  unfold preprocess_code_blocks.
  rewrite sub_first_match
    with (res := {| prev := Some "`"%char; rest := post;
                    caps := (3, code)
                            :: match braces with
                               | Some attributes => [(2, attributes)]
                               | None => []
                               end
                            ++ match language with
                               | [] => []
                               | _ :: _ => [(1, language)]
                               end |}).
  - f_equal. f_equal. unfold code_block_html.
    destruct language, braces; reflexivity.
  - reflexivity.
  - exact code_replace_caps.
  - discriminate.
  - intros b q Hs Hne. unfold match_here, code_pattern.
    rewrite rmatch_seqs_cons. apply lit_none. unfold init, rest.
    destruct b as [|x b]; [contradiction|].
    pose proof (@without_suffix "`"%char (x :: b) pre Hs Hpre) as Hx.
    apply without_head in Hx.
    simpl. now rewrite Ascii.eqb_sym, Hx.
  - intros q. rewrite fenced_block_app. apply code_pattern_matches;
      try assumption.
    + replace (ws1 ++ brace_text braces ++ ws2 ++ code ++ fence ++ post)
        with ((ws1 ++ brace_text braces ++ ws2 ++ code) ++ fence ++ post)
        by (now rewrite <- !app_assoc).
      now apply stops_before_fence.
    + replace (brace_text braces ++ ws2 ++ code ++ fence ++ post)
        with ((brace_text braces ++ ws2 ++ code) ++ fence ++ post)
        by (now rewrite <- !app_assoc).
      now apply stops_before_fence.
    + destruct braces; [exact Hb|].
      replace (ws2 ++ code ++ fence ++ post)
        with ((ws2 ++ code) ++ fence ++ post)
        by (now rewrite <- !app_assoc).
      now apply not_brace_before_fence.
    + now apply stops_before_fence.
  - reflexivity.
Qed.

Lemma fenced_block_is_replaced_witness :
  preprocess_code_blocks
    ("Config:" ++ [nl]
     ++ fenced_block "js" [nl] (Some (" port: 80 " : str)) [nl] "start()"
     ++ [nl] ++ "Done.")
  = "Config:" ++ [nl]
    ++ code_block_html "js" " port: 80 " "start()"
    ++ preprocess_code_blocks ([nl] ++ "Done.").
Proof.
  apply (@fenced_block_is_replaced ("Config:" ++ [nl]) "js" [nl]
           (Some (" port: 80 " : str)) [nl] "start()" ([nl] ++ "Done."));
    reflexivity.
Defined.

Lemma title_search_none (attributes : str) :
  Str.contains attributes "title=" = false ->
  search no_flags title_attr_pattern attributes = None.
Proof.
  intros H. unfold search. rewrite search_from_none; [reflexivity|].
  intros b q Hs. unfold match_here, title_attr_pattern.
  rewrite rmatch_seqs_cons. apply lit_none. unfold init, rest.
  eapply contains_suffix; eassumption.
Qed.

(** X15: [replace] keeps of the attribute string its title only: when the
    string holds no [title=], the block comes out with the header of its
    language, if it has one, and its stripped code, and the attribute
    string is gone.  With X14: a block whose code opens with a brace group,
    on the line after the fence, loses that group. *)
Theorem attributes_without_title_are_dropped
    (language attributes code_block : str) :
  Str.contains attributes "title=" = false ->
  code_block_html language attributes code_block
  = match language with
    | [] => []
    | _ :: _ => language_header language
    end
    ++ [nl] ++ fence ++ language ++ [nl] ++ Str.strip code_block ++ [nl]
    ++ fence.
Proof.
  intros H. unfold code_block_html, code_replace, group_or_empty, group.
  simpl lookup. cbv zeta. cbv iota beta.
  rewrite (title_search_none _ H).
  destruct attributes, language; reflexivity.
Qed.

Lemma attributes_without_title_are_dropped_witness :
  code_block_html "js" " port: 80 " "start()"
  = language_header "js"
    ++ [nl] ++ fence ++ "js" ++ [nl] ++ Str.strip "start()" ++ [nl] ++ fence.
Proof.
  apply (@attributes_without_title_are_dropped "js" " port: 80 " "start()").
  reflexivity.
Defined.

(** X16: a text without a fence comes out of [preprocess_code_blocks]
    unchanged. *)
Theorem text_without_fence_is_kept (md_content : str) :
  Str.contains md_content fence = false ->
  preprocess_code_blocks md_content = md_content.
Proof.
  intros H. unfold preprocess_code_blocks. apply sub_no_match.
  intros b q Hs. unfold match_here, code_pattern.
  rewrite rmatch_seqs_cons. apply lit_none. unfold init, rest.
  eapply contains_suffix; eassumption.
Qed.

Lemma text_without_fence_is_kept_witness :
  preprocess_code_blocks "Use `npm run dev` to start." = "Use `npm run dev` to start.".
Proof.
  apply (@text_without_fence_is_kept "Use `npm run dev` to start.").
  reflexivity.
Defined.

(** ** Splitting the frontmatter off *)

Lemma split_without (sep : ascii) (a : str) :
  without sep a = true -> Str.split sep a = [a].
Proof.
  induction a as [|c a IH]; simpl; intros H; [reflexivity|].
  apply andb_true_iff in H as [Hc Ha]. apply negb_true_iff in Hc.
  now rewrite Hc, (IH Ha).
Qed.

Lemma split_join_lines (sep : ascii) (l : list str) :
  l <> [] -> forallb (without sep) l = true ->
  Str.split sep (Str.join [sep] l) = l.
Proof.
  induction l as [|p l IH]; intros Hne Hl; [contradiction|].
  simpl in Hl. apply andb_true_iff in Hl as [Hp Hl].
  destruct l as [|q l].
  - simpl. now apply split_without.
  - change (Str.join [sep] (p :: q :: l))
      with (p ++ sep :: Str.join [sep] (q :: l)).
    rewrite split_app_sep, IH, (split_without _ _ Hp); [reflexivity | | exact Hl].
    discriminate.
Qed.

Lemma index_first (l r : list str) (x : str) :
  ~ In x l -> Str.index (l ++ x :: r) x = Some (length l).
Proof.
  induction l as [|y l IH]; intros H; simpl.
  - now rewrite Str_eqb_refl.
  - assert (Hy : Str.eqb y x = false).
    { apply Str_eqb_neq. intros ->. apply H. now left. }
    rewrite Hy, IH; [reflexivity|]. intros Hin. apply H. now right.
Qed.

Lemma i18n_pass_unchanged (a : str) :
  Str.contains a "i18nReady:" = false ->
  sub no_flags i18n_pattern (fun _ => []) a = a.
Proof.
  intros H. apply sub_no_match. intros b q Hs.
  unfold match_here, i18n_pattern. rewrite rmatch_seqs_cons.
  apply rmatch_none. intros st1 Hs1. rewrite rmatch_seqs_cons.
  apply lit_none. eapply contains_suffix; [exact H|].
  eapply suffix_trans; [exact Hs1 | exact Hs].
Qed.

Lemma block_scalar_pass_unchanged (a : str) :
  without "|" a = true ->
  sub no_flags block_scalar_pattern (fun _ => ": ") a = a.
Proof.
  intros H. apply sub_no_match. intros b q Hs.
  unfold match_here, block_scalar_pattern. rewrite rmatch_seqs_cons.
  apply rmatch_none. intros st1 Hs1. rewrite rmatch_seqs_cons.
  apply rmatch_none. intros st2 Hs2. rewrite rmatch_seqs_cons.
  change (rmatch no_flags (Chr "|")) with (step (Ascii.eqb "|")).
  unfold step. destruct (rest st2) as [|x r] eqn:E; [reflexivity|].
  assert (Hx : without "|" (x :: r) = true).
  { apply (@without_suffix "|"%char (x :: r) a); [|exact H].
    eapply suffix_trans; [exact Hs2|].
    eapply suffix_trans; [exact Hs1 | exact Hs]. }
  apply without_head in Hx. now rewrite Hx.
Qed.

(** X17: a document made of an opening line that strips to the marker, the
    lines of the frontmatter, none of them the marker, a closing marker
    line and the lines of the body is split into the cleaned frontmatter
    and the body; the cleaning leaves a frontmatter without [i18nReady:]
    and without a vertical bar as it is. *)
Theorem frontmatter_is_split_off (first : str) (fm body : list str) :
  Str.strip first = marker -> without nl first = true ->
  forallb (without nl) fm = true -> forallb (without nl) body = true ->
  ~ In marker fm ->
  parse_frontmatter (lines (first :: fm ++ marker :: body))
  = (Some (clean_frontmatter (lines fm)), lines body)
  /\ (Str.contains (lines fm) "i18nReady:" = false ->
      without "|" (lines fm) = true ->
      parse_frontmatter (lines (first :: fm ++ marker :: body))
      = (Some (lines fm), lines body)).
Proof.
  intros Hfirst Hn1 Hfm Hbody Hmark.
  assert (E : parse_frontmatter (lines (first :: fm ++ marker :: body))
              = (Some (clean_frontmatter (lines fm)), lines body)).
  { unfold parse_frontmatter, lines. rewrite split_join_lines.
    - rewrite Hfirst, Str_eqb_refl, (@index_first fm body marker Hmark).
      replace (length fm + 1 - 1) with (length fm) by lia.
      rewrite firstn_app, firstn_all, Nat.sub_diag. simpl firstn.
      rewrite app_nil_r.
      replace (length fm + 1 + 1) with (S (length fm + 1)) by lia.
      cbn [skipn]. rewrite skipn_app, skipn_all2 by lia.
      replace (length fm + 1 - length fm) with 1 by lia. reflexivity.
    - discriminate.
    - simpl. rewrite Hn1, forallb_app, Hfm. simpl. now rewrite Hbody. }
  split; [exact E|]. intros Hi Hb. rewrite E. unfold clean_frontmatter.
  now rewrite (i18n_pass_unchanged _ Hi), (block_scalar_pass_unchanged _ Hb).
Qed.

Lemma frontmatter_is_split_off_witness :
  parse_frontmatter
    (lines (("--- " : str)
            :: ["title: Setup" : str; "description: How to install" : str]
            ++ marker :: ["# Setup" : str; "Run it." : str]))
  = (Some (lines ["title: Setup" : str; "description: How to install" : str]),
     lines ["# Setup" : str; "Run it." : str]).
Proof.
  apply (@frontmatter_is_split_off "--- "
           ["title: Setup" : str; "description: How to install" : str]
           ["# Setup" : str; "Run it." : str]);
    try reflexivity.
  intros [H|[H|[]]]; discriminate H.
Defined.

(** ** Metadata *)

Lemma dict_get_set_same (d : dict) (k v : str) :
  dict_get (dict_set d k v) k = Some v.
Proof.
  induction d as [|[k' v'] d IH]; simpl.
  - now rewrite Str_eqb_refl.
  - destruct (Str.eqb k' k) eqn:E; simpl; now rewrite E.
Qed.

Lemma dict_get_set_other (d : dict) (k v k' : str) :
  k' <> k -> dict_get (dict_set d k v) k' = dict_get d k'.
Proof.
  intros H. induction d as [|[k0 v0] d IH]; simpl.
  - assert (E : Str.eqb k k' = false) by (apply Str_eqb_neq; congruence).
    now rewrite E.
  - destruct (Str.eqb k0 k) eqn:E; simpl.
    + apply Str_eqb_eq in E. subst k0.
      assert (E' : Str.eqb k k' = false) by (apply Str_eqb_neq; congruence).
      now rewrite E'.
    + now rewrite IH.
Qed.

Lemma dict_get_absent (d : dict) (k : str) :
  ~ In k (map fst d) -> dict_get d k = None.
Proof.
  induction d as [|[k0 v0] d IH]; simpl; intros H; [reflexivity|].
  assert (E : Str.eqb k0 k = false) by (apply Str_eqb_neq; intros ->; auto).
  rewrite E. apply IH. intros Hin. apply H. now right.
Qed.

(** After [update], a key of the other mapping has the other mapping's
    value, and any other key keeps its own. *)
Lemma dict_get_update (other : dict) :
  NoDup (map fst other) ->
  forall (d : dict) (k : str),
    dict_get (dict_update d other) k
    = match dict_get other k with
      | Some v => Some v
      | None => dict_get d k
      end.
Proof.
  unfold dict_update.
  induction other as [|[k0 v0] other IH]; intros Hnd d k; [reflexivity|].
  simpl in Hnd. inversion Hnd as [|? ? Hout Hnd']; subst.
  cbn [fold_left fst snd dict_get]. rewrite (IH Hnd').
  destruct (Str.eqb k0 k) eqn:E.
  - apply Str_eqb_eq in E. subst k0.
    now rewrite (dict_get_absent _ _ Hout), dict_get_set_same.
  - apply Str_eqb_neq in E. destruct (dict_get other k); [reflexivity|].
    apply dict_get_set_other. congruence.
Qed.

Lemma dict_update_nil (other : dict) :
  dict_update [] other = [] <-> other = [].
Proof.
  split; [|now intros ->].
  destruct other as [|[k v] other]; [reflexivity|]. intros H. exfalso.
  unfold dict_update in H. simpl in H.
  exact (dict_update_not_nil other (d := [(k, v)]) ltac:(discriminate) H).
Qed.

Section MetadataFacts.

Variable yaml_safe_load : str -> option dict.

(** X18: [safe_load_frontmatter] returns nothing exactly when the
    frontmatter is empty, or when neither field pattern matches and the
    YAML parser gives no mapping or an empty one. *)
Theorem safe_load_frontmatter_none_iff (frontmatter_content : str) :
  safe_load_frontmatter yaml_safe_load frontmatter_content = None
  <-> frontmatter_content = []
      \/ (search MULTILINE (field_pattern "title") frontmatter_content = None
          /\ search MULTILINE (field_pattern "description") frontmatter_content
             = None
          /\ (yaml_safe_load (cleaned_content frontmatter_content) = None
              \/ yaml_safe_load (cleaned_content frontmatter_content)
                 = Some [])).
Proof.
  unfold safe_load_frontmatter, cleaned_content.
  destruct frontmatter_content as [|c fm]; [split; auto|].
  set (a := c :: fm).
  destruct (search MULTILINE (field_pattern "title") a) as [mt|].
  - set (md0 := dict_set [] "title" _).
    set (md1 := match search MULTILINE (field_pattern "description") a with
                | Some m0 => _ | None => md0 end).
    assert (H1 : md1 <> []).
    { subst md1. destruct (search MULTILINE (field_pattern "description") a);
        apply dict_set_not_nil. }
    split.
    + destruct (yaml_safe_load _) as [parsed|].
      * pose proof (dict_update_not_nil parsed H1) as H2.
        destruct (dict_update md1 parsed); [contradiction | discriminate].
      * destruct md1; [contradiction | discriminate].
    + intros [H|[H _]]; discriminate.
  - destruct (search MULTILINE (field_pattern "description") a) as [md|].
    + split.
      * destruct (yaml_safe_load _) as [parsed|].
        -- pose proof (@dict_update_not_nil parsed
                         (dict_set [] "description"
                            (Str.strip_chars [" "%char; sq; dq]
                               (group_or_empty md 1)))
                         (@dict_set_not_nil _ _ _)) as H2.
           destruct (dict_update _ parsed); [contradiction | discriminate].
        -- discriminate.
      * intros [H|[_ [H _]]]; discriminate.
    + destruct (yaml_safe_load _) as [parsed|].
      * destruct (dict_update [] parsed) as [|e l] eqn:E.
        -- apply (proj1 (dict_update_nil parsed)) in E. subst parsed.
           split; [intros _; right; auto | reflexivity].
        -- split; [discriminate|].
           intros [H|[_ [_ [H|H]]]]; try discriminate.
           injection H as ->. discriminate.
      * split; [intros _; right; auto | reflexivity].
Qed.

(** X19: the fields of the YAML mapping take precedence over the fields
    read by the two patterns: in the metadata returned, a key of the
    mapping has the mapping's value, and a key outside the mapping is
    absent unless it is [title] or [description]. *)
Theorem yaml_fields_take_precedence
    (frontmatter_content : str) (parsed_data metadata : dict) :
  yaml_safe_load (cleaned_content frontmatter_content) = Some parsed_data ->
  NoDup (map fst parsed_data) ->
  safe_load_frontmatter yaml_safe_load frontmatter_content = Some metadata ->
  (forall key value,
     dict_get parsed_data key = Some value ->
     dict_get metadata key = Some value)
  /\ (forall key,
        dict_get parsed_data key = None ->
        key <> "title" -> key <> "description" ->
        dict_get metadata key = None).
Proof.
  intros Hy Hnd. unfold safe_load_frontmatter.
  destruct frontmatter_content as [|c fm]; [discriminate|].
  fold (cleaned_content (c :: fm)). rewrite Hy.
  set (md1 := match search MULTILINE (field_pattern "description") _ with
              | Some m0 => _ | None => _ end).
  intros H.
  assert (E : dict_update md1 parsed_data = metadata).
  { destruct (dict_update md1 parsed_data); [discriminate | now injection H]. }
  subst metadata. split.
  - intros key value Hk. now rewrite (@dict_get_update parsed_data Hnd), Hk.
  - intros key Hk Ht Hd. rewrite (@dict_get_update parsed_data Hnd), Hk.
    subst md1.
    destruct (search MULTILINE (field_pattern "title") (c :: fm));
      destruct (search MULTILINE (field_pattern "description") (c :: fm));
      rewrite ?dict_get_set_other by assumption; reflexivity.
Qed.

End MetadataFacts.

Lemma yaml_fields_take_precedence_witness :
  (forall key value,
     dict_get [("title" : str, "'Intro'" : str)] key = Some value ->
     dict_get [("title" : str, "'Intro'" : str)] key = Some value)
  /\ (forall key,
        dict_get [("title" : str, "'Intro'" : str)] key = None ->
        key <> "title" -> key <> "description" ->
        dict_get [("title" : str, "'Intro'" : str)] key = None).
Proof.
  apply (@yaml_fields_take_precedence Scenario.yaml_safe_load "title: 'Intro'"
           [("title" : str, "'Intro'" : str)]
           [("title" : str, "'Intro'" : str)]).
  - vm_compute. reflexivity.
  - repeat constructor. intros [].
  - vm_compute. reflexivity.
Defined.

(** ** Anchors of the table of contents *)

Lemma string_of_uint_digits (d : Decimal.uint) :
  forallb is_digit (chars (NilEmpty.string_of_uint d)) = true.
Proof. induction d; simpl; auto. Qed.

Lemma of_nat_digits (n : nat) : forallb is_digit (Str.of_nat n) = true.
Proof. apply string_of_uint_digits. Qed.

Lemma of_nat_inj (n m : nat) : Str.of_nat n = Str.of_nat m -> n = m.
Proof.
  unfold Str.of_nat, chars. intros H.
  apply (f_equal string_of_list_ascii) in H.
  rewrite !string_of_list_ascii_of_string in H.
  apply (f_equal NilEmpty.uint_of_string) in H.
  rewrite !NilEmpty.usu in H. injection H as H.
  apply (f_equal Nat.of_uint) in H.
  now rewrite !DecimalNat.Unsigned.of_to in H.
Qed.

Lemma map_of_nat_inj (l1 l2 : list nat) :
  map Str.of_nat l1 = map Str.of_nat l2 -> l1 = l2.
Proof.
  revert l2. induction l1 as [|x l1 IH]; intros [|y l2] H; try discriminate;
    [reflexivity|].
  simpl in H. injection H as Hx Hl. apply of_nat_inj in Hx.
  now rewrite Hx, (IH _ Hl).
Qed.

Lemma digits_without (c : ascii) (a : str) :
  is_digit c = false -> forallb is_digit a = true -> without c a = true.
Proof.
  intros Hc. unfold without. induction a as [|x a IH]; simpl; intros H;
    [reflexivity|].
  apply andb_true_iff in H as [Hx Ha]. rewrite (IH Ha), andb_true_r.
  apply negb_true_iff. destruct (Ascii.eqb x c) eqn:E; [|reflexivity].
  apply Ascii.eqb_eq in E. congruence.
Qed.

Lemma dotted_inj (n1 n2 : list nat) :
  n1 <> [] -> n2 <> [] -> dotted n1 = dotted n2 -> n1 = n2.
Proof.
  intros H1 H2 H. unfold dotted in H.
  assert (S : forall n, n <> [] ->
            Str.split "." (Str.join "." (map Str.of_nat n)) = map Str.of_nat n).
  { intros n Hn. apply (@split_join_lines "."%char).
    - now destruct n.
    - apply forallb_forall. intros x Hx.
      apply in_map_iff in Hx as [m [<- _]].
      apply digits_without; [reflexivity | apply of_nat_digits]. }
  apply map_of_nat_inj. rewrite <- (S n1 H1), <- (S n2 H2). now rewrite H.
Qed.

Lemma dotted_without_space (n : list nat) : without " " (dotted n) = true.
Proof.
  unfold dotted. induction n as [|x n IH]; [reflexivity|].
  assert (Hx : without " " (Str.of_nat x) = true)
    by (apply digits_without; [reflexivity | apply of_nat_digits]).
  destruct n as [|y n]; [exact Hx|].
  change (Str.join "." (map Str.of_nat (x :: y :: n)))
    with (Str.of_nat x ++ "." ++ Str.join "." (map Str.of_nat (y :: n))).
  rewrite !without_app, Hx, IH. reflexivity.
Qed.

Lemma toc_full_title_inj (e1 e2 : toc_entry) :
  entry_numbering e1 <> [] -> entry_numbering e2 <> [] ->
  toc_full_title e1 = toc_full_title e2 ->
  entry_numbering e1 = entry_numbering e2.
Proof.
  intros H1 H2 H. apply dotted_inj; try assumption.
  unfold toc_full_title, toc_numbering in H.
  apply (f_equal (fun a => hd [] (Str.split " " a))) in H.
  change (" - " ++ entry_title e1) with (" "%char :: "- " ++ entry_title e1) in H.
  change (" - " ++ entry_title e2) with (" "%char :: "- " ++ entry_title e2) in H.
  rewrite !split_app_sep in H.
  rewrite !(split_without _ _ (dotted_without_space _)) in H.
  exact H.
Qed.

Lemma numberings_not_nil (depths : list nat) :
  forall n, Forall (fun l => l <> []) (numberings n depths).
Proof.
  induction depths as [|d depths IH]; intros n; simpl; constructor.
  - intros H. apply (f_equal (@List.length nat)) in H.
    rewrite length_firstn in H. pose proof (length_bump d n). simpl in H. lia.
  - apply IH.
Qed.

Lemma StronglySorted_NoDup (A : Type) (R : A -> A -> Prop) (l : list A) :
  (forall x, ~ R x x) -> StronglySorted R l -> NoDup l.
Proof.
  intros Hirr. induction 1 as [|a l Hs IH Hall]; constructor; [|exact IH].
  intros Hin. rewrite Forall_forall in Hall. exact (Hirr a (Hall a Hin)).
Qed.

Lemma NoDup_map_through (A B C : Type) (f : A -> B) (g : A -> C) (l : list A) :
  (forall x y, In x l -> In y l -> f x = f y -> g x = g y) ->
  NoDup (map g l) -> NoDup (map f l).
Proof.
  induction l as [|a l IH]; intros Hinj Hg; simpl; constructor.
  - simpl in Hg. inversion Hg as [|? ? Hout _]; subst. intros Hin.
    apply in_map_iff in Hin as [b [Hb Hbl]]. apply Hout.
    apply in_map_iff. exists b. split; [|exact Hbl].
    apply Hinj; [now right | now left | exact Hb].
  - simpl in Hg. inversion Hg; subst. apply IH; [|assumption].
    intros x y Hx Hy. apply Hinj; now right.
Qed.

Section AnchorFacts.

Variable yaml_safe_load : str -> option dict.
Variable markdown_markdown : str -> option str.
Variable read_file : str -> option str.
Variable cwd : str.
Variable str_title : str -> str.

(** X20: the full titles of the entries of a run, which serve as the
    anchors of the headings and as the targets of the links of the table
    of contents, are pairwise distinct, whatever the titles of the
    documents are: no two entries share an anchor, and a link has at most
    one target. *)
Theorem toc_anchors_are_distinct (files : list str) (repo_dir docs_dir : str) :
  NoDup (map toc_full_title
           (toc (process_loop yaml_safe_load markdown_markdown read_file cwd
                   str_title files repo_dir docs_dir))).
Proof.
  set (entries := toc _).
  assert (Hn : map entry_numbering entries
               = numberings [0]
                   (emit_depths yaml_safe_load read_file cwd repo_dir docs_dir
                      files))
    by apply process_loop_toc.
  apply NoDup_map_through with (g := entry_numbering).
  - pose proof (numberings_not_nil
                  (emit_depths yaml_safe_load read_file cwd repo_dir docs_dir
                     files) [0]) as Hne.
    rewrite <- Hn, Forall_forall in Hne.
    intros x y Hx Hy. apply toc_full_title_inj; apply Hne; now apply in_map.
  - rewrite Hn. apply (@StronglySorted_NoDup _ lex_lt).
    + exact lex_lt_irrefl.
    + apply Sorted_StronglySorted; [exact lex_lt_transitive|].
      apply numberings_sorted.
Qed.

End AnchorFacts.

(** ** The numbering strings of the table of contents *)

Lemma string_of_uint_nil (d : Decimal.uint) :
  NilEmpty.string_of_uint d = EmptyString -> d = Decimal.Nil.
Proof. destruct d; simpl; intros H; [reflexivity | discriminate H ..]. Qed.

Lemma revapp_nil (d d' : Decimal.uint) :
  Decimal.revapp d d' = Decimal.Nil -> d = Decimal.Nil /\ d' = Decimal.Nil.
Proof.
  revert d'. induction d; intros d' H; simpl in H; [now split | ..];
    apply IHd in H as [_ H]; discriminate H.
Qed.

Lemma to_little_uint_not_nil (n : nat) :
  forall acc, acc <> Decimal.Nil -> Nat.to_little_uint n acc <> Decimal.Nil.
Proof.
  induction n as [|n IH]; intros acc H; simpl; [exact H|].
  apply IH. now destruct acc.
Qed.

Lemma to_uint_not_nil (n : nat) : Nat.to_uint n <> Decimal.Nil.
Proof.
  unfold Nat.to_uint, Decimal.rev. intros H. apply revapp_nil in H as [H _].
  revert H. now apply to_little_uint_not_nil.
Qed.

Lemma numeral_of_nat (n : nat) : numeral (Str.of_nat n) = Some n.
Proof.
  unfold numeral, Str.of_nat, chars.
  destruct (list_ascii_of_string (NilEmpty.string_of_uint (Nat.to_uint n)))
    eqn:E.
  - exfalso. apply (f_equal string_of_list_ascii) in E.
    rewrite string_of_list_ascii_of_string in E.
    apply string_of_uint_nil in E.
    exact (@to_uint_not_nil n E).
  - rewrite <- E, string_of_list_ascii_of_string, NilEmpty.usu. simpl.
    now rewrite DecimalNat.Unsigned.of_to.
Qed.

Lemma numerals_of_nat (l : list nat) : numerals (map Str.of_nat l) = Some l.
Proof.
  induction l as [|x l IH]; simpl; [reflexivity|].
  now rewrite numeral_of_nat, IH.
Qed.

(** A numbering string reads back as the counters it was made of. *)
Lemma components_dotted (n : list nat) :
  n <> [] -> components (dotted n) = Some n.
Proof.
  intros Hn. unfold components, dotted.
  rewrite (@split_join_lines "."%char).
  - apply numerals_of_nat.
  - now destruct n.
  - apply forallb_forall. intros x Hx.
    apply in_map_iff in Hx as [m [<- _]].
    apply digits_without; [reflexivity | apply of_nat_digits].
Qed.

Lemma StronglySorted_map_through (A B C : Type)
    (R : B -> B -> Prop) (R' : C -> C -> Prop)
    (f : A -> B) (g : A -> C) (l : list A) :
  (forall x y, In x l -> In y l -> R (f x) (f y) -> R' (g x) (g y)) ->
  StronglySorted R (map f l) -> StronglySorted R' (map g l).
Proof.
  induction l as [|a l IH]; intros Hthrough Hs; simpl; constructor.
  - simpl in Hs. inversion Hs; subst. apply IH; [|assumption].
    intros x y Hx Hy. apply Hthrough; now right.
  - simpl in Hs. inversion Hs as [|? ? _ Hall]; subst.
    rewrite Forall_forall in *. intros c Hc.
    apply in_map_iff in Hc as [b [<- Hb]].
    apply Hthrough; [now left | now right |]. apply Hall. now apply in_map.
Qed.

Section NumberingTheorems.

Variable yaml_safe_load : str -> option dict.
Variable markdown_markdown : str -> option str.
Variable read_file : str -> option str.
Variable cwd : str.
Variable str_title : str -> str.

Let step_file := process_file yaml_safe_load markdown_markdown read_file cwd str_title.
Let run_from := process_from yaml_safe_load markdown_markdown read_file cwd str_title.
Let run := process_loop yaml_safe_load markdown_markdown read_file cwd str_title.

(** C7: across any run of [process_files] the numberings of the table of
    contents are strictly increasing in lexicographic order, component by
    component, and so are the numbering strings emitted for them: each
    string, split at its dots and read as decimal numerals, gives back the
    counters of its entry, and the strings follow one another in the order
    of the numbers they denote; every document either leaves the counters
    alone or bumps one depth [d], which adds one to the counter at [d],
    zeroes every deeper counter and keeps every shallower one; and over a
    run of documents emitted at depth [d] or deeper (siblings at [d] and
    what lies below them) the counter at [d] grows by one per document at
    [d]. *)
Theorem toc_numbering_strictly_increases
    (files : list str) (repo_dir docs_dir : str) :
  StronglySorted lex_lt
    (map entry_numbering (toc (run files repo_dir docs_dir)))
  /\ map toc_numbering (toc (run files repo_dir docs_dir))
     = map dotted (map entry_numbering (toc (run files repo_dir docs_dir)))
  /\ Forall (fun e => components (toc_numbering e) = Some (entry_numbering e))
       (toc (run files repo_dir docs_dir))
  /\ StronglySorted numbering_lt
       (map toc_numbering (toc (run files repo_dir docs_dir)))
  /\ (forall st index file_path,
       let n := numbering st in
       let n' :=
         numbering (step_file files repo_dir docs_dir st index file_path) in
       n' = n
       \/ exists d,
            n' = bump d n
            /\ nth d n' 0 = nth d n 0 + 1
            /\ (forall i, d < i -> nth i n' 0 = 0)
            /\ (forall i, i < d -> nth i n' 0 = nth i n 0))
  /\ forall st index todo d,
       let depths :=
         emit_depths yaml_safe_load read_file cwd repo_dir docs_dir todo in
       Forall (fun d' => d <= d') depths ->
       nth d (numbering (run_from files repo_dir docs_dir st index todo)) 0
       = nth d (numbering st) 0 + count_occ Nat.eq_dec depths d.
Proof.
  assert (Hsorted : StronglySorted lex_lt
            (map entry_numbering (toc (run files repo_dir docs_dir)))).
  { apply Sorted_StronglySorted; [exact lex_lt_transitive|].
    unfold run. rewrite process_loop_toc. apply numberings_sorted. }
  assert (Hread : Forall
            (fun e => components (toc_numbering e) = Some (entry_numbering e))
            (toc (run files repo_dir docs_dir))).
  { pose proof (numberings_not_nil
                  (emit_depths yaml_safe_load read_file cwd repo_dir docs_dir
                     files) [0]) as Hne.
    unfold run. rewrite <- process_loop_toc with (str_title := str_title)
      (markdown_markdown := markdown_markdown), Forall_forall in Hne.
    apply Forall_forall. intros e He. apply components_dotted.
    apply Hne. now apply in_map. }
  split; [exact Hsorted|]. split; [now rewrite map_map|].
  split; [exact Hread|]. split; [|split].
  - rewrite Forall_forall in Hread.
    apply StronglySorted_map_through with (R := lex_lt) (f := entry_numbering);
      [|exact Hsorted].
    intros x y Hx Hy Hlt. exists (entry_numbering x), (entry_numbering y).
    now rewrite (Hread x Hx), (Hread y Hy).
  - intros st index file_path n n'. subst n n'. unfold step_file.
    rewrite process_file_numbering.
    destruct (emit_depth _ _ _ _ _ _) as [d|]; simpl; [right | now left].
    exists d. repeat split.
    + apply bump_increments.
    + intros i Hi. now apply bump_zeroes_deeper.
    + intros i Hi. now apply bump_keeps_shallower.
  - intros st index todo d depths H. unfold run_from.
    rewrite process_from_numbering. now apply bump_run.
Qed.

End NumberingTheorems.

Lemma toc_numbering_strictly_increases_witness :
  StronglySorted lex_lt
    (map entry_numbering
       (toc (process_loop Scenario.yaml_safe_load Scenario.markdown_markdown
               Scenario.read_file Scenario.cwd Scenario.str_title
               Scenario.files [] "docs")))
  /\ StronglySorted numbering_lt
       (map toc_numbering
          (toc (process_loop Scenario.yaml_safe_load
                  Scenario.markdown_markdown Scenario.read_file Scenario.cwd
                  Scenario.str_title Scenario.files [] "docs"))).
Proof.
  pose proof (@toc_numbering_strictly_increases
                Scenario.yaml_safe_load Scenario.markdown_markdown
                Scenario.read_file Scenario.cwd Scenario.str_title
                Scenario.files [] "docs") as H.
  exact (conj (proj1 H) (proj1 (proj2 (proj2 (proj2 H))))).
Defined.

(** ** Discovery does not depend on the order of the listing *)

Lemma leb_antisym (a b : str) :
  Str.leb a b = true -> Str.leb b a = true -> a = b.
Proof.
  unfold Str.leb. rewrite !negb_true_iff.
  revert b. induction a as [|x a IH]; intros [|y b] H1 H2;
    try reflexivity; try discriminate.
  rewrite ltb_cons in *.
  apply orb_false_iff in H1 as [H1 H1']. apply orb_false_iff in H2 as [H2 H2'].
  apply Nat.ltb_ge in H1, H2.
  assert (E : nat_of_ascii x = nat_of_ascii y) by lia.
  rewrite E, Nat.eqb_refl in *. simpl in H1', H2'.
  apply nat_of_ascii_inj in E. subst y. f_equal. now apply IH.
Qed.

Lemma sorted_permutation_unique (l1 : list (str * str)) :
  forall l2,
    StronglySorted key_le l1 -> StronglySorted key_le l2 ->
    Permutation l1 l2 -> NoDup (map snd l1) -> l1 = l2.
Proof.
  induction l1 as [|a l1 IH]; intros l2 H1 H2 Hp Hnd.
  - apply Permutation_nil in Hp. now subst.
  - destruct l2 as [|b l2].
    + apply Permutation_sym, Permutation_nil in Hp. discriminate.
    + inversion H1 as [|? ? H1' Ha]; subst.
      inversion H2 as [|? ? H2' Hb]; subst.
      simpl in Hnd. inversion Hnd as [|? ? Hout Hnd']; subst.
      assert (E : a = b).
      { assert (Hain : In a (b :: l2))
          by (apply (Permutation_in _ Hp); now left).
        assert (Hbin : In b (a :: l1))
          by (apply (Permutation_in _ (Permutation_sym Hp)); now left).
        destruct Hain as [E|Hain]; [now subst|].
        destruct Hbin as [E|Hbin]; [now subst|].
        rewrite Forall_forall in Ha, Hb.
        pose proof (leb_antisym _ _ (Ha b Hbin) (Hb a Hain)) as Ek.
        exfalso. apply Hout. rewrite Ek. now apply in_map. }
      subst b. f_equal. apply IH; try assumption.
      now apply Permutation_cons_inv in Hp.
Qed.

Lemma entries_of_permutation (root : str) (files files' : list str) :
  Permutation files files' ->
  Permutation (entries_of root files) (entries_of root files').
Proof.
  induction 1 as [|f l l' _ IH|f g l|l1 l2 l3 _ IH1 _ IH2]; simpl.
  - constructor.
  - destruct (entry root f); [now constructor | exact IH].
  - destruct (entry root f), (entry root g);
      try reflexivity; apply perm_swap.
  - now transitivity (entries_of root l2).
Qed.

Lemma all_files_Dir (top : str) (subdirs : list (str * tree))
    (files : list str) :
  all_files top (Dir subdirs files)
  = entries_of top files ++ sub_files top subdirs.
Proof.
  unfold all_files, sub_files. simpl. f_equal.
  induction subdirs as [|[d t] subdirs IH]; simpl; [reflexivity|].
  rewrite flat_map_app, IH. f_equal. now destruct (keep_dir d).
Qed.

Lemma same_listing_all_files (t t' : tree) :
  same_listing t t' ->
  forall top, Permutation (all_files top t) (all_files top t').
Proof.
  intros H.
  induction H using same_listing_mut
    with (P0 := fun l l' _ =>
                  forall top, Permutation (sub_files top l) (sub_files top l'));
    intros top.
  - rewrite !all_files_Dir. apply Permutation_app; [|apply IHsame_listing].
    now apply entries_of_permutation.
  - reflexivity.
  - unfold sub_files. simpl. fold (sub_files top l) (sub_files top l').
    apply Permutation_app; [|apply IHsame_listing0].
    destruct (keep_dir d); [apply IHsame_listing | reflexivity].
  - unfold sub_files. simpl. fold (sub_files top l).
    rewrite !app_assoc. apply Permutation_app_tail, Permutation_app_comm.
  - now transitivity (sub_files top l2).
Qed.

(** X21: the result of discovery does not depend on the order in which
    the walk lists the files and the subdirectories of a directory, as
    long as no two collected documents have the same sort key. *)
Theorem discovery_ignores_listing_order (root_dir : str) (t t' : tree) :
  same_listing t t' ->
  NoDup (map snd (all_files root_dir t)) ->
  get_files_sorted root_dir t = get_files_sorted root_dir t'.
Proof.
  intros Hsame Hnd.
  pose proof (same_listing_all_files Hsame root_dir) as Hp.
  unfold get_files_sorted.
  assert (Hs : sort_by_key (all_files root_dir t)
               = sort_by_key (all_files root_dir t')).
  { apply sorted_permutation_unique; try apply sort_by_key_sorted.
    - transitivity (all_files root_dir t);
        [symmetry; apply sort_by_key_permutation|].
      transitivity (all_files root_dir t');
        [exact Hp | apply sort_by_key_permutation].
    - apply (Permutation_NoDup (l := map snd (all_files root_dir t)));
        [|exact Hnd].
      apply Permutation_map, sort_by_key_permutation. }
  destruct (all_files root_dir t) as [|e l] eqn:E;
    destruct (all_files root_dir t') as [|e' l'] eqn:E'.
  - reflexivity.
  - apply Permutation_nil in Hp. discriminate.
  - apply Permutation_sym, Permutation_nil in Hp. discriminate.
  - now rewrite Hs.
Qed.

Lemma discovery_ignores_listing_order_witness :
  get_files_sorted "docs" Scenario.docs_tree
  = get_files_sorted "docs"
      (Dir [("guide" : str, Dir [] ["index.md" : str; "setup.md" : str])]
           ["index.md" : str]).
Proof.
  apply (@discovery_ignores_listing_order "docs" Scenario.docs_tree
           (Dir [("guide" : str, Dir [] ["index.md" : str; "setup.md" : str])]
                ["index.md" : str])).
  - apply same_dir; [reflexivity|].
    apply same_cons; [|apply same_nil].
    apply same_dir; [apply perm_swap | apply same_nil].
  - vm_compute. repeat constructor; simpl; intuition discriminate.
Defined.

(** ** Where the markers fall *)

Section MarkerFacts.

Variable yaml_safe_load : str -> option dict.
Variable markdown_markdown : str -> option str.
Variable read_file : str -> option str.
Variable cwd : str.
Variable str_title : str -> str.

Local Abbreviation step_file :=
  (process_file yaml_safe_load markdown_markdown read_file cwd str_title).
Local Abbreviation run_from :=
  (process_from yaml_safe_load markdown_markdown read_file cwd str_title).
Local Abbreviation run :=
  (process_loop yaml_safe_load markdown_markdown read_file cwd str_title).
Local Abbreviation has_page :=
  (yields_page yaml_safe_load markdown_markdown read_file cwd).

Lemma process_from_snoc files repo_dir docs_dir todo file_path :
  forall st index,
    run_from files repo_dir docs_dir st index (todo ++ [file_path])
    = step_file files repo_dir docs_dir
        (run_from files repo_dir docs_dir st index todo)
        (index + length todo) file_path.
Proof.
  induction todo as [|f todo IH]; intros st index; simpl.
  - now rewrite Nat.add_0_r.
  - rewrite IH. now rewrite Nat.add_succ_r.
Qed.

(** Before the last position every page is followed by a marker. *)
Lemma process_from_marked files repo_dir docs_dir todo :
  forall st index,
    index + length todo <= length files - 1 ->
    exists pages,
      html_all_pages_content (run_from files repo_dir docs_dir st index todo)
      = html_all_pages_content st ++ flat_map marked pages
      /\ Forall (fun page => page <> page_break) pages
      /\ length pages = length (filter (has_page repo_dir docs_dir) todo).
Proof.
  induction todo as [|f todo IH]; intros st index Hi.
  - exists []. simpl. rewrite app_nil_r. auto.
  - cbn [process_from]. simpl in Hi.
    destruct (IH (step_file files repo_dir docs_dir st index f) (S index))
      as [pages [Hp [Hne Hl]]]; [lia|].
    pose proof (process_file_pages yaml_safe_load markdown_markdown read_file
                  cwd str_title files repo_dir docs_dir st index f) as Hf.
    cbn [filter]. destruct (has_page repo_dir docs_dir f).
    + destruct Hf as [page [Hpage Hf]].
      replace (index <? length files - 1) with true in Hf
        by (symmetry; apply Nat.ltb_lt; lia).
      exists (page :: pages). rewrite Hp, Hf, <- app_assoc.
      split; [reflexivity|]. split; [now constructor | simpl; now rewrite Hl].
    + exists pages. rewrite Hp, Hf. auto.
Qed.

(** X22: in a run over the files [todo ++ [last_file]], the page of every
    file but the last one is followed by a marker, and the page of the
    last file is not: the pages end with a marker exactly when the last
    file leaves no page and an earlier one does, and when no file is
    dropped the markers separate the pages. *)
Theorem markers_follow_all_but_the_last_file
    (todo : list str) (last_file repo_dir docs_dir : str) :
  exists pages tail,
    html_all_pages_content (run (todo ++ [last_file]) repo_dir docs_dir)
    = flat_map marked pages ++ tail
    /\ Forall (fun page => page <> page_break) pages
    /\ length pages = length (filter (has_page repo_dir docs_dir) todo)
    /\ if has_page repo_dir docs_dir last_file
       then exists page, tail = [page] /\ page <> page_break
       else tail = [].
Proof.
  unfold process_loop. rewrite process_from_snoc.
  destruct (@process_from_marked (todo ++ [last_file]) repo_dir docs_dir todo
              initial_state 0)
    as [pages [Hp [Hne Hl]]].
  { rewrite length_app. simpl. lia. }
  simpl in Hp.
  pose proof (process_file_pages yaml_safe_load markdown_markdown read_file
                cwd str_title (todo ++ [last_file]) repo_dir docs_dir
                (run_from (todo ++ [last_file]) repo_dir docs_dir
                   initial_state 0 todo)
                (0 + length todo) last_file) as Hf.
  destruct (has_page repo_dir docs_dir last_file).
  - destruct Hf as [page [Hpage Hf]].
    replace (0 + length todo <? length (todo ++ [last_file]) - 1) with false
      in Hf
      by (symmetry; apply Nat.ltb_ge; rewrite length_app; simpl; lia).
    exists pages, [page]. rewrite Hf, Hp. repeat split; try assumption.
    now exists page.
  - exists pages, []. rewrite Hf, Hp, app_nil_r. auto.
Qed.

End MarkerFacts.

(** ** Levels without a document *)

Lemma nth_firstn_zero (l : list nat) (i k : nat) :
  nth i l 0 = 0 -> nth i (firstn k l) 0 = 0.
Proof.
  intros H. destruct (Nat.lt_ge_cases i k) as [Hlt|Hge].
  - now rewrite nth_firstn_lt.
  - apply nth_overflow. rewrite length_firstn. lia.
Qed.

Lemma bump_other_level (d i : nat) (n : list nat) :
  d <> i -> nth i n 0 = 0 -> nth i (bump d n) 0 = 0.
Proof.
  intros Hd Hn. destruct (Nat.lt_ge_cases i d) as [Hlt|Hge].
  - now rewrite bump_keeps_shallower.
  - apply bump_zeroes_deeper. lia.
Qed.

Lemma numberings_zero_level (i : nat) (depths : list nat) :
  forall n,
    nth i n 0 = 0 -> ~ In i depths ->
    Forall (fun l => nth i l 0 = 0) (numberings n depths).
Proof.
  induction depths as [|d depths IH]; intros n Hn Hi; simpl; constructor.
  - apply nth_firstn_zero, bump_other_level; [|exact Hn].
    intros ->. apply Hi. now left.
  - apply IH.
    + apply bump_other_level; [|exact Hn]. intros ->. apply Hi. now left.
    + intros H. apply Hi. now right.
Qed.

Section LevelFacts.

Variable yaml_safe_load : str -> option dict.
Variable markdown_markdown : str -> option str.
Variable read_file : str -> option str.
Variable cwd : str.
Variable str_title : str -> str.

(** X23: when no entry of the table of contents lies at depth [i], the
    component [i] of every numbering is 0; in particular, without a
    document directly in the root every numbering starts with 0. *)
Theorem level_without_entry_is_numbered_zero
    (files : list str) (repo_dir docs_dir : str) (i : nat) :
  let entries :=
    toc (process_loop yaml_safe_load markdown_markdown read_file cwd
           str_title files repo_dir docs_dir) in
  (forall e, In e entries -> entry_depth e <> i) ->
  forall e, In e entries -> nth i (entry_numbering e) 0 = 0.
Proof.
  intros entries Hnone e He.
  assert (Hn : map entry_numbering entries
               = numberings [0] (map entry_depth entries)).
  { subst entries. rewrite process_loop_toc. f_equal.
    symmetry. apply process_loop_depths. }
  assert (Hall : Forall (fun l => nth i l 0 = 0) (map entry_numbering entries)).
  { rewrite Hn. apply numberings_zero_level.
    - now destruct i as [|[|i]].
    - intros Hin. apply in_map_iff in Hin as [e' [Hd He']].
      exact (Hnone e' He' Hd). }
  rewrite Forall_forall in Hall. apply Hall. now apply in_map.
Qed.

End LevelFacts.

Lemma level_without_entry_is_numbered_zero_witness :
  map entry_numbering
    (toc (process_loop Scenario.yaml_safe_load Scenario.markdown_markdown
            Scenario.read_file Scenario.cwd Scenario.str_title
            ["docs/guide/setup.md" : str] [] "docs"))
  = [[0; 1]]
  /\ forall e,
       In e (toc (process_loop Scenario.yaml_safe_load
                    Scenario.markdown_markdown Scenario.read_file
                    Scenario.cwd Scenario.str_title
                    ["docs/guide/setup.md" : str] [] "docs")) ->
       nth 0 (entry_numbering e) 0 = 0.
Proof.
  split; [vm_compute; reflexivity|].
  apply (@level_without_entry_is_numbered_zero Scenario.yaml_safe_load
           Scenario.markdown_markdown Scenario.read_file Scenario.cwd
           Scenario.str_title ["docs/guide/setup.md" : str] [] "docs" 0).
  intros e He. vm_compute in He. destruct He as [<-|[]]. discriminate.
Defined.

(** ** Documents without a title *)

Lemma stem_below (start : str) (dirs : list str) (base ext : str) :
  simple_path start = true ->
  plain_comps dirs = true -> plain_comps [base ++ ext] = true ->
  base <> [] -> ext = ".md" \/ ext = ".mdx" ->
  PosixPath.stem (below start dirs (base ++ ext)) = base.
Proof.
  intros Hs Hd Hn Hb He. unfold PosixPath.stem.
  rewrite (@parts_below start dirs (base ++ ext) Hs Hd Hn).
  rewrite !rev_app_distr. cbn [rev app].
  assert (Hplain : plain_name (base ++ ext) = true)
    by (apply (@plain_comps_plain [base ++ ext] _ Hn); now left).
  rewrite (plain_name_not_abs _ Hplain).
  assert (Hr : rev base <> []).
  { intros H. apply Hb. apply (f_equal (@rev ascii)) in H.
    now rewrite rev_involutive in H. }
  destruct (rev base) as [|x r] eqn:E; [contradiction|].
  assert (Eb : base = rev (x :: r)) by (now rewrite <- E, rev_involutive).
  destruct He as [-> | ->]; cbn [chars list_ascii_of_string];
    rewrite rev_app_distr, E; cbn [rev app];
    cbn [Str.split1 Ascii.eqb Bool.eqb andb]; now rewrite Eb.
Qed.

Section TitleFacts.

Variable yaml_safe_load : str -> option dict.
Variable markdown_markdown : str -> option str.
Variable read_file : str -> option str.
Variable cwd : str.
Variable str_title : str -> str.

(** X24: a document below the documentation root whose metadata has no
    title is entered in the table of contents under the name of its file
    without the extension, title-cased. *)
Theorem untitled_document_is_named_after_its_file
    (files : list str) (repo_dir docs_dir : str) (st : loop_state)
    (index : nat) (dirs : list str) (base ext : str) (data : dict)
    (body : str) :
  let file_path := below (PosixPath.join repo_dir docs_dir) dirs (base ++ ext) in
  simple_path (PosixPath.join repo_dir docs_dir) = true ->
  plain_comps dirs = true -> plain_comps [base ++ ext] = true ->
  base <> [] -> ext = ".md" \/ ext = ".mdx" ->
  load_document yaml_safe_load read_file file_path = Some (data, body) ->
  dict_get data "title" = None ->
  exists e,
    toc (process_file yaml_safe_load markdown_markdown read_file cwd str_title
           files repo_dir docs_dir st index file_path)
    = toc st ++ [e]
    /\ entry_title e = str_title base.
Proof.
  intros file_path Hs Hd Hn Hb He Hload Htitle.
  unfold process_file. rewrite Hload.
  rewrite toc_depth_simple; [|now apply simple_below | exact Hs].
  cbv zeta. rewrite Htitle.
  subst file_path. rewrite (@stem_below _ dirs base ext Hs Hd Hn Hb He).
  destruct (html_page _ _ _ _ _ _ _); eexists; split; reflexivity.
Qed.

End TitleFacts.

Lemma untitled_document_is_named_after_its_file_witness :
  exists e,
    toc (process_file Scenario.yaml_safe_load Scenario.markdown_markdown
           Untitled.read_file Scenario.cwd Scenario.str_title
           ["docs/guide/setup.md" : str] [] "docs" initial_state 0
           (below (PosixPath.join [] "docs") ["guide" : str] ("setup" ++ ".md")))
    = toc initial_state ++ [e]
    /\ entry_title e = Scenario.str_title "setup".
Proof.
  apply (@untitled_document_is_named_after_its_file Scenario.yaml_safe_load
           Scenario.markdown_markdown Untitled.read_file Scenario.cwd
           Scenario.str_title ["docs/guide/setup.md" : str] [] "docs"
           initial_state 0 ["guide" : str] "setup" ".md"
           [("description" : str, "How to install" : str)] "Install it.").
  - reflexivity.
  - reflexivity.
  - reflexivity.
  - discriminate.
  - left. reflexivity.
  - vm_compute. reflexivity.
  - reflexivity.
Defined.

(** ** The document [main] hands to the PDF generator *)


Section MainFacts.

Variable yaml_safe_load : str -> option dict.
Variable markdown_markdown : str -> option str.
Variable read_file : str -> option str.
Variable styles_css : option str.
Variable cwd : str.
Variable str_title : str -> str.
Variable today : str.
Variable clone_repo : option tree.
Variable generate_pdf : str -> bool.

Local Abbreviation has_page :=
  (yields_page yaml_safe_load markdown_markdown read_file cwd repo_dir docs_dir).



End MainFacts.


(** ** The field patterns on a plain field line *)

(** A greedy star over a class fails when the rest of the pattern fails
    after every part of the run. *)
Lemma star_greedy_fails body (p : ascii -> bool) k :
  (forall k' st', body k' st' = step p k' st') ->
  forall w r,
    forallb p w = true -> stops p r ->
    (forall w2 st', suffix w2 w -> rest st' = w2 ++ r -> k st' = None) ->
    forall st, rest st = w ++ r ->
      star_loop true body k (length (rest st)) st = None.
Proof.
  intros Hbody. induction w as [|c w IH]; intros r Hw Hstop Hk st Hrest.
  - assert (H0 : k st = None) by (apply (Hk []); [apply suffix_refl | exact Hrest]).
    destruct (length (rest st)) eqn:En; simpl; [exact H0|].
    rewrite Hbody. unfold step. simpl in Hrest. rewrite Hrest.
    destruct r as [|x r]; [exact H0|]. simpl in Hstop. now rewrite Hstop.
  - assert (H0 : k st = None)
      by (apply (Hk (c :: w)); [apply suffix_refl | exact Hrest]).
    destruct st as [pv a cs]. simpl in Hrest. subst a. simpl length.
    simpl in Hw. apply andb_true_iff in Hw as [Hc Hw].
    cbn [star_loop]. rewrite Hbody. unfold step. cbn [rest caps app].
    rewrite Hc.
    replace (length (w ++ r) <? length (c :: w ++ r)) with true
      by (symmetry; apply Nat.ltb_lt; simpl; lia).
    assert (Hk' : forall w2 st', suffix w2 w -> rest st' = w2 ++ r ->
                    k st' = None).
    { intros w2 st' Hs. apply Hk. now apply suffix_cons. }
    pose proof (IH r Hw Hstop Hk'
                  {| prev := Some c; rest := w ++ r; caps := cs |} eq_refl) as H.
    cbn [rest] in H. rewrite H. exact H0.
Qed.

Lemma opt_class_skip fl neg items k st :
  stops (cls_has neg items) (rest st) ->
  rmatch fl (Opt (Cls neg items)) k st = k st.
Proof.
  intros H. unfold Opt. rewrite rmatch_Alt, cls_step. unfold step.
  destruct (rest st) as [|x r]; [reflexivity|]. simpl in H. now rewrite H.
Qed.

Lemma lstrip_keeps_last (p : ascii -> bool) (a : str) (d : ascii) :
  a <> [] -> p (last a d) = false -> Str.lstrip_by p a <> [].
Proof.
  induction a as [|c a IH]; intros Hne Hl; [contradiction|].
  simpl. destruct (p c) eqn:Hc; [|discriminate].
  destruct a as [|c' a]; [simpl in Hl; congruence|].
  apply IH; [discriminate | exact Hl].
Qed.

Lemma last_app_nonempty (a b : str) (d : ascii) :
  b <> [] -> last (a ++ b) d = last b d.
Proof.
  intros Hb. induction a as [|c a IH]; [reflexivity|].
  simpl. destruct (a ++ b) eqn:E; [|exact IH].
  apply app_eq_nil in E as [_ E]. contradiction.
Qed.

Lemma value_char_not_nl (c : ascii) : value_char c = true -> Ascii.eqb c nl = false.
Proof.
  unfold value_char. intros H. apply andb_true_iff in H as [H _].
  apply andb_true_iff in H as [H _]. now apply negb_true_iff in H.
Qed.

Lemma value_char_not_quote (c : ascii) : value_char c = true -> is_quote c = false.
Proof.
  unfold value_char. intros H. apply andb_true_iff in H as [H _].
  apply andb_true_iff in H as [_ H]. now apply negb_true_iff in H.
Qed.

Lemma value_char_not_colon (c : ascii) :
  value_char c = true -> Ascii.eqb ":" c = false.
Proof.
  unfold value_char. intros H. apply andb_true_iff in H as [_ H].
  apply negb_true_iff in H. now rewrite Ascii.eqb_sym.
Qed.

Lemma ends_line_no_colon (x post : str) :
  forallb value_char x = true -> ends_line post = true ->
  stops (Ascii.eqb ":") (x ++ post).
Proof.
  intros Hx Hp. destruct x as [|c x].
  - destruct post as [|c post]; [exact I|]. simpl in *.
    apply andb_true_iff in Hp as [Hp _]. apply Ascii.eqb_eq in Hp. now subst c.
  - simpl in *. apply andb_true_iff in Hx as [Hc _].
    now apply value_char_not_colon.
Qed.

Lemma ends_line_no_word (post : str) :
  ends_line post = true -> stops isword post.
Proof.
  destruct post as [|c post]; [intros; exact I|]. simpl. intros H.
  apply andb_true_iff in H as [H _]. apply Ascii.eqb_eq in H. now subst c.
Qed.

Lemma stops_nonempty_app (p : ascii -> bool) (a b : str) :
  a <> [] -> stops p a -> stops p (a ++ b).
Proof. destruct a; [contradiction | auto]. Qed.

Lemma stops_cls_space (r : str) :
  stops Str.isspace r -> stops (cls_has false [ISpace]) r.
Proof. destruct r as [|c r]; [auto|]. cbn [stops]. now rewrite cls_space. Qed.

Lemma stops_cls_word (r : str) :
  stops isword r -> stops (cls_has false [IWord]) r.
Proof. destruct r as [|c r]; [auto|]. cbn [stops]. now rewrite cls_word. Qed.

Lemma head_value_char (x post : str) :
  x <> [] -> forallb value_char x = true ->
  exists h t, x ++ post = h :: t /\ value_char h = true.
Proof.
  destruct x as [|h x]; [contradiction|]. intros _ H. simpl in H.
  apply andb_true_iff in H as [H _]. now exists h, (x ++ post).
Qed.

Section FieldLine.

Variable K : mstate -> option mstate.

Local Abbreviation alt_eol :=
  (seqs [Opt (one_of [sq; dq]); Star true space; Eol]).
Local Abbreviation alt_key :=
  (seqs [Opt (one_of [sq; dq]); Plus true space; Plus true word; Chr ":"]).

(** Inside a plain value the line does not end: the first alternative
    fails. *)
Lemma alt_eol_fails (v post : str) (st : mstate) :
  rest st = v ++ post -> v <> [] -> forallb value_char v = true ->
  Str.isspace (last v " "%char) = false ->
  rmatch MULTILINE alt_eol K st = None.
Proof.
  intros Hrest Hne Hv Hlast.
  destruct (lstrip_decompose Str.isspace v) as [s [E [Hs Hstop]]].
  pose proof (@lstrip_keeps_last Str.isspace v " "%char Hne Hlast) as Hv3.
  set (v3 := Str.lstrip_by Str.isspace v) in *.
  rewrite rmatch_seqs_cons.
  unfold one_of. simpl map. rewrite opt_class_skip.
  - rewrite rmatch_seqs_cons, rmatch_Star.
    apply star_greedy_fails
      with (p := cls_has false [ISpace]) (w := s) (r := v3 ++ post).
    + intros. apply cls_step.
    + rewrite (forallb_eq _ _ _ cls_space). exact Hs.
    + now apply stops_cls_space, stops_nonempty_app.
    + intros w2 st' [w1 Ew] Hr. rewrite rmatch_seqs_cons.
      change (rmatch MULTILINE Eol) with
        (fun (k : mstate -> option mstate) st0 =>
           if at_eol MULTILINE st0 then k st0 else None).
      cbv beta. unfold at_eol. rewrite Hr.
      assert (Hall : forallb value_char (w2 ++ v3) = true).
      { rewrite E, Ew, <- app_assoc, forallb_app in Hv.
        now apply andb_true_iff in Hv as [_ Hv]. }
      destruct (@head_value_char (w2 ++ v3) post) as [h [t [Eh Hh]]];
        [|exact Hall|].
      * intros H0. apply app_eq_nil in H0 as [_ H0]. contradiction.
      * rewrite <- app_assoc in Eh. rewrite Eh.
        now rewrite (value_char_not_nl _ Hh).
    + rewrite Hrest, E at 1. now rewrite <- app_assoc.
  - rewrite Hrest.
    destruct (@head_value_char v post Hne Hv) as [h [t [Eh Hh]]].
    rewrite Eh. cbn [stops].
    change (cls_has false [IChar sq; IChar dq] h) with (is_quote h).
    now apply value_char_not_quote.
Qed.

(** Inside a plain value no other key follows: the second alternative
    fails. *)
Lemma alt_key_fails (v post : str) (st : mstate) :
  rest st = v ++ post -> v <> [] -> forallb value_char v = true ->
  Str.isspace (last v " "%char) = false -> ends_line post = true ->
  rmatch MULTILINE alt_key K st = None.
Proof.
  intros Hrest Hne Hv Hlast Hpost.
  destruct (lstrip_decompose Str.isspace v) as [s [E [Hs Hstop]]].
  pose proof (@lstrip_keeps_last Str.isspace v " "%char Hne Hlast) as Hv3.
  set (v3 := Str.lstrip_by Str.isspace v) in *.
  assert (Hv3c : forallb value_char v3 = true).
  { rewrite E, forallb_app in Hv. now apply andb_true_iff in Hv as [_ Hv]. }
  rewrite rmatch_seqs_cons.
  unfold one_of. simpl map. rewrite opt_class_skip.
  2:{ rewrite Hrest.
      destruct (@head_value_char v post Hne Hv) as [h [t [Eh Hh]]].
      rewrite Eh. cbn [stops].
      change (cls_has false [IChar sq; IChar dq] h) with (is_quote h).
      now apply value_char_not_quote. }
  rewrite rmatch_seqs_cons. unfold Plus at 1. rewrite rmatch_Seq.
  unfold space at 1. rewrite cls_step. unfold step at 1. rewrite Hrest, E.
  destruct s as [|x s].
  - destruct v3 as [|c v3]; [contradiction|]. cbn [app]. cbn [stops] in Hstop.
    now rewrite cls_space, Hstop.
  - cbn [app]. cbn [forallb] in Hs. apply andb_true_iff in Hs as [Hx Hs].
    rewrite cls_space, Hx. rewrite rmatch_Star.
    apply star_greedy_fails
      with (p := cls_has false [ISpace]) (w := s) (r := v3 ++ post).
    + intros. apply cls_step.
    + rewrite (forallb_eq _ _ _ cls_space). exact Hs.
    + now apply stops_cls_space, stops_nonempty_app.
    + intros w2 st' Hsuf Hr. rewrite rmatch_seqs_cons.
      unfold Plus. rewrite rmatch_Seq. unfold word at 1.
      rewrite cls_step. unfold step at 1. rewrite Hr.
      destruct w2 as [|c w2].
      * (* the word after the white space *)
        destruct (lstrip_decompose isword v3) as [u [Eu [Hu Hustop]]].
        set (v4 := Str.lstrip_by isword v3) in *.
        assert (Hv4c : forallb value_char v4 = true).
        { rewrite Eu, forallb_app in Hv3c.
          now apply andb_true_iff in Hv3c as [_ H]. }
        cbn [app]. rewrite Eu. destruct u as [|y u].
        -- cbn [app]. destruct v4 as [|c v4].
           ++ rewrite Eu in Hv3. contradiction.
           ++ cbn [app]. cbn [stops] in Hustop. now rewrite cls_word, Hustop.
        -- cbn [app]. cbn [forallb] in Hu.
           apply andb_true_iff in Hu as [Hy Hu].
           rewrite cls_word, Hy. rewrite rmatch_Star.
           apply star_greedy_fails
             with (p := cls_has false [IWord]) (w := u) (r := v4 ++ post).
           ++ intros. apply cls_step.
           ++ rewrite (forallb_eq _ _ _ cls_word). exact Hu.
           ++ apply stops_cls_word. destruct v4 as [|c v4].
              ** now apply ends_line_no_word.
              ** exact Hustop.
           ++ intros w3 st'' [w0 Ew] Hr'. rewrite rmatch_seqs_cons.
              change (rmatch MULTILINE (Chr ":")) with (step (Ascii.eqb ":")).
              unfold step. rewrite Hr'.
              assert (Hc : forallb value_char (w3 ++ v4) = true).
              { rewrite forallb_app, Hv4c, andb_true_r.
                rewrite Eu in Hv3c. cbn [app forallb] in Hv3c.
                apply andb_true_iff in Hv3c as [_ H].
                rewrite Ew, <- app_assoc, !forallb_app in H.
                apply andb_true_iff in H as [_ H].
                now apply andb_true_iff in H as [H _]. }
              pose proof (@ends_line_no_colon (w3 ++ v4) post Hc Hpost) as Hn.
              rewrite <- app_assoc in Hn.
              destruct (w3 ++ v4 ++ post) as [|h t]; [reflexivity|].
              cbn [stops] in Hn. now rewrite Hn.
           ++ cbn [rest]. now rewrite <- ?app_assoc.
      * (* still inside the white space *)
        cbn [app].
        assert (Hsp : Str.isspace c = true).
        { destruct Hsuf as [w1 Ew]. rewrite Ew, forallb_app in Hs.
          apply andb_true_iff in Hs as [_ Hs]. cbn [forallb] in Hs.
          now apply andb_true_iff in Hs as [Hs _]. }
        now rewrite cls_word, (isspace_not_isword _ Hsp).
    + cbn [rest]. now rewrite <- ?app_assoc.
Qed.

End FieldLine.

Lemma rmatch_Eol fl k st :
  rmatch fl Eol k st = if at_eol fl st then k st else None.
Proof. reflexivity. Qed.

Lemma rmatch_Chr fl c k st :
  rmatch fl (Chr c) k st = step (Ascii.eqb c) k st.
Proof. reflexivity. Qed.

Lemma ends_line_no_quote (post : str) :
  ends_line post = true -> stops (cls_has false [IChar sq; IChar dq]) post.
Proof.
  destruct post as [|c post]; [intros; exact I|]. cbn [ends_line stops].
  intros H. apply andb_true_iff in H as [H _]. apply Ascii.eqb_eq in H.
  now subst c.
Qed.

(** At the end of a plain value the line ends: the first alternative
    matches, and captures nothing. *)
Lemma field_tail_matches (post : str) (st : mstate) :
  rest st = post -> ends_line post = true ->
  exists res,
    rmatch MULTILINE
      (seqs [Alt (seqs [Opt (one_of [sq; dq]); Star true space; Eol])
                 (seqs [Opt (one_of [sq; dq]); Plus true space;
                        Plus true word; Chr ":"])])
      (fun s => Some s) st = Some res
    /\ caps res = caps st.
Proof.
  intros Hrest Hpost. rewrite rmatch_seqs_cons, rmatch_Alt.
  assert (H1 : exists res,
            rmatch MULTILINE
              (seqs [Opt (one_of [sq; dq]); Star true space; Eol])
              (rmatch MULTILINE (seqs []) (fun s => Some s)) st = Some res
            /\ caps res = caps st);
    [|destruct H1 as [res [H1 Hc]]; rewrite H1; now exists res].
  rewrite rmatch_seqs_cons. unfold one_of. simpl map.
  rewrite opt_class_skip by (rewrite Hrest; now apply ends_line_no_quote).
  rewrite rmatch_seqs_cons, rmatch_Star.
  destruct st as [pv a cs]. cbn [rest] in Hrest. subst a.
  destruct post as [|c post'].
  - exists {| prev := pv; rest := []; caps := cs |}. split; reflexivity.
  - cbn [ends_line] in Hpost. apply andb_true_iff in Hpost as [Hc Hp].
    apply Ascii.eqb_eq in Hc. subst c.
    destruct post' as [|d post''].
    + exists {| prev := Some nl; rest := []; caps := cs |}. split; reflexivity.
    + apply negb_true_iff in Hp.
      exists {| prev := pv; rest := nl :: d :: post''; caps := cs |}.
      split; [|reflexivity].
      cbn [rest].
      change (length (nl :: d :: post'')) with (S (length (d :: post''))).
      cbn [star_loop]. unfold space at 1.
      rewrite cls_step. unfold step at 1. cbn [rest caps].
      change (cls_has false [ISpace] nl) with true. cbv iota.
      replace (length (d :: post'') <? length (nl :: d :: post'')) with true
        by (symmetry; apply Nat.ltb_lt; simpl; lia).
      assert (Hf : star_loop true (rmatch MULTILINE (Cls false [ISpace]))
                     (rmatch MULTILINE (seqs [Eol])
                        (rmatch MULTILINE (seqs []) (fun s => Some s)))
                     (length (d :: post''))
                     {| prev := Some nl; rest := d :: post''; caps := cs |}
                   = None).
      { refine (@star_greedy_fails (rmatch MULTILINE (Cls false [ISpace]))
                  (cls_has false [ISpace]) _
                  (fun k' st' => cls_step MULTILINE false [ISpace] k' st')
                  [] (d :: post'') eq_refl _ _
                  {| prev := Some nl; rest := d :: post''; caps := cs |}
                  eq_refl).
        - cbn [stops]. now rewrite cls_space.
        - intros w2 st' [w1 Ew] Hr. rewrite rmatch_seqs_cons, rmatch_Eol.
          unfold at_eol. symmetry in Ew. apply app_eq_nil in Ew as [_ ->].
          cbn [app] in Hr. rewrite Hr.
          destruct (Ascii.eqb d nl) eqn:Ed; [|reflexivity].
          apply Ascii.eqb_eq in Ed. subst d. discriminate Hp. }
      fold space in Hf. rewrite Hf. reflexivity.
Qed.

Lemma plain_value_parts (value : str) :
  plain_value value = true ->
  value <> [] /\ forallb value_char value = true
  /\ stops Str.isspace value
  /\ Str.isspace (last value " "%char) = false.
Proof.
  unfold plain_value. intros H. apply andb_true_iff in H as [H Hl].
  apply andb_true_iff in H as [Hv Hh]. apply negb_true_iff in Hl.
  destruct value as [|c value]; [discriminate|].
  apply negb_true_iff in Hh. repeat split; try assumption. discriminate.
Qed.

Lemma any_multiline (a : str) :
  forallb value_char a = true -> forallb (any_has MULTILINE) a = true.
Proof.
  induction a as [|c a IH]; [reflexivity|]. cbn [forallb]. intros H.
  apply andb_true_iff in H as [Hc Ha]. rewrite (IH Ha), andb_true_r.
  unfold any_has. cbn [dotall MULTILINE orb].
  now rewrite (value_char_not_nl _ Hc).
Qed.

(** On a plain field line the pattern of a field matches from the key to
    the end of the value, which it captures in group 1. *)
Lemma field_pattern_matches (key : str) (q : option ascii)
    (ws value post : str) :
  forallb Str.isspace ws = true -> plain_value value = true ->
  ends_line post = true ->
  exists res,
    match_here MULTILINE (field_pattern key) q
      (key ++ ":" ++ ws ++ value ++ post) = Some res
    /\ caps res = [(1, value)].
Proof.
  intros Hws Hvalue Hpost.
  destruct (plain_value_parts _ Hvalue) as [Hne [Hv [Hhead Hlast]]].
  unfold match_here, field_pattern.
  rewrite rmatch_seqs_cons.
  rewrite lit_ok with (r := ":"%char :: ws ++ value ++ post) by reflexivity.
  rewrite rmatch_seqs_cons, rmatch_Chr. unfold step at 1.
  cbn [rest advance]. rewrite Ascii.eqb_refl.
  set (st2 := {| prev := Some ":"%char; rest := ws ++ value ++ post;
                 caps := _ |}).
  set (st3 := advance ws (value ++ post) st2).
  set (st4 := set_cap 1 value (advance value post st3)).
  destruct (@field_tail_matches post st4 eq_refl Hpost) as [res [Hres Hcaps]].
  exists res. split; [|exact Hcaps].
  rewrite rmatch_seqs_cons, rmatch_Star.
  eapply star_greedy_run with (p := cls_has false [ISpace]) (w := ws);
    [intros; apply cls_step | reflexivity
    | rewrite (forallb_eq _ _ _ cls_space); exact Hws
    | now apply stops_cls_space, stops_nonempty_app |].
  fold st3. rewrite rmatch_seqs_cons. unfold one_of. simpl map.
  rewrite opt_class_skip.
  2:{ destruct (@head_value_char value post Hne Hv) as [h [t [Eh Hh]]].
      subst st3. cbn [rest advance]. rewrite Eh. cbn [stops].
      change (cls_has false [IChar sq; IChar dq] h) with (is_quote h).
      now apply value_char_not_quote. }
  rewrite rmatch_seqs_cons, rmatch_Group, rmatch_Star.
  eapply star_lazy_run with (p := any_has MULTILINE) (w := value);
    [reflexivity | reflexivity | now apply any_multiline | |].
  - intros w1 w2 E Hw2. rewrite rmatch_seqs_cons, rmatch_Alt.
    assert (Hw2c : forallb value_char w2 = true).
    { rewrite E, forallb_app in Hv. now apply andb_true_iff in Hv as [_ H]. }
    assert (Hw2l : Str.isspace (last w2 " "%char) = false).
    { rewrite E, last_app_nonempty in Hlast; assumption. }
    rewrite (@alt_eol_fails _ w2 post) by (assumption || reflexivity).
    now rewrite (@alt_key_fails _ w2 post) by (assumption || reflexivity).
  - rewrite consumed_advance by reflexivity. fold st4. exact Hres.
Qed.

Lemma startswith_short (b t w : str) :
  Str.startswith (b ++ t) w = true ->
  Str.startswith b w = true \/ forallb (fun c => Str.mem c w) b = true.
Proof.
  revert w. induction b as [|y b IH]; intros w H; [now right|].
  destruct w as [|c w]; [now left|]. cbn [app Str.startswith] in H.
  apply andb_true_iff in H as [Hc H]. destruct (IH w H) as [H1|H1].
  - left. cbn [Str.startswith]. now rewrite Hc, H1.
  - right. cbn [forallb]. apply andb_true_iff. split.
    + unfold Str.mem. cbn [existsb]. now rewrite Hc.
    + rewrite forallb_forall in *. intros x Hx. specialize (H1 x Hx).
      unfold Str.mem in *. cbn [existsb]. now rewrite H1, orb_true_r.
Qed.

Lemma last_In (a : str) (d : ascii) : a <> [] -> In (last a d) a.
Proof.
  induction a as [|c a IH]; intros H; [contradiction|].
  destruct a as [|c' a]; [now left|]. right. apply IH. discriminate.
Qed.

(** A field that starts a line is not preceded by a match that begins in
    the lines before it, when they do not hold the key. *)
Lemma field_not_earlier (key pre b t : str) :
  whole_lines pre = true -> Str.contains pre key = false ->
  Str.mem nl key = false -> suffix b pre -> b <> [] ->
  Str.startswith (b ++ t) key = false.
Proof.
  intros Hl Hc Hk Hs Hb.
  destruct (Str.startswith (b ++ t) key) eqn:E; [|reflexivity]. exfalso.
  destruct (startswith_short _ _ _ E) as [H|H].
  - rewrite (@contains_suffix pre key b Hc Hs) in H. discriminate.
  - assert (Hlast : last b " "%char = nl).
    { destruct Hs as [p ->]. destruct (p ++ b) as [|x l] eqn:Ep.
      - apply app_eq_nil in Ep as [_ Ep]. contradiction.
      - unfold whole_lines in Hl. apply Ascii.eqb_eq in Hl.
        rewrite <- Ep, last_app_nonempty in Hl; assumption. }
    rewrite forallb_forall in H.
    specialize (H _ (@last_In b " "%char Hb)). rewrite Hlast in H. congruence.
Qed.

Lemma search_from_skip fl r (a : str) (P : mstate -> Prop) :
  (forall q, exists res, match_here fl r q a = Some res /\ P res) ->
  forall pre,
    (forall b q, suffix b pre -> b <> [] ->
       match_here fl r q (b ++ a) = None) ->
    forall p, exists res,
      search_from fl r p (pre ++ a) = Some (pre, res) /\ P res.
Proof.
  intros Hm. induction pre as [|c pre IH]; intros Hskip p.
  - destruct (Hm p) as [res [H HP]]. exists res. split; [|exact HP].
    cbn [app]. destruct a; cbn [search_from]; now rewrite H.
  - destruct (IH (fun b q Hs Hb => Hskip b q (suffix_cons c Hs) Hb) (Some c))
      as [res [H HP]].
    exists res. split; [|exact HP]. cbn [app search_from].
    pose proof (Hskip (c :: pre) p (suffix_refl _) ltac:(discriminate)) as H0.
    cbn [app] in H0. now rewrite H0, H.
Qed.

Lemma rev_last (a : str) (d : ascii) :
  a <> [] -> exists t, rev a = last a d :: t.
Proof.
  induction a as [|c a IH]; intros H; [contradiction|].
  destruct a as [|c' a]; [now exists []|].
  destruct IH as [t Ht]; [discriminate|].
  exists (t ++ [c]). cbn [rev] in *. now rewrite Ht.
Qed.

Lemma strip_by_plain (p : ascii -> bool) (a : str) (d : ascii) :
  stops p a -> p (last a d) = false -> a <> [] -> Str.strip_by p a = a.
Proof.
  intros Hh Hl Hne. unfold Str.strip_by, Str.rstrip_by.
  destruct a as [|c a]; [contradiction|]. cbn [stops] in Hh.
  cbn [Str.lstrip_by]. rewrite Hh.
  destruct (@rev_last (c :: a) d Hne) as [t Ht]. rewrite Ht.
  cbn [Str.lstrip_by]. rewrite Hl, <- Ht. apply rev_involutive.
Qed.

Lemma plain_value_strip (value : str) :
  plain_value value = true ->
  Str.strip_chars [" "%char; sq; dq] value = value.
Proof.
  intros H. destruct (plain_value_parts _ H) as [Hne [Hv [Hhead Hlast]]].
  assert (Hp : forall c, value_char c = true -> Str.isspace c = false ->
                 Str.mem c [" "%char; sq; dq] = false).
  { intros c Hc Hs. pose proof (value_char_not_quote _ Hc) as Hq.
    unfold Str.mem. cbn [existsb]. unfold is_quote, Str.mem in Hq.
    cbn [existsb] in Hq. rewrite Hq, orb_false_r.
    destruct (Ascii.eqb c " ") eqn:E; [|reflexivity].
    apply Ascii.eqb_eq in E. subst c. discriminate Hs. }
  unfold Str.strip_chars. apply strip_by_plain with (d := " "%char).
  - destruct value as [|c value]; [exact I|]. cbn [stops] in *.
    cbn [forallb] in Hv. apply andb_true_iff in Hv as [Hc _]. now apply Hp.
  - apply Hp; [|exact Hlast].
    rewrite forallb_forall in Hv. apply Hv. now apply last_In.
  - exact Hne.
Qed.

Section FieldFacts.

Variable yaml_safe_load : str -> option dict.

(** X26: a [title:] or [description:] line that starts a line of the
    frontmatter, with a plain value up to the end of the line, is read by
    the field pattern: the metadata is found, and when the YAML parser
    fails the field has exactly that value. *)
Theorem field_line_is_extracted (key pre ws value post : str) :
  key = "title" \/ key = "description" ->
  whole_lines pre = true -> Str.contains pre key = false ->
  forallb Str.isspace ws = true -> plain_value value = true ->
  ends_line post = true ->
  let frontmatter := pre ++ key ++ ":" ++ ws ++ value ++ post in
  (exists m, search MULTILINE (field_pattern key) frontmatter = Some m
             /\ group m 1 = Some value)
  /\ exists metadata,
       safe_load_frontmatter yaml_safe_load frontmatter = Some metadata
       /\ (yaml_safe_load (cleaned_content frontmatter) = None ->
           dict_get metadata key = Some value).
Proof.
  intros Hkey Hlines Hpre Hws Hvalue Hpost frontmatter.
  assert (Hsearch : exists m,
            search MULTILINE (field_pattern key) frontmatter = Some m
            /\ group m 1 = Some value).
  { destruct (@search_from_skip MULTILINE (field_pattern key)
                (key ++ ":" ++ ws ++ value ++ post)
                (fun res => caps res = [(1, value)])
                (fun q => @field_pattern_matches key q ws value post
                            Hws Hvalue Hpost)
                pre) with (p := @None ascii) as [res [Hs Hc]].
    - intros b q Hsuf Hb. unfold match_here, field_pattern.
      rewrite rmatch_seqs_cons. apply lit_none. unfold init, rest.
      apply (@field_not_earlier key pre b); try assumption.
      now destruct Hkey as [-> | ->].
    - exists res. unfold search. subst frontmatter. rewrite Hs.
      split; [reflexivity|]. unfold group. now rewrite Hc. }
  split; [exact Hsearch|].
  destruct Hsearch as [m [Hm Hg]].
  assert (Hne : frontmatter <> []).
  { subst frontmatter. intros H. apply app_eq_nil in H as [_ H].
    apply app_eq_nil in H as [H _]. now destruct Hkey as [-> | ->]. }
  unfold safe_load_frontmatter. fold (cleaned_content frontmatter).
  destruct frontmatter as [|c fm] eqn:Efm; [contradiction|].
  rewrite <- Efm in *.
  assert (Hval : Str.strip_chars [" "%char; sq; dq] (group_or_empty m 1)
                 = value).
  { unfold group_or_empty. rewrite Hg. now apply plain_value_strip. }
  destruct Hkey as [-> | ->].
  - rewrite Hm, Hval.
    set (md1 := match search MULTILINE (field_pattern "description") _ with
                | Some m0 => _ | None => _ end).
    assert (H1 : md1 <> [] /\ dict_get md1 "title" = Some value).
    { subst md1.
      destruct (search MULTILINE (field_pattern "description") frontmatter).
      - split; [apply dict_set_not_nil|].
        rewrite dict_get_set_other by discriminate. apply dict_get_set_same.
      - split; [apply dict_set_not_nil | apply dict_get_set_same]. }
    destruct H1 as [H1 H2].
    destruct (yaml_safe_load (cleaned_content frontmatter)) as [parsed|].
    + pose proof (dict_update_not_nil parsed H1) as H3.
      destruct (dict_update md1 parsed) as [|e l] eqn:E; [contradiction|].
      exists (e :: l). split; [reflexivity | discriminate].
    + destruct md1 as [|e l]; [contradiction|].
      exists (e :: l). split; [reflexivity | intros _; exact H2].
  - rewrite Hm, Hval.
    set (md0 := match search MULTILINE (field_pattern "title") _ with
                | Some m0 => _ | None => _ end).
    assert (H1 : dict_set md0 "description" value <> []
                 /\ dict_get (dict_set md0 "description" value) "description"
                    = Some value)
      by (split; [apply dict_set_not_nil | apply dict_get_set_same]).
    destruct H1 as [H1 H2].
    destruct (yaml_safe_load (cleaned_content frontmatter)) as [parsed|].
    + pose proof (dict_update_not_nil parsed H1) as H3.
      destruct (dict_update _ parsed) as [|e l] eqn:E; [contradiction|].
      exists (e :: l). split; [reflexivity | discriminate].
    + destruct (dict_set md0 "description" value) as [|e l];
        [contradiction|].
      exists (e :: l). split; [reflexivity | intros _; exact H2].
Qed.

End FieldFacts.

Lemma field_line_is_extracted_witness :
  let frontmatter :=
    ("draft: no" ++ [nl]) ++ "title" ++ ":" ++ " " ++ "Getting Started"
    ++ ([nl] ++ "sidebar: none") in
  (exists m, search MULTILINE (field_pattern "title") frontmatter = Some m
             /\ group m 1 = Some ("Getting Started" : str))
  /\ exists metadata,
       safe_load_frontmatter Scenario.yaml_safe_load frontmatter = Some metadata
       /\ (Scenario.yaml_safe_load (cleaned_content frontmatter) = None ->
           dict_get metadata "title" = Some ("Getting Started" : str)).
Proof.
  apply (@field_line_is_extracted Scenario.yaml_safe_load "title"
           ("draft: no" ++ [nl]) " " "Getting Started"
           ([nl] ++ "sidebar: none"));
    first [reflexivity | left; reflexivity].
Defined.

(** ** Documents of a directory and of its subdirectories *)

Lemma key_below_subdir (d bp : str) (c : ascii) (s tail : str) (flag : str) :
  flag = "0" \/ flag = "1" ->
  (49 < nat_of_ascii c ->
   Str.ltb (d ++ "/" ++ flag ++ bp) ((d ++ "/" ++ c :: s) ++ tail) = true)
  /\ (nat_of_ascii c < 48 ->
      Str.ltb ((d ++ "/" ++ c :: s) ++ tail) (d ++ "/" ++ flag ++ bp) = true).
Proof.
  intros Hflag.
  replace ((d ++ "/" ++ c :: s) ++ tail) with (d ++ "/" ++ c :: s ++ tail)
    by (repeat (rewrite <- ?app_assoc, <- ?app_comm_cons); reflexivity).
  rewrite !ltb_app.
  split; intros Hc; destruct Hflag as [-> | ->];
    cbn [chars list_ascii_of_string app]; rewrite ltb_cons;
    apply orb_true_iff; left; apply Nat.ltb_lt;
    change (nat_of_ascii "0") with 48; change (nat_of_ascii "1") with 49; lia.
Qed.

(** X27: where the documents of a subdirectory fall depends on the first
    character of its name: after every document that lies directly in the
    parent directory when that character is above the digit 1, and before
    all of them, the parent's [index.md] included, when it is below the
    digit 0. *)
Theorem subdirectory_order_follows_first_character
    (root_dir : str) (t : tree) (out : list str)
    (i j : nat) (p q : str) (c : ascii) (s : str) :
  plain_tree t = true ->
  get_files_sorted root_dir t = Some out ->
  nth_error out i = Some p -> nth_error out j = Some q ->
  PosixPath.dirname q = PosixPath.dirname p ++ "/" ++ c :: s ->
  (49 < nat_of_ascii c -> i < j) /\ (nat_of_ascii c < 48 -> j < i).
Proof.
  intros Hp Hout Hi Hj Hq.
  split; intros Hc.
  - apply (@discovery_order_by_key root_dir t out Hp Hout i j p q Hi Hj).
    unfold key_of_path. rewrite Hq.
    destruct (Str.eqb (PosixPath.basename p) "index.md").
    + now apply (@key_below_subdir _ _ c s _ "0" (or_introl eq_refl)).
    + now apply (@key_below_subdir _ _ c s _ "1" (or_intror eq_refl)).
  - apply (@discovery_order_by_key root_dir t out Hp Hout j i q p Hj Hi).
    unfold key_of_path. rewrite Hq.
    destruct (Str.eqb (PosixPath.basename p) "index.md").
    + now apply (@key_below_subdir _ _ c s _ "0" (or_introl eq_refl)).
    + now apply (@key_below_subdir _ _ c s _ "1" (or_intror eq_refl)).
Qed.

Lemma subdirectory_order_follows_first_character_witness :
  get_files_sorted "docs"
    (Dir [("-misc" : str, Dir [] ["notes.md" : str])] ["index.md" : str])
  = Some ["docs/-misc/notes.md" : str; "docs/index.md" : str]
  /\ (49 < nat_of_ascii "-" -> 1 < 0) /\ (nat_of_ascii "-" < 48 -> 0 < 1).
Proof.
  split; [vm_compute; reflexivity|].
  apply (@subdirectory_order_follows_first_character "docs"
           (Dir [("-misc" : str, Dir [] ["notes.md" : str])] ["index.md" : str])
           ["docs/-misc/notes.md" : str; "docs/index.md" : str]
           1 0 "docs/index.md" "docs/-misc/notes.md" "-"%char "misc");
    reflexivity.
Defined.

(** ** The lines handed to the YAML parser *)

Lemma split_parts_without (sep : ascii) (a c : str) :
  In c (Str.split sep a) -> without sep c = true.
Proof.
  revert c. induction a as [|x a IH]; cbn [Str.split]; intros c H.
  - destruct H as [<-|[]]. reflexivity.
  - destruct (Ascii.eqb x sep) eqn:E.
    + destruct H as [<-|H]; [reflexivity | now apply IH].
    + destruct (Str.split sep a) as [|f fs]; cbn [In] in H.
      * destruct H as [<-|[]]. unfold without. cbn [forallb]. now rewrite E.
      * destruct H as [<-|H].
        -- unfold without. cbn [forallb]. rewrite E. cbn [negb andb].
           apply IH. now left.
        -- apply IH. now right.
Qed.

Lemma keep_line_has_colon (line : str) :
  keep_line line = true ->
  Str.contains line ":" = true
  /\ existsb (Str.contains line)
       ["githubIntegrationURL:" : str; "label:" : str;
        "maxHeadingLevel:" : str] = false.
Proof.
  unfold keep_line.
  destruct (existsb _ _); [discriminate|].
  destruct (Str.contains line ":"); [auto | discriminate].
Qed.

(** X28: the text handed to the YAML parser holds only lines of the
    frontmatter that contain a colon and none of the three skipped keys:
    a line without a colon, such as an item of a list or the continuation
    of a value, is dropped. *)
Theorem lines_without_colon_are_dropped (frontmatter_content line : str) :
  In line (Str.split nl (cleaned_content frontmatter_content)) ->
  (cleaned_content frontmatter_content = [] /\ line = [])
  \/ (In line (Str.split nl frontmatter_content)
      /\ Str.contains line ":" = true
      /\ existsb (Str.contains line)
           ["githubIntegrationURL:" : str; "label:" : str;
            "maxHeadingLevel:" : str] = false).
Proof.
  unfold cleaned_content.
  destruct (filter keep_line (Str.split nl frontmatter_content))
    as [|l kept] eqn:E.
  - cbn [Str.join Str.split]. intros [<-|[]]. now left.
  - rewrite split_join_lines.
    + intros Hin. right. rewrite <- E in Hin.
      apply filter_In in Hin as [Hin Hk]. split; [exact Hin|].
      now apply keep_line_has_colon.
    + discriminate.
    + apply forallb_forall. intros x Hx. rewrite <- E in Hx.
      apply filter_In in Hx as [Hx _].
      exact (@split_parts_without nl frontmatter_content x Hx).
Qed.

Lemma lines_without_colon_are_dropped_witness :
  (cleaned_content (text ["title: Tags"; "tags:"; "  - astro"; "  - docs"])
   = [] /\ chars "tags:" = [])
  \/ (In (chars "tags:")
        (Str.split nl (text ["title: Tags"; "tags:"; "  - astro"; "  - docs"]))
      /\ Str.contains "tags:" ":" = true
      /\ existsb (Str.contains "tags:")
           ["githubIntegrationURL:" : str; "label:" : str;
            "maxHeadingLevel:" : str] = false).
Proof.
  apply (@lines_without_colon_are_dropped
           (text ["title: Tags"; "tags:"; "  - astro"; "  - docs"]) "tags:").
  vm_compute. right. left. reflexivity.
Defined.
